(** * A shallow embedding of the Raft node of [src/lib/raft.go]

    The Go program keeps one [RaftNode] per process and mutates it from RPC
    handlers ([RequestVote], [AppendEntries], [ApplyMembership], [Execute])
    and from timer goroutines ([startElection], [leaderHeartbeat]).  Every
    function of the source is embedded as a computation in a small state
    monad over [RaftNode]; the monad has three outcomes, because the Go
    code has three: a call returns, a call never returns (it waits on
    [node.mu] or retries a dead contact for ever), or the process panics.

    What is not modelled: wall-clock time (the two tickers) and the JSON
    and gob encodings.  Replies of remote peers are supplied as scripts.
    [Execute] is given twice.  [Execute_run] follows a call goroutine by
    goroutine under a schedule of events: the goroutines take their steps
    in any order, a peer may never answer, [Execute] returns while
    goroutines are still running, and two writes of the map [nextIndex]
    that overlap end the program.  The function [Execute] is the one run
    in which the goroutines take their turns one after the other, in the
    order in which the source starts them, and have all ended before the
    acknowledgements are counted.  [startElection] sends all its requests
    before the first reply is handled. *)

From Stdlib Require Import ZArith String Ascii List Bool Lia.
From stdpp Require Import base option list gmap strings pretty.

Local Open Scope Z_scope.

(** ** Go's [int] (64 bits, two's complement) *)

Definition int_min : Z := - 2 ^ 63.
Definition int_max : Z := 2 ^ 63 - 1.

(** The value an [int] holds after an arithmetic result [z]. *)
Definition int_wrap (z : Z) : Z := (z + 2 ^ 63) mod 2 ^ 64 - 2 ^ 63.

Definition int_ok (z : Z) : Prop := int_min ≤ z ≤ int_max.

(** [x++] and [x--] on an [int]. *)
Definition int_incr (z : Z) : Z := int_wrap (z + 1).
Definition int_decr (z : Z) : Z := int_wrap (z - 1).

(** [len(s)] of a slice, as an [int]. A slice never holds more than
    [int_max] elements, so the conversion is exact. *)
Definition len {A : Type} (s : list A) : Z := Z.of_nat (length s).

(** [s[i]] with Go's bounds check: [None] stands for the run-time panic
    "index out of range". *)
Definition index {A : Type} (s : list A) (i : Z) : option A :=
  if i <? 0 then None else s !! Z.to_nat i.

(** ** Data model *)

Inductive NodeType : Type := LEADER | CANDIDATE | FOLLOWER.

Definition NodeType_eqb (a b : NodeType) : bool :=
  match a, b with
  | LEADER, LEADER | CANDIDATE, CANDIDATE | FOLLOWER, FOLLOWER => true
  | _, _ => false
  end.

Record LogEntry : Type := mkLogEntry { Term : Z; Command : string }.

(** A [net.Addr] value.  The source compares addresses through
    [String()], but uses the interface values themselves as keys of
    [nextIndex] and [matchIndex]: [addr_ptr] is the identity of the
    pointer the interface holds, [addr_str] the text [String()] returns. *)
Record Addr : Type := mkAddr { addr_ptr : positive; addr_str : string }.

(** [String()] of a [*net.TCPAddr], which the standard library defines
    on the nil pointer as well. *)
Definition TCPAddr_String (a : option Addr) : string :=
  match a with
  | Some a => addr_str a
  | None => "<nil>"%string
  end.

(** Modelled from the spec: the key-value store behind [node.app]
    ([NewKVStore], [Get], [Set], [Append], [Delete], [Len]), whose source
    file is not part of the sources at hand.  The spec gives: [get K] the
    current value of K, empty if absent; [set K V] stores V under K;
    [append K V] concatenates V to the value under K; [del K] deletes K and
    yields the prior value; [strlen K] the length of the value under K, 0
    if absent. *)
Module KVStore.
Definition t : Type := gmap string string.
Definition NewKVStore : t := ∅.
Definition Get (k : string) (s : t) : string := default ""%string (s !! k).
Definition Set_ (k v : string) (s : t) : t := <[k := v]> s.
Definition Append (k v : string) (s : t) : t := <[k := (Get k s ++ v)%string]> s.
Definition Delete (k : string) (s : t) : string * t := (Get k s, delete k s).
Definition Len (k : string) (s : t) : Z := Z.of_nat (String.length (Get k s)).
End KVStore.

Record RaftNode : Type := mkRaftNode {
  mu : bool;                        (* sync.Mutex: [true] while locked *)
  address : Addr;
  nodeType : NodeType;
  app : KVStore.t;
  clusterAddrList : list Addr;
  clusterLeader : option Addr;      (* *net.TCPAddr, nil is [None] *)
  contactAddr : option Addr;        (* *net.Addr, nil is [None] *)
  electionTerm : Z;
  (* persistent server state *)
  currentTerm : Z;
  votedFor : option Addr;           (* nil is [None] *)
  log : list LogEntry;
  (* volatile server state *)
  commitIndex : Z;
  lastApplied : Z;
  (* volatile leader state; a missing key reads as 0, as in Go *)
  nextIndex : gmap positive Z;
  matchIndex : gmap positive Z
}.

Record RaftVoteRequest : Type := mkRaftVoteRequest {
  VReq_Term : Z;
  CandidateId : Addr;
  LastLogIndex : Z;
  LastLogTerm : Z
}.

Record RaftVoteResponse : Type := mkRaftVoteResponse {
  VResp_Term : Z;
  VoteGranted : bool
}.

Record AppendEntriesRequest : Type := mkAppendEntriesRequest {
  AReq_Term : Z;
  LeaderId : Addr;
  PrevLogIndex : Z;
  PrevLogTerm : Z;
  Entries : list LogEntry;
  LeaderCommit : Z
}.

Record AppendEntriesResponse : Type := mkAppendEntriesResponse {
  AResp_Term : Z;
  Success : bool
}.

(** The reply of [ApplyMembership]. *)
Record MembershipResponse : Type := mkMembershipResponse {
  status : string;
  resp_clusterAddrList : list string;
  resp_clusterLeader : string
}.

(** The reply of [Execute]: the two JSON objects the source builds, or
    nothing when the function returns without writing [*reply]. *)
Inductive ExecuteReply : Type :=
  | ReplyError (error leaderAddr : string)
  | ReplyResult (result : string) (ok : bool)
  | ReplyNone.

(** *** Field updates *)

Definition set_mu (v : bool) (n : RaftNode) : RaftNode :=
  mkRaftNode v (address n) (nodeType n) (app n) (clusterAddrList n)
    (clusterLeader n) (contactAddr n) (electionTerm n) (currentTerm n)
    (votedFor n) (log n) (commitIndex n) (lastApplied n) (nextIndex n)
    (matchIndex n).

Definition set_nodeType (v : NodeType) (n : RaftNode) : RaftNode :=
  mkRaftNode (mu n) (address n) v (app n) (clusterAddrList n)
    (clusterLeader n) (contactAddr n) (electionTerm n) (currentTerm n)
    (votedFor n) (log n) (commitIndex n) (lastApplied n) (nextIndex n)
    (matchIndex n).

Definition set_app (v : KVStore.t) (n : RaftNode) : RaftNode :=
  mkRaftNode (mu n) (address n) (nodeType n) v (clusterAddrList n)
    (clusterLeader n) (contactAddr n) (electionTerm n) (currentTerm n)
    (votedFor n) (log n) (commitIndex n) (lastApplied n) (nextIndex n)
    (matchIndex n).

Definition set_clusterAddrList (v : list Addr) (n : RaftNode) : RaftNode :=
  mkRaftNode (mu n) (address n) (nodeType n) (app n) v
    (clusterLeader n) (contactAddr n) (electionTerm n) (currentTerm n)
    (votedFor n) (log n) (commitIndex n) (lastApplied n) (nextIndex n)
    (matchIndex n).

Definition set_clusterLeader (v : option Addr) (n : RaftNode) : RaftNode :=
  mkRaftNode (mu n) (address n) (nodeType n) (app n) (clusterAddrList n)
    v (contactAddr n) (electionTerm n) (currentTerm n)
    (votedFor n) (log n) (commitIndex n) (lastApplied n) (nextIndex n)
    (matchIndex n).

Definition set_electionTerm (v : Z) (n : RaftNode) : RaftNode :=
  mkRaftNode (mu n) (address n) (nodeType n) (app n) (clusterAddrList n)
    (clusterLeader n) (contactAddr n) v (currentTerm n)
    (votedFor n) (log n) (commitIndex n) (lastApplied n) (nextIndex n)
    (matchIndex n).

Definition set_votedFor (v : option Addr) (n : RaftNode) : RaftNode :=
  mkRaftNode (mu n) (address n) (nodeType n) (app n) (clusterAddrList n)
    (clusterLeader n) (contactAddr n) (electionTerm n) (currentTerm n)
    v (log n) (commitIndex n) (lastApplied n) (nextIndex n)
    (matchIndex n).

Definition set_log (v : list LogEntry) (n : RaftNode) : RaftNode :=
  mkRaftNode (mu n) (address n) (nodeType n) (app n) (clusterAddrList n)
    (clusterLeader n) (contactAddr n) (electionTerm n) (currentTerm n)
    (votedFor n) v (commitIndex n) (lastApplied n) (nextIndex n)
    (matchIndex n).

Definition set_commitIndex (v : Z) (n : RaftNode) : RaftNode :=
  mkRaftNode (mu n) (address n) (nodeType n) (app n) (clusterAddrList n)
    (clusterLeader n) (contactAddr n) (electionTerm n) (currentTerm n)
    (votedFor n) (log n) v (lastApplied n) (nextIndex n)
    (matchIndex n).

Definition set_lastApplied (v : Z) (n : RaftNode) : RaftNode :=
  mkRaftNode (mu n) (address n) (nodeType n) (app n) (clusterAddrList n)
    (clusterLeader n) (contactAddr n) (electionTerm n) (currentTerm n)
    (votedFor n) (log n) (commitIndex n) v (nextIndex n)
    (matchIndex n).

Definition set_nextIndex (v : gmap positive Z) (n : RaftNode) : RaftNode :=
  mkRaftNode (mu n) (address n) (nodeType n) (app n) (clusterAddrList n)
    (clusterLeader n) (contactAddr n) (electionTerm n) (currentTerm n)
    (votedFor n) (log n) (commitIndex n) (lastApplied n) v
    (matchIndex n).

Definition set_matchIndex (v : gmap positive Z) (n : RaftNode) : RaftNode :=
  mkRaftNode (mu n) (address n) (nodeType n) (app n) (clusterAddrList n)
    (clusterLeader n) (contactAddr n) (electionTerm n) (currentTerm n)
    (votedFor n) (log n) (commitIndex n) (lastApplied n) (nextIndex n)
    v.

(** [m[k]] on a Go map of ints: the zero value when the key is missing. *)
Definition map_get (m : gmap positive Z) (a : Addr) : Z :=
  default 0 (m !! addr_ptr a).

(** ** The monad of node operations *)

Inductive Outcome (A : Type) : Type :=
  | Done (a : A) (st : RaftNode)   (* the call returned [a] *)
  | Hang (st : RaftNode)           (* the call never returns; [st] is the
                                      node as the stuck goroutine left it *)
  | Panic.                         (* run-time panic: the process dies *)
Arguments Done {A} a st.
Arguments Hang {A} st.
Arguments Panic {A}.

Definition M (A : Type) : Type := RaftNode → Outcome A.

#[global] Instance M_ret : MRet M := λ A a st, Done a st.
#[global] Instance M_bind : MBind M := λ A B f m st,
  match m st with
  | Done a st' => f a st'
  | Hang st' => Hang st'
  | Panic => Panic
  end.

Definition get : M RaftNode := λ st, Done st st.
Definition modify (f : RaftNode → RaftNode) : M unit := λ st, Done tt (f st).
Definition panic {A : Type} : M A := λ _, Panic.
Definition hang {A : Type} : M A := λ st, Hang st.

(** [node.mu.Lock()]: [sync.Mutex] is not re-entrant, a goroutine that
    locks a mutex which is held waits until it is released.  Operations are
    run one at a time, so a mutex found held is held either by the caller
    itself or by a goroutine that is stuck; nothing in the source releases
    [node.mu] on behalf of another goroutine, and the wait never ends. *)
Definition Lock : M unit := λ st,
  if mu st then Hang st else Done tt (set_mu true st).

(** [node.mu.Unlock()]; unlocking an unlocked mutex is a fatal error. *)
Definition Unlock : M unit := λ st,
  if mu st then Done tt (set_mu false st) else Panic.

(** [node.mu.Lock(); defer node.mu.Unlock()] around a function body. *)
Definition locked {A : Type} (body : M A) : M A :=
  Lock ;; r ← body; Unlock ;; mret r.

(** The node an outcome leaves behind, if the process is still alive. *)
Definition node_after {A : Type} (o : Outcome A) : option RaftNode :=
  match o with
  | Done _ st => Some st
  | Hang st => Some st
  | Panic => None
  end.

(** [s[i]] inside an operation: the panic of an out-of-range index ends
    the operation. *)
Definition at_index {A : Type} (s : list A) (i : Z) : M A :=
  match index s i with
  | Some x => mret x
  | None => panic
  end.

(** ** The state-machine adapter: [apply] *)

(** *** [strings.Fields]

    A Go string is a sequence of bytes, here a [string] of 8-bit
    characters.  [strings.Fields] splits it around the runs of white space.
    When every byte is below [utf8.RuneSelf] it reads the table
    [asciiSpace] byte by byte; otherwise it hands the string to
    [FieldsFunc] with [unicode.IsSpace], which ranges over the runes that
    the UTF-8 decoder finds in it. *)

Definition byte_of (c : ascii) : Z := Z.of_N (N_of_ascii c).

(** The table [asciiSpace]: tab, line feed, vertical tab, form feed,
    carriage return and space. *)
Definition isSpace (c : ascii) : bool :=
  let n := nat_of_ascii c in
  ((n =? 9) || (n =? 10) || (n =? 11) || (n =? 12) || (n =? 13) || (n =? 32))%nat.

Definition flush (w : string) (rest : list string) : list string :=
  match w with
  | EmptyString => rest
  | _ => w :: rest
  end.

(** The ASCII path.  [Fields_from w s]: the fields of [s], where [w] is the
    field read so far. *)
Fixpoint Fields_from (w s : string) : list string :=
  match s with
  | EmptyString => flush w []
  | String c s' =>
      if isSpace c then flush w (Fields_from EmptyString s')
      else Fields_from (w ++ String c EmptyString)%string s'
  end.

(** [unicode.IsSpace]: the Latin-1 cases of the switch, then the table
    [White_Space]. *)
Definition IsSpace (r : Z) : bool :=
  if r <=? 0xFF then
    (r =? 0x09) || (r =? 0x0A) || (r =? 0x0B) || (r =? 0x0C) || (r =? 0x0D)
    || (r =? 0x20) || (r =? 0x85) || (r =? 0xA0)
  else
    (r =? 0x1680) || ((0x2000 <=? r) && (r <=? 0x200A))
    || (r =? 0x2028) || (r =? 0x2029) || (r =? 0x202F) || (r =? 0x205F)
    || (r =? 0x3000).

(** [utf8.RuneError], the rune that stands for a byte that is not part of
    a valid encoding. *)
Definition RuneError : Z := 0xFFFD.

(** What the table [first] of package [utf8] says of a first byte: ASCII,
    not a first byte at all, or the first of [size] bytes whose second byte
    lies between [lo] and [hi] (the table [acceptRanges]). *)
Inductive FirstByte : Type :=
  | AS
  | XX
  | Lead (size : nat) (lo hi : Z).

Definition first (s0 : Z) : FirstByte :=
  if s0 <? 0x80 then AS
  else if s0 <? 0xC2 then XX
  else if s0 <? 0xE0 then Lead 2 0x80 0xBF
  else if s0 =? 0xE0 then Lead 3 0xA0 0xBF
  else if s0 <? 0xED then Lead 3 0x80 0xBF
  else if s0 =? 0xED then Lead 3 0x80 0x9F
  else if s0 <? 0xF0 then Lead 3 0x80 0xBF
  else if s0 =? 0xF0 then Lead 4 0x90 0xBF
  else if s0 <? 0xF4 then Lead 4 0x80 0xBF
  else if s0 =? 0xF4 then Lead 4 0x80 0x8F
  else XX.

(** A byte between [locb] and [hicb]. *)
Definition continuation (b : Z) : bool := (0x80 <=? b) && (b <=? 0xBF).

(** [utf8.DecodeRuneInString] on the bytes of a string: the first rune and
    its width.  Bytes that do not start a valid encoding give [RuneError]
    and width 1. *)
Definition decode (bs : list Z) : Z * nat :=
  match bs with
  | [] => (RuneError, 0%nat)
  | s0 :: rest =>
      match first s0 with
      | AS => (s0, 1%nat)
      | XX => (RuneError, 1%nat)
      | Lead size lo hi =>
          if (length bs <? size)%nat then (RuneError, 1%nat)
          else
            match rest with
            | [] => (RuneError, 1%nat)
            | s1 :: rest1 =>
                if (s1 <? lo) || (hi <? s1) then (RuneError, 1%nat)
                else if (size <=? 2)%nat then
                  (Z.lor (Z.shiftl (Z.land s0 0x1F) 6) (Z.land s1 0x3F), 2%nat)
                else
                  match rest1 with
                  | [] => (RuneError, 1%nat)
                  | s2 :: rest2 =>
                      if negb (continuation s2) then (RuneError, 1%nat)
                      else if (size <=? 3)%nat then
                        (Z.lor (Z.lor (Z.shiftl (Z.land s0 0x0F) 12)
                                  (Z.shiftl (Z.land s1 0x3F) 6))
                           (Z.land s2 0x3F), 3%nat)
                      else
                        match rest2 with
                        | [] => (RuneError, 1%nat)
                        | s3 :: _ =>
                            if negb (continuation s3) then (RuneError, 1%nat)
                            else
                              (Z.lor (Z.lor (Z.lor (Z.shiftl (Z.land s0 0x07) 18)
                                               (Z.shiftl (Z.land s1 0x3F) 12))
                                        (Z.shiftl (Z.land s2 0x3F) 6))
                                 (Z.land s3 0x3F), 4%nat)
                        end
                  end
            end
      end
  end.

Definition DecodeRuneInString (s : string) : Z * nat :=
  decode (map byte_of (list_ascii_of_string s)).

(** [for end, rune := range s]: the runes of [s] in order, each with the
    bytes it was decoded from.  [skip] counts the bytes of the rune decoded
    last that are still ahead. *)
Fixpoint range_from (skip : nat) (s : string) : list (Z * string) :=
  match s with
  | EmptyString => []
  | String c s' =>
      match skip with
      | S k => range_from k s'
      | O =>
          let '(r, size) := DecodeRuneInString s in
          (r, substring 0 size s) :: range_from (size - 1) s'
      end
  end.

(** [strings.FieldsFunc]: a field ends at a rune that satisfies [f]. *)
Fixpoint FieldsFunc_from (f : Z → bool) (w : string) (runes : list (Z * string))
    : list string :=
  match runes with
  | [] => flush w []
  | (r, bytes) :: rest =>
      if f r then flush w (FieldsFunc_from f EmptyString rest)
      else FieldsFunc_from f (w ++ bytes)%string rest
  end.

Definition FieldsFunc (f : Z → bool) (s : string) : list string :=
  FieldsFunc_from f EmptyString (range_from 0 s).

(** [setBits < utf8.RuneSelf] *)
Definition all_ascii (s : string) : bool :=
  forallb (λ c, byte_of c <? 0x80) (list_ascii_of_string s).

(** [strings.Fields] *)
Definition Fields (s : string) : list string :=
  if all_ascii s then Fields_from EmptyString s else FieldsFunc IsSpace s.

(** U+00A0, the no-break space, as it stands in a Go string: two bytes. *)
Definition nbsp : string :=
  String (ascii_of_nat 0xC2) (String (ascii_of_nat 0xA0) EmptyString).

(** [strconv.Itoa] *)
Definition Itoa (z : Z) : string := pretty z.

Definition apply (command : string) : M (string * bool) :=
  let parts := Fields command in
  match parts with
  | [] => mret (""%string, false)
  | verb :: operands =>
      if String.eqb verb "get" then
        match operands with
        | k :: _ => st ← get; mret (KVStore.Get k (app st), true)
        | _ => mret (""%string, false)
        end
      else if String.eqb verb "strlen" then
        match operands with
        | k :: _ => st ← get; mret (Itoa (KVStore.Len k (app st)), true)
        | _ => mret (""%string, false)
        end
      else if String.eqb verb "del" then
        match operands with
        | k :: _ =>
            st ← get;
            let '(old, kv) := KVStore.Delete k (app st) in
            modify (set_app kv) ;; mret (old, true)
        | _ => mret (""%string, false)
        end
      else if String.eqb verb "set" then
        match operands with
        | k :: v :: _ =>
            modify (λ st, set_app (KVStore.Set_ k v (app st)) st) ;;
            mret ("OK"%string, true)
        | _ => mret (""%string, false)
        end
      else if String.eqb verb "append" then
        match operands with
        | k :: v :: _ =>
            modify (λ st, set_app (KVStore.Append k v (app st)) st) ;;
            mret ("OK"%string, true)
        | _ => mret (""%string, false)
        end
      else mret (""%string, false)
  end.

(** ** The commit / apply step: [commit] *)

Definition commit : M (string * bool) :=
  locked (
    st ← get;
    if commitIndex st >? lastApplied st then
      modify (λ st, set_lastApplied (int_incr (lastApplied st)) st) ;;
      st ← get;
      entry ← at_index (log st) (lastApplied st);
      apply (Command entry)
    else mret (""%string, false)).

(** ** [RequestVote] *)

(** The first test of the handler (source line 209). *)
Definition vote_term_rejects (args : RaftVoteRequest) (st : RaftNode) : bool :=
  VReq_Term args >? currentTerm st.

(** [node.votedFor == nil || node.votedFor.String() == args.CandidateId.String()] *)
Definition votedFor_allows (args : RaftVoteRequest) (st : RaftNode) : bool :=
  match votedFor st with
  | None => true
  | Some v => String.eqb (addr_str v) (addr_str (CandidateId args))
  end.

Definition RequestVote (args : RaftVoteRequest) : M RaftVoteResponse :=
  locked (
    st ← get;
    if vote_term_rejects args st then
      mret (mkRaftVoteResponse (currentTerm st) false)
    else
      lastLogTerm ← (if len (log st) =? 0 then mret 0
                     else e ← at_index (log st) (len (log st) - 1); mret (Term e));
      if votedFor_allows args st
         && ((LastLogIndex args >=? len (log st) - 1)
             && (LastLogTerm args >=? lastLogTerm))
      then
        modify (set_votedFor (Some (CandidateId args))) ;;
        mret (mkRaftVoteResponse (currentTerm st) true)
      else
        mret (mkRaftVoteResponse (currentTerm st) false)).

(** ** [AppendEntries] *)

(** The first test of the handler (source line 270). *)
Definition append_term_rejects (args : AppendEntriesRequest) (st : RaftNode) : bool :=
  AReq_Term args <? currentTerm st.

(** The three-way test of source lines 284-310: [true] when the request
    goes on to be accepted. *)
Definition consistency_check (args : AppendEntriesRequest) : M bool :=
  st ← get;
  if PrevLogIndex args =? -1 then mret true
  else if len (log st) - 1 <? PrevLogIndex args then mret false
  else
    e ← at_index (log st) (PrevLogIndex args);
    if negb (Term e =? PrevLogTerm args) then mret false else mret true.

Definition AppendEntries (args : AppendEntriesRequest) : M AppendEntriesResponse :=
  locked (
    st ← get;
    let term := currentTerm st in
    if append_term_rejects args st then
      mret (mkAppendEntriesResponse term false)
    else
      pass ← consistency_check args;
      if negb pass then mret (mkAppendEntriesResponse term false)
      else
        (if len (Entries args) =? 0 then mret tt
         else modify (λ st,
                set_log (take (Z.to_nat (PrevLogIndex args + 1)) (log st)
                         ++ Entries args) st)) ;;
        st ← get;
        (if LeaderCommit args >? commitIndex st then
           modify (set_commitIndex (Z.min (LeaderCommit args) (len (log st) - 1)))
         else mret tt) ;;
        st ← get;
        (if commitIndex st >? lastApplied st then commit ;; mret tt
         else mret tt) ;;
        mret (mkAppendEntriesResponse term true)).

(** The log and the commit index of a node once [AppendEntries] has
    accepted a request (source lines 314-325). *)
Definition accepted_log (args : AppendEntriesRequest) (st : RaftNode) : list LogEntry :=
  if len (Entries args) =? 0 then log st
  else take (Z.to_nat (PrevLogIndex args + 1)) (log st) ++ Entries args.

Definition accepted_commitIndex (args : AppendEntriesRequest) (st : RaftNode) : Z :=
  if LeaderCommit args >? commitIndex st
  then Z.min (LeaderCommit args) (len (accepted_log args st) - 1)
  else commitIndex st.

(** ** Membership: [ApplyMembership], [initializeAsLeader],
       [tryToApplyMembership], [NewRaftNode] *)

Definition same_addr (a b : Addr) : bool := String.eqb (addr_str a) (addr_str b).

Definition ApplyMembership (args : Addr) : M MembershipResponse :=
  locked (
    st ← get;
    let found := existsb (λ addr, same_addr addr args) (clusterAddrList st) in
    (if negb found then modify (set_clusterAddrList (clusterAddrList st ++ [args]))
     else mret tt) ;;
    st ← get;
    mret (mkMembershipResponse "success" (map addr_str (clusterAddrList st))
            (TCPAddr_String (clusterLeader st)))).

(** The body of the loop "Initialize nextIndex and matchIndex". *)
Definition init_indexes (addr : Addr) (st : RaftNode) : RaftNode :=
  set_matchIndex (<[addr_ptr addr := -1]> (matchIndex st))
    (set_nextIndex (<[addr_ptr addr := len (log st)]> (nextIndex st)) st).

Definition initializeAsLeader : M unit :=
  locked (
    modify (set_nodeType LEADER) ;;
    modify (λ st, set_clusterLeader (Some (address st)) st) ;;
    modify (λ st, set_clusterAddrList (clusterAddrList st ++ [address st]) st) ;;
    modify (λ st, fold_left (λ st addr, init_indexes addr st) (clusterAddrList st) st)).

(** What one round of [tryToApplyMembership] gets back from the contact,
    after [json.Unmarshal] and the parsing of the addresses. *)
Inductive JoinReply : Type :=
  | JoinUnreadable                       (* no reply, or not JSON *)
  | JoinMalformed                        (* a type assertion fails *)
  | JoinSuccess (addrs : list Addr) (leader : option Addr)
  | JoinRedirected (to : Addr)
  | JoinOtherStatus.

(** The loop of [tryToApplyMembership]; when the replies run out the
    contact has become unreachable and the loop spins for ever. *)
Fixpoint tryToApplyMembership (contact : Addr) (replies : list JoinReply) : M unit :=
  match replies with
  | [] => hang
  | JoinUnreadable :: rest => tryToApplyMembership contact rest
  | JoinMalformed :: _ => panic
  | JoinSuccess addrs leader :: _ =>
      Lock ;;
      modify (set_clusterAddrList addrs) ;;
      modify (set_clusterLeader leader) ;;
      Unlock
  | JoinRedirected to :: rest => tryToApplyMembership to rest
  | JoinOtherStatus :: rest => tryToApplyMembership contact rest
  end.

(** The struct literal of [NewRaftNode]. *)
Definition blank_node (addr : Addr) (contact : option Addr) : RaftNode :=
  {| mu := false; address := addr; nodeType := FOLLOWER;
     app := KVStore.NewKVStore; clusterAddrList := []; clusterLeader := None;
     contactAddr := contact; electionTerm := 0; currentTerm := 0;
     votedFor := None; log := []; commitIndex := -1; lastApplied := -1;
     nextIndex := ∅; matchIndex := ∅ |}.

Definition append_log (e : LogEntry) : M unit :=
  modify (λ st, set_log (log st ++ [e]) st).

(** [NewRaftNode]: the outcome carries the node that is returned. *)
Definition NewRaftNode (addr : Addr) (contact : option Addr)
    (replies : list JoinReply) : Outcome unit :=
  (append_log (mkLogEntry 0 "zero") ;;
   append_log (mkLogEntry 1 "one") ;;
   append_log (mkLogEntry 2 "two") ;;
   match contact with
   | None => initializeAsLeader
   | Some c => tryToApplyMembership c replies
   end) (blank_node addr contact).

(** ** Elections: [startElection] *)

(** The [for] loop of [startElection] up to the sending of the requests:
    the peers that are asked, each with the request it is sent. *)
Fixpoint vote_requests (addrs : list Addr) : M (list (Addr * RaftVoteRequest)) :=
  match addrs with
  | [] => mret []
  | addr :: rest =>
      st ← get;
      skip ← (if same_addr addr (address st) then mret true
              else match contactAddr st with
                   | Some c => mret (same_addr addr c)
                   | None => panic     (* nil pointer dereference *)
                   end);
      sent ← vote_requests rest;
      if (skip : bool) then mret sent
      else mret ((addr, mkRaftVoteRequest (electionTerm st) (address st)
                          (len (log st) - 1) 0) :: sent)
  end.

(** What a vote goroutine does with the decoded reply; [voteCount] is the
    counter shared by the goroutines of one election. *)
Definition on_vote_response (result : RaftVoteResponse) (voteCount : Z) : M Z :=
  st ← get;
  if VResp_Term result >? electionTerm st then
    locked (modify (set_nodeType FOLLOWER) ;;
            modify (set_electionTerm (VResp_Term result))) ;;
    mret voteCount
  else if VoteGranted result then
    let voteCount := int_incr voteCount in
    if voteCount >? len (clusterAddrList st) `quot` 2 then
      locked (modify (set_nodeType LEADER) ;;
              modify (λ st, set_clusterLeader (Some (address st)) st)) ;;
      mret voteCount
    else mret voteCount
  else mret voteCount.

(** A reply that does not decode leaves [result] at its zero value. *)
Definition decode_vote (r : option RaftVoteResponse) : RaftVoteResponse :=
  default (mkRaftVoteResponse 0 false) r.

Fixpoint collect_votes (votes : Addr → option RaftVoteResponse)
    (asked : list Addr) (voteCount : Z) : M Z :=
  match asked with
  | [] => mret voteCount
  | addr :: rest =>
      voteCount ← on_vote_response (decode_vote (votes addr)) voteCount;
      collect_votes votes rest voteCount
  end.

(** The first half of [startElection]: the critical section and the
    sending of the requests. *)
Definition begin_election : M (list (Addr * RaftVoteRequest)) :=
  Lock ;;
  modify (set_nodeType CANDIDATE) ;;
  modify (λ st, set_electionTerm (int_incr (electionTerm st)) st) ;;
  modify (set_clusterLeader None) ;;
  Unlock ;;
  st ← get;
  vote_requests (clusterAddrList st).

(** [startElection]; the result is the list of requests sent. *)
Definition startElection (votes : Addr → option RaftVoteResponse)
    : M (list (Addr * RaftVoteRequest)) :=
  sent ← begin_election;
  collect_votes votes (map fst sent) 1 ;;
  mret sent.

(** The peers [startElection] asks: those whose address is neither the
    node's own nor that of its contact [c]. *)
Definition asked_peers (c : Addr) (st : RaftNode) : list Addr :=
  List.filter (λ a, negb (same_addr a (address st)) && negb (same_addr a c))
    (clusterAddrList st).

(** ** Replication: [leaderHeartbeat] and [Execute] *)

(** The requests of one tick of [leaderHeartbeat]. *)
Fixpoint heartbeat_requests (addrs : list Addr) : M (list (Addr * AppendEntriesRequest)) :=
  match addrs with
  | [] => mret []
  | addr :: rest =>
      st ← get;
      if same_addr addr (address st) then heartbeat_requests rest
      else
        let prev := int_wrap (map_get (nextIndex st) addr - 1) in
        prevLogTerm ← (if prev <? 0 then mret 0
                       else e ← at_index (log st) prev; mret (Term e));
        sent ← heartbeat_requests rest;
        mret ((addr, mkAppendEntriesRequest (currentTerm st) (address st)
                       prev prevLogTerm [] (commitIndex st)) :: sent)
  end.

Definition leaderHeartbeat : M (list (Addr * AppendEntriesRequest)) :=
  st ← get; heartbeat_requests (clusterAddrList st).

(** The body of the retry loop of [Execute] once a reply has been decoded
    (source lines 631-644): [None] when the loop ends with the reply put on
    the channel, otherwise the request of the next round. *)
Definition on_append_response (addr : Addr) (request : AppendEntriesRequest)
    (result : AppendEntriesResponse) : M (option AppendEntriesRequest) :=
  if Success result then
    modify (λ st, set_nextIndex
      (<[addr_ptr addr := int_incr (map_get (nextIndex st) addr)]> (nextIndex st)) st) ;;
    mret None
  else
    let prev := int_decr (PrevLogIndex request) in
    modify (λ st, set_nextIndex
      (<[addr_ptr addr := int_decr (map_get (nextIndex st) addr)]> (nextIndex st)) st) ;;
    st ← get;
    prevLogTerm ← (if prev <? 0 then mret 0
                   else e ← at_index (log st) prev; mret (Term e));
    mret (Some (mkAppendEntriesRequest (AReq_Term request) (LeaderId request)
                  prev prevLogTerm (Entries request) (LeaderCommit request))).

(** The goroutine of [Execute] for one peer, run from its start to its end
    with no other goroutine in between.  [replies] are the decoded replies
    of the peer, [None] for a reply that does not decode; when they run out
    the peer has become unreachable (the dial fails).  The result is the
    reply put on the channel, if any.  A peer that keeps the connection and
    never answers has no script; see [Execute_run]. *)
Fixpoint replicate_to (addr : Addr) (request : AppendEntriesRequest)
    (replies : list (option AppendEntriesResponse)) : M (option AppendEntriesResponse) :=
  match replies with
  | [] => mret None
  | None :: _ => mret None
  | Some result :: rest =>
      next ← on_append_response addr request result;
      match next with
      | None => mret (Some result)
      | Some request' => replicate_to addr request' rest
      end
  end.

(** The loop of [Execute] over the cluster list when each goroutine runs to
    its end before the next is started; the result is the content of the
    channel [responses].  This is one of the schedules of [Execute_run],
    which has them all. *)
Fixpoint fan_out (acks : Addr → list (option AppendEntriesResponse))
    (addrs : list Addr) : M (list AppendEntriesResponse) :=
  match addrs with
  | [] => mret []
  | addr :: rest =>
      st ← get;
      if same_addr addr (address st) then fan_out acks rest
      else
        prevLogTerm ← (if len (log st) - 2 <? 0 then mret 0
                       else e ← at_index (log st) (len (log st) - 2); mret (Term e));
        let request :=
          mkAppendEntriesRequest (currentTerm st) (address st)
            (len (log st) - 2) prevLogTerm
            (drop (Z.to_nat (len (log st) - 1)) (log st)) (commitIndex st) in
        r ← replicate_to addr request (acks addr);
        rs ← fan_out acks rest;
        mret (match r with Some r => r :: rs | None => rs end)
  end.

(** The loop "If majority ACK received, commit the log". *)
Fixpoint tally (responses : list AppendEntriesResponse) (successCount : Z)
    : M ExecuteReply :=
  match responses with
  | [] => mret ReplyNone
  | response :: rest =>
      if Success response then
        let successCount := int_incr successCount in
        st ← get;
        if successCount >? len (clusterAddrList st) `quot` 2 then
          '(res, ok) ← commit;
          mret (ReplyResult res ok)
        else tally rest successCount
      else tally rest successCount
  end.

(** "Append the command to the log": the critical section of [Execute]. *)
Definition append_command (args : string) : M unit :=
  Lock ;;
  modify (λ st, set_log (log st ++ [mkLogEntry (currentTerm st) args]) st) ;;
  Unlock.

Definition Execute (args : string)
    (acks : Addr → list (option AppendEntriesResponse)) : M ExecuteReply :=
  st ← get;
  if negb (NodeType_eqb (nodeType st) LEADER) then
    mret (ReplyError "Not leader" (TCPAddr_String (clusterLeader st)))
  else
    append_command args ;;
    st ← get;
    responses ← fan_out acks (clusterAddrList st);
    tally responses 0.

(** ** The vote rule and the log store in the words of the specification *)

(** The three placeholder entries every node starts with. *)
Definition boot_log : list LogEntry :=
  [mkLogEntry 0 "zero"; mkLogEntry 1 "one"; mkLogEntry 2 "two"].

(** Index and term of the receiver's last log entry; -1 and 0 on an empty
    log. *)
Definition localLastLogIndex (st : RaftNode) : Z := len (log st) - 1.

Definition localLastLogTerm (st : RaftNode) : Z :=
  match last (log st) with
  | Some e => Term e
  | None => 0
  end.

(** "votedFor is none or equals args.candidateId"; addresses are equal
    when their texts are. *)
Definition votedFor_free (args : RaftVoteRequest) (st : RaftNode) : Prop :=
  votedFor st = None ∨
  ∃ v, votedFor st = Some v ∧ addr_str v = addr_str (CandidateId args).

(** The specification's rule: the candidate's log is at least as up to
    date, by term first and index second. *)
Definition spec_up_to_date (args : RaftVoteRequest) (st : RaftNode) : Prop :=
  LastLogTerm args > localLastLogTerm st ∨
  (LastLogTerm args = localLastLogTerm st ∧
   LastLogIndex args >= localLastLogIndex st).

Definition spec_vote_rule (args : RaftVoteRequest) (st : RaftNode) : Prop :=
  votedFor_free args st ∧ spec_up_to_date args st.

(** The specification's consistency check of [AppendEntries]. *)
Definition spec_consistent (args : AppendEntriesRequest) (st : RaftNode) : Prop :=
  PrevLogIndex args = -1 ∨
  (PrevLogIndex args < len (log st) ∧
   ∃ e, index (log st) (PrevLogIndex args) = Some e ∧ Term e = PrevLogTerm args).

(** [term_at] of the specification's log store: the term of entry [i], 0
    for an index below 0. *)
Definition term_at (l : list LogEntry) (i : Z) : Z :=
  if i <? 0 then 0
  else match index l i with
       | Some e => Term e
       | None => 0
       end.

(** ** Operations of a node and the states a node can reach *)

Inductive Op : Type :=
  | OpRequestVote (args : RaftVoteRequest)
  | OpAppendEntries (args : AppendEntriesRequest)
  | OpApplyMembership (args : Addr)
  | OpStartElection (votes : Addr → option RaftVoteResponse)
  | OpLeaderHeartbeat
  | OpCommit
  | OpExecute (args : string) (acks : Addr → list (option AppendEntriesResponse))
  (* the goroutines of [startElection] and [Execute], piece by piece *)
  | OpVoteResponse (result : RaftVoteResponse) (voteCount : Z)
  | OpAppendCommand (args : string)
  | OpAppendResponse (addr : Addr) (request : AppendEntriesRequest)
      (result : AppendEntriesResponse).

(** The node after an operation; [None] when the process has died. *)
Definition step (op : Op) (st : RaftNode) : option RaftNode :=
  match op with
  | OpRequestVote args => node_after (RequestVote args st)
  | OpAppendEntries args => node_after (AppendEntries args st)
  | OpApplyMembership args => node_after (ApplyMembership args st)
  | OpStartElection votes => node_after (startElection votes st)
  | OpLeaderHeartbeat => node_after (leaderHeartbeat st)
  | OpCommit => node_after (commit st)
  | OpExecute args acks => node_after (Execute args acks st)
  | OpVoteResponse result voteCount =>
      node_after (on_vote_response result voteCount st)
  | OpAppendCommand args => node_after (append_command args st)
  | OpAppendResponse addr request result =>
      node_after (on_append_response addr request result st)
  end.

(** The states of a node: what [NewRaftNode] returns, and what an
    operation leaves.  Every operation is one step; the last three let the
    goroutines that [startElection] and [Execute] spawn run between other
    operations as well. *)
Inductive reachable : RaftNode → Prop :=
  | reachable_new addr contact replies st :
      NewRaftNode addr contact replies = Done tt st → reachable st
  | reachable_step st op st' :
      reachable st → step op st = Some st' → reachable st'.

(** ** Three nodes used in the examples *)

Definition nodeA : Addr := mkAddr 1 "10.0.0.1:5000".
Definition nodeB : Addr := mkAddr 2 "10.0.0.2:5000".
Definition nodeC : Addr := mkAddr 3 "10.0.0.3:5000".

(** A node as [NewRaftNode] leaves it. *)
Definition fresh (addr : Addr) (nt : NodeType) (cluster : list Addr)
    (contact : option Addr) (next matchI : gmap positive Z) : RaftNode :=
  {| mu := false; address := addr; nodeType := nt;
     app := KVStore.NewKVStore; clusterAddrList := cluster;
     clusterLeader := Some nodeA; contactAddr := contact;
     electionTerm := 0; currentTerm := 0; votedFor := None; log := boot_log;
     commitIndex := -1; lastApplied := -1;
     nextIndex := next; matchIndex := matchI |}.

(** A: started without a contact, then joined by B and by C. *)
Definition leader_of_three : RaftNode :=
  fresh nodeA LEADER [nodeA; nodeB; nodeC] None {[ 1%positive := 3 ]} {[ 1%positive := -1 ]}.

(** C: started with contact A, told of the cluster [A; B; C]. *)
Definition follower_of_three : RaftNode :=
  fresh nodeC FOLLOWER [nodeA; nodeB; nodeC] (Some nodeA) ∅ ∅.

(** A alone, as [NewRaftNode] returns it when started without a contact. *)
Definition leader_alone : RaftNode :=
  fresh nodeA LEADER [nodeA] None {[ 1%positive := 3 ]} {[ 1%positive := -1 ]}.

(** The leader of three once [Execute "set x 1"] has appended its entry,
    and the request [Execute] then builds for B. *)
Definition leader_appended : RaftNode :=
  set_log (boot_log ++ [mkLogEntry 0 "set x 1"]) leader_of_three.

Definition request_to_B : AppendEntriesRequest :=
  mkAppendEntriesRequest 0 nodeA 2 2 [mkLogEntry 0 "set x 1"] (-1).

Definition ack (b : bool) : option AppendEntriesResponse :=
  Some (mkAppendEntriesResponse 0 b).

(** ** [RequestLog] *)

(** The reply of [RequestLog]: one of the two JSON objects the source
    builds. *)
Inductive RequestLogReply : Type :=
  | LogError (error leaderAddr : string)
  | LogEntries (entries : list LogEntry).

Definition RequestLog (args : string) : M RequestLogReply :=
  st ← get;
  if negb (NodeType_eqb (nodeType st) LEADER) then
    mret (LogError "Not leader" (TCPAddr_String (clusterLeader st)))
  else
    mret (LogEntries (log st)).

(** ** Notions used to state further properties *)

(** The test of source line 232. *)
Definition vote_decision (args : RaftVoteRequest) (st : RaftNode) : bool :=
  votedFor_allows args st
  && ((LastLogIndex args >=? len (log st) - 1)
      && (LastLogTerm args >=? localLastLogTerm st)).

(** The request [Execute] builds for each peer (source lines 602-616). *)
Definition replication_request (st : RaftNode) : AppendEntriesRequest :=
  mkAppendEntriesRequest (currentTerm st) (address st)
    (len (log st) - 2) (term_at (log st) (len (log st) - 2))
    (drop (Z.to_nat (len (log st) - 1)) (log st)) (commitIndex st).

(** The request [leaderHeartbeat] builds for the peer [p] (source lines
    175-190). *)
Definition heartbeat_request (st : RaftNode) (p : Addr) : AppendEntriesRequest :=
  mkAppendEntriesRequest (currentTerm st) (address st)
    (map_get (nextIndex st) p - 1)
    (term_at (log st) (map_get (nextIndex st) p - 1))
    [] (commitIndex st).

(** The peers of a node: the members of its cluster list under another
    address than its own. *)
Definition other_peers (st : RaftNode) : list Addr :=
  List.filter (λ a, negb (same_addr a (address st))) (clusterAddrList st).

(** The commands [apply] carries out: a known verb first, followed by
    enough operands. *)
Definition well_formed (parts : list string) : bool :=
  match parts with
  | [] => false
  | verb :: operands =>
      if String.eqb verb "get" || String.eqb verb "strlen" || String.eqb verb "del"
      then 1 <=? len operands
      else if String.eqb verb "set" || String.eqb verb "append"
      then 2 <=? len operands
      else false
  end.

(** The number of peers among [asked] whose decoded reply grants the
    vote. *)
Definition grants (votes : Addr → option RaftVoteResponse) (asked : list Addr) : Z :=
  len (List.filter (λ a, VoteGranted (decode_vote (votes a))) asked).

(** The node that has won an election. *)
Definition elected (st : RaftNode) : RaftNode :=
  set_clusterLeader (Some (address st)) (set_nodeType LEADER st).

(** The first successful reply of a join, past the replies the loop skips;
    [None] when a malformed reply comes first or no success ever comes. *)
Fixpoint first_success (replies : list JoinReply) : option (list Addr * option Addr) :=
  match replies with
  | [] => None
  | JoinSuccess addrs leader :: _ => Some (addrs, leader)
  | JoinMalformed :: _ => None
  | _ :: rest => first_success rest
  end.

(** Whether a malformed reply comes before any success. *)
Fixpoint malformed_first (replies : list JoinReply) : bool :=
  match replies with
  | [] => false
  | JoinSuccess _ _ :: _ => false
  | JoinMalformed :: _ => true
  | _ :: rest => malformed_first rest
  end.

(** A vote, once given, stays with the same address. *)
Definition keeps_vote (st st' : RaftNode) : Prop :=
  ∀ v, votedFor st = Some v →
       ∃ v', votedFor st' = Some v' ∧ addr_str v' = addr_str v.

(** What no operation changes on a node in use. *)
Definition lifelong (st st' : RaftNode) : Prop :=
  address st' = address st ∧ contactAddr st' = contactAddr st
  ∧ currentTerm st' = currentTerm st ∧ app st' = app st
  ∧ lastApplied st' = lastApplied st ∧ matchIndex st' = matchIndex st
  ∧ (log st ≠ [] → log st' ≠ []) ∧ keeps_vote st st'.

(** Any number of operations, one after the other. *)
Inductive steps : RaftNode → RaftNode → Prop :=
  | steps_refl st : steps st st
  | steps_step st op st' st'' :
      steps st st' → step op st' = Some st'' → steps st st''.

(** ** [Execute], goroutine by goroutine

    [Execute] starts one goroutine per peer and counts what they put on the
    channel [responses] while they run; it returns as soon as a majority
    has answered, or when the channel is closed.  The goroutines write
    [node.nextIndex] without holding [node.mu].  A call under way is a
    value of type [Call], and what happens next is an [Event], chosen by
    the scheduler and the network. *)

(** Where the goroutine that runs [Execute] is, once the requests are
    built. *)
Inductive MainLoop : Type :=
  | Receiving (successCount : Z)   (* in [for response := range responses] *)
  | Blocked                        (* waiting for [node.mu] *)
  | Returned (reply : ExecuteReply).

(** The node; for each peer the goroutine started for it, with the request
    it sends next, [None] once it has ended; what is on the channel
    [responses]; and the main loop. *)
Record Call : Type := mkCall {
  call_node : RaftNode;
  call_senders : list (Addr * option AppendEntriesRequest);
  call_responses : list AppendEntriesResponse;
  call_main : MainLoop
}.

Inductive Event : Type :=
  (* [sendRequest] of goroutine [i] returns; [response] is the decoded
     reply, [None] when it does not decode, as after a failed dial.  The
     goroutine runs on to its next [sendRequest] or to its end.  A goroutine
     whose peer keeps the connection and never answers gets no event. *)
  | Answer (i : nat) (response : option AppendEntriesResponse)
  (* Goroutines [i] and [j] write the map [node.nextIndex] at the same
     time; the run-time system ends the program with "fatal error:
     concurrent map writes". *)
  | Overlap (i j : nat)
  (* The main loop takes the next response from the channel. *)
  | Receive
  (* Every goroutine has ended, [wg.Wait] returns and the channel is
     closed; the main loop, with nothing left to receive, ends. *)
  | Close.

Definition running (s : Addr * option AppendEntriesRequest) : bool :=
  match s.2 with
  | Some _ => true
  | None => false
  end.

(** The body of a goroutine from the return of [sendRequest] on (source
    lines 624-645). *)
Definition answer (i : nat) (response : option AppendEntriesResponse) (c : Call)
    : option Call :=
  match call_senders c !! i with
  | Some (addr, Some request) =>
      match response with
      | None =>
          Some (mkCall (call_node c) (<[i := (addr, None)]> (call_senders c))
                  (call_responses c) (call_main c))
      | Some result =>
          match on_append_response addr request result (call_node c) with
          | Done next st' =>
              Some (mkCall st' (<[i := (addr, next)]> (call_senders c))
                      (match next with
                       | None => call_responses c ++ [result]
                       | Some _ => call_responses c
                       end)
                      (call_main c))
          | Hang st' =>
              Some (mkCall st' (call_senders c) (call_responses c) (call_main c))
          | Panic => None
          end
      end
  | _ => Some c
  end.

Definition overlap (i j : nat) (c : Call) : option Call :=
  match call_senders c !! i, call_senders c !! j with
  | Some (_, Some _), Some (_, Some _) => if decide (i = j) then Some c else None
  | _, _ => Some c
  end.

(** One round of the loop "If majority ACK received, commit the log"
    (source lines 658-679). *)
Definition receive (c : Call) : option Call :=
  match call_main c, call_responses c with
  | Receiving successCount, response :: rest =>
      if Success response then
        let successCount' := int_incr successCount in
        if successCount' >? len (clusterAddrList (call_node c)) `quot` 2 then
          match commit (call_node c) with
          | Done (res, ok) st' =>
              Some (mkCall st' (call_senders c) rest (Returned (ReplyResult res ok)))
          | Hang st' => Some (mkCall st' (call_senders c) rest Blocked)
          | Panic => None
          end
        else
          Some (mkCall (call_node c) (call_senders c) rest (Receiving successCount'))
      else
        Some (mkCall (call_node c) (call_senders c) rest (Receiving successCount))
  | _, _ => Some c
  end.

Definition close (c : Call) : option Call :=
  match call_main c, call_responses c with
  | Receiving _, [] =>
      if forallb (λ s, negb (running s)) (call_senders c)
      then Some (mkCall (call_node c) (call_senders c) [] (Returned ReplyNone))
      else Some c
  | _, _ => Some c
  end.

(** The call after an event; [None] when the process has died.  An event
    that cannot happen in [c] leaves it as it is. *)
Definition call_step (e : Event) (c : Call) : option Call :=
  match e with
  | Answer i response => answer i response c
  | Overlap i j => overlap i j c
  | Receive => receive c
  | Close => close c
  end.

Fixpoint run_schedule (sched : list Event) (c : Call) : option Call :=
  match sched with
  | [] => Some c
  | e :: rest =>
      match call_step e c with
      | Some c' => run_schedule rest c'
      | None => None
      end
  end.

(** The loop that builds the requests and starts the goroutines (source
    lines 597-648).  The goroutines already started do not write what the
    loop reads. *)
Fixpoint spawn (addrs : list Addr) : M (list (Addr * option AppendEntriesRequest)) :=
  match addrs with
  | [] => mret []
  | addr :: rest =>
      st ← get;
      if same_addr addr (address st) then spawn rest
      else
        prevLogTerm ← (if len (log st) - 2 <? 0 then mret 0
                       else e ← at_index (log st) (len (log st) - 2); mret (Term e));
        let request :=
          mkAppendEntriesRequest (currentTerm st) (address st)
            (len (log st) - 2) prevLogTerm
            (drop (Z.to_nat (len (log st) - 1)) (log st)) (commitIndex st) in
        senders ← spawn rest;
        mret ((addr, Some request) :: senders)
  end.

(** [Execute] under the schedule [sched]: the call as it stands after the
    events of [sched], [None] when the process has died. *)
Definition Execute_run (args : string) (sched : list Event) (st : RaftNode)
    : option Call :=
  if negb (NodeType_eqb (nodeType st) LEADER) then
    Some (mkCall st [] []
            (Returned (ReplyError "Not leader" (TCPAddr_String (clusterLeader st)))))
  else
    match (append_command args ;; st1 ← get; spawn (clusterAddrList st1)) st with
    | Done senders st1 => run_schedule sched (mkCall st1 senders [] (Receiving 0))
    | Hang st1 => Some (mkCall st1 [] [] Blocked)
    | Panic => None
    end.

(** The schedule in which the goroutines take their turns: goroutine [i]
    receives the replies of its peer one after the other and then finds the
    peer unreachable (the events that come after its end change nothing);
    then the main loop receives as often as there are peers, and the channel
    is closed. *)
Fixpoint turns (i : nat) (acks : Addr → list (option AppendEntriesResponse))
    (peers : list Addr) : list Event :=
  match peers with
  | [] => []
  | addr :: rest =>
      map (Answer i) (acks addr) ++ [Answer i None] ++ turns (S i) acks rest
  end.

Definition in_turn (acks : Addr → list (option AppendEntriesResponse))
    (peers : list Addr) : list Event :=
  turns 0 acks peers ++ repeat Receive (length peers) ++ [Close].

(** What holds of a call of [Execute] that started on the node [st1], the
    command appended: the goroutines have written [nextIndex] only, the main
    loop is not blocked, and a reply, if one was written, carries the empty
    result and [ok = false]. *)
Definition call_ok (st1 : RaftNode) (c : Call) : Prop :=
  (∃ m, call_node c = set_nextIndex m st1)
  ∧ match call_main c with
    | Receiving _ => True
    | Blocked => False
    | Returned reply => reply = ReplyNone ∨ reply = ReplyResult "" false
    end.

(** ** Assertions about operations *)

(** [wp m Q H P st]: run from [st], the operation [m] returns a value and
    a node that satisfy [Q], or gets stuck in a node that satisfies [H], or
    panics and [P] holds. *)
Definition wp {A : Type} (m : M A) (Q : A → RaftNode → Prop)
    (H : RaftNode → Prop) (P : Prop) (st : RaftNode) : Prop :=
  match m st with
  | Done a st' => Q a st'
  | Hang st' => H st'
  | Panic => P
  end.

(** The fields that elections and replication bookkeeping leave alone:
    everything but [nodeType], [electionTerm], [clusterLeader] and
    [nextIndex]. *)
Definition untouched (st0 st : RaftNode) : Prop :=
  mu st = mu st0 ∧ address st = address st0 ∧ app st = app st0
  ∧ clusterAddrList st = clusterAddrList st0
  ∧ contactAddr st = contactAddr st0 ∧ currentTerm st = currentTerm st0
  ∧ votedFor st = votedFor st0 ∧ log st = log st0
  ∧ commitIndex st = commitIndex st0 ∧ lastApplied st = lastApplied st0
  ∧ matchIndex st = matchIndex st0.

(** A node between two operations on which nothing has been committed. *)
Definition Idle (st : RaftNode) : Prop :=
  mu st = false ∧ commitIndex st = -1 ∧ lastApplied st = -1.

(** The invariant of the commit pipeline: nothing has been applied, and
    [commitIndex] has left -1 only on a node whose mutex is held. *)
Definition Safe (st : RaftNode) : Prop :=
  lastApplied st = -1 ∧ -1 ≤ commitIndex st
  ∧ (mu st = false → commitIndex st = -1).

(** * Proofs *)

(** ** Arithmetic on [int] *)

Lemma int_wrap_ok z : int_ok z → int_wrap z = z.
Proof.
  unfold int_ok, int_min, int_max, int_wrap. intros Hz.
  rewrite Z.mod_small; lia.
Qed.

Lemma int_incr_small z : int_min ≤ z < int_max → int_incr z = z + 1.
Proof.
  intros Hz. apply int_wrap_ok. unfold int_ok, int_min, int_max in *. lia.
Qed.

Lemma int_decr_small z : int_min < z ≤ int_max → int_decr z = z - 1.
Proof.
  intros Hz. apply int_wrap_ok. unfold int_ok, int_min, int_max in *. lia.
Qed.

Lemma len_nonneg {A} (s : list A) : 0 ≤ len s.
Proof. unfold len. lia. Qed.

Lemma index_Some {A} (s : list A) i x :
  index s i = Some x → 0 ≤ i < len s.
Proof.
  unfold index, len. destruct (Z.ltb_spec i 0); [discriminate|].
  intros Hx. apply lookup_lt_Some in Hx. lia.
Qed.

Lemma index_in_range {A} (s : list A) i :
  0 ≤ i < len s → ∃ x, index s i = Some x.
Proof.
  unfold index, len. intros Hi. destruct (Z.ltb_spec i 0); [lia|].
  destruct (lookup_lt_is_Some_2 s (Z.to_nat i)) as [x Hx]; [lia|eauto].
Qed.

Lemma index_last {A} (s : list A) : index s (len s - 1) = last s.
Proof.
  unfold index, len. destruct s as [|a s].
  - reflexivity.
  - destruct (Z.ltb_spec (Z.of_nat (length (a :: s)) - 1) 0) as [H|H];
      [simpl in H; lia|].
    rewrite last_lookup. f_equal. simpl. lia.
Qed.

(** ** Running the monad *)

(** Unfolds the plumbing of the monad so that an operation applied to a
    node reduces. *)
Ltac run :=
  repeat (unfold locked, append_command, Lock, Unlock, get, modify, panic,
            hang, at_index, append_log, mbind, M_bind, mret, M_ret in *;
          simpl in *).

(** Closes an equation between two nodes built from the fields of one. *)
Ltac node_eq st :=
  destruct st; simpl in *; subst; reflexivity.

(** ** Rules for [wp] *)

Section wp_rules.
Context {A : Type}.
Implicit Types (Q : A → RaftNode → Prop) (H : RaftNode → Prop) (P : Prop).

Lemma wp_ret (a : A) Q H P st : Q a st → wp (mret a) Q H P st.
Proof. auto. Qed.

Lemma wp_bind {B : Type} (m : M B) (f : B → M A) Q H P st :
  wp m (λ b st', wp (f b) Q H P st') H P st → wp (m ≫= f) Q H P st.
Proof. unfold wp, mbind, M_bind. destruct (m st); auto. Qed.

Lemma wp_mono (m : M A) Q Q' H H' P P' st :
  wp m Q H P st →
  (∀ a st', Q a st' → Q' a st') → (∀ st', H st' → H' st') → (P → P') →
  wp m Q' H' P' st.
Proof. unfold wp. destruct (m st); auto. Qed.

Lemma wp_at_index (s : list A) i Q H P st :
  (∀ x, index s i = Some x → Q x st) → (index s i = None → P) →
  wp (at_index s i) Q H P st.
Proof.
  intros HQ HP. unfold wp, at_index.
  destruct (index s i) as [x|]; simpl; auto.
Qed.
End wp_rules.

Lemma wp_get Q H P st : Q st st → wp get Q H P st.
Proof. auto. Qed.

Lemma wp_modify f Q H P st : Q tt (f st) → wp (modify f) Q H P st.
Proof. auto. Qed.

Lemma wp_Lock Q H P st :
  (mu st = false → Q tt (set_mu true st)) → (mu st = true → H st) →
  wp Lock Q H P st.
Proof. unfold wp, Lock. destruct (mu st); auto. Qed.

Lemma wp_Unlock Q H P st :
  (mu st = true → Q tt (set_mu false st)) → (mu st = false → P) →
  wp Unlock Q H P st.
Proof. unfold wp, Unlock. destruct (mu st); auto. Qed.

(** A critical section entered with the mutex free: the body runs with the
    mutex held and must leave it held. *)
Lemma wp_locked {A} (body : M A) Q H P st :
  mu st = false →
  wp body (λ a st', mu st' = true ∧ Q a (set_mu false st')) H P (set_mu true st) →
  wp (locked body) Q H P st.
Proof.
  intros Hmu Hbody. unfold locked. apply wp_bind, wp_Lock; [|congruence].
  intros _. apply wp_bind. eapply wp_mono; eauto.
  intros a st' [Hheld HQ]. apply wp_bind, wp_Unlock; [|congruence].
  intros _. apply wp_ret. assumption.
Qed.

(** A critical section entered with the mutex held never starts. *)
Lemma locked_held {A} (body : M A) st :
  mu st = true → locked body st = Hang st.
Proof. intros Hmu. unfold locked. run. rewrite Hmu. reflexivity. Qed.

Lemma untouched_refl st : untouched st st.
Proof. unfold untouched. tauto. Qed.

Lemma untouched_trans st1 st2 st3 :
  untouched st1 st2 → untouched st2 st3 → untouched st1 st3.
Proof. unfold untouched. intuition congruence. Qed.

Lemma Idle_Safe st : Idle st → Safe st.
Proof. unfold Idle, Safe. intuition lia. Qed.

Lemma Idle_untouched st st' : Idle st → untouched st st' → Idle st'.
Proof. unfold Idle, untouched. intuition congruence. Qed.

Lemma wp_returns {A} (m : M A) (Q : A → RaftNode → Prop) st :
  wp m Q (λ _, False) False st → ∃ a st', m st = Done a st' ∧ Q a st'.
Proof.
  unfold wp. destruct (m st) as [a st'| |]; [eauto|contradiction|contradiction].
Qed.

Lemma outcome_of_wp {A} (m : M A) Q H P st st' :
  wp m Q H P st → node_after (m st) = Some st' →
  (∃ a, Q a st') ∨ H st'.
Proof.
  unfold wp. destruct (m st) as [a s|s|]; simpl; intros Hwp Heq;
    [|inversion Heq; subst; auto|discriminate].
  inversion Heq; subst. eauto.
Qed.

(** ** Construction (claim C10) *)

(** Joining writes the cluster list and the leader hint only. *)
Lemma tryToApplyMembership_keeps replies :
  ∀ contact st st',
    tryToApplyMembership contact replies st = Done tt st' →
    log st' = log st ∧ commitIndex st' = commitIndex st
    ∧ lastApplied st' = lastApplied st.
Proof.
  induction replies as [|r replies IH]; intros contact st st' Hrun.
  - discriminate.
  - destruct r; simpl in Hrun; try discriminate; eauto.
    run. destruct (mu st); [discriminate|].
    simpl in Hrun. inversion Hrun; subst. simpl. auto.
Qed.

Lemma tryToApplyMembership_success contact addrs leader rest st :
  mu st = false →
  tryToApplyMembership contact (JoinSuccess addrs leader :: rest) st
  = Done tt (set_clusterLeader leader (set_clusterAddrList addrs st)).
Proof.
  intros Hmu. run. rewrite Hmu. simpl. f_equal. node_eq st.
Qed.

(** A node that [NewRaftNode] returns holds the three placeholders and has
    committed and applied nothing. *)
Lemma NewRaftNode_done addr contact replies st :
  NewRaftNode addr contact replies = Done tt st →
  log st = boot_log ∧ commitIndex st = -1 ∧ lastApplied st = -1.
Proof.
  unfold NewRaftNode. destruct contact as [c|].
  - run. intros Hjoin.
    apply tryToApplyMembership_keeps in Hjoin as (Hlog & Hci & Hla).
    simpl in *. auto.
  - vm_compute. intros Hnew. inversion Hnew; subst. auto.
Qed.

(** Without a contact [NewRaftNode] always returns. *)
Lemma NewRaftNode_seedless addr replies :
  ∃ st, NewRaftNode addr None replies = Done tt st.
Proof. eexists. vm_compute. reflexivity. Qed.

(** C10. Whatever the address, the contact and the replies of the
    contact, [NewRaftNode] either returns a node whose log is exactly the
    three placeholder entries (term 0 "zero", term 1 "one", term 2 "two"),
    so that [len(log) = 3], with [commitIndex = lastApplied = -1]; or it does
    not return a node at all, which happens only when a contact address was
    given (the join loop never ends, or panics).  A node started without a
    contact is always returned. *)
Theorem NewRaftNode_boot_log (addr : Addr) (contact : option Addr)
    (replies : list JoinReply) :
  match NewRaftNode addr contact replies with
  | Done _ st =>
      log st = boot_log ∧ len (log st) = 3
      ∧ commitIndex st = -1 ∧ lastApplied st = -1
  | Hang _ | Panic => contact ≠ None
  end.
Proof.
  destruct (NewRaftNode addr contact replies) as [[] st|st|] eqn:Hnew.
  - apply NewRaftNode_done in Hnew as (Hlog & Hci & Hla).
    rewrite Hlog. auto.
  - intros ->. destruct (NewRaftNode_seedless addr replies) as [st' H].
    congruence.
  - intros ->. destruct (NewRaftNode_seedless addr replies) as [st' H].
    congruence.
Qed.

(** A joining node whose contact answers with success is returned, as a
    follower holding the same three entries. *)
Lemma NewRaftNode_joined addr c addrs leader rest :
  ∃ st, NewRaftNode addr (Some c) (JoinSuccess addrs leader :: rest) = Done tt st
        ∧ nodeType st = FOLLOWER ∧ log st = boot_log.
Proof. eexists. split; [reflexivity|]. split; reflexivity. Qed.

(** The example nodes are states of real nodes. *)
Lemma leader_of_three_reachable : reachable leader_of_three.
Proof.
  apply (reachable_step
           (set_clusterAddrList [nodeA; nodeB] leader_of_three)
           (OpApplyMembership nodeC)); [|vm_compute; reflexivity].
  apply (reachable_step leader_alone (OpApplyMembership nodeB));
    [|vm_compute; reflexivity].
  apply (reachable_new nodeA None []). vm_compute. reflexivity.
Qed.

Lemma follower_of_three_reachable : reachable follower_of_three.
Proof.
  apply (reachable_new nodeC (Some nodeA)
           [JoinSuccess [nodeA; nodeB; nodeC] (Some nodeA)]).
  vm_compute. reflexivity.
Qed.

(** ** [Execute] on a node that is not the leader (claim C9) *)

(** C9. On a node whose role is not Leader, [Execute] replies with the
    error "Not leader" and the text of the current leader hint, and the node
    is left exactly as it was: its log and every other field. *)
Theorem Execute_not_leader (st : RaftNode) (args : string)
    (acks : Addr → list (option AppendEntriesResponse)) :
  nodeType st ≠ LEADER →
  Execute args acks st
  = Done (ReplyError "Not leader" (TCPAddr_String (clusterLeader st))) st.
Proof.
  intros Hrole. unfold Execute. run.
  destruct (nodeType st); [congruence| |]; reflexivity.
Qed.

Lemma Execute_not_leader_witness :
  Execute "set x 1" (λ _, [ack true]) follower_of_three
  = Done (ReplyError "Not leader" "10.0.0.1:5000") follower_of_three.
Proof.
  apply (Execute_not_leader follower_of_three). simpl. discriminate.
Defined.

(** ** [RequestVote] (claims C2 and C3) *)

Lemma vote_term_rejects_iff args st :
  vote_term_rejects args st = true ↔ VReq_Term args > currentTerm st.
Proof. unfold vote_term_rejects. rewrite Z.gtb_gt. lia. Qed.

(** A request rejected by the first test is answered at once, the vote
    rule is not looked at and the node does not change. *)
Lemma RequestVote_term_rejected st args :
  mu st = false → vote_term_rejects args st = true →
  RequestVote args st = Done (mkRaftVoteResponse (currentTerm st) false) st.
Proof.
  intros Hmu Hrej. unfold RequestVote. run. rewrite Hmu. simpl.
  change (vote_term_rejects args (set_mu true st))
    with (vote_term_rejects args st).
  rewrite Hrej. simpl. f_equal. node_eq st.
Qed.

(** C2. A freshly started follower ([currentTerm = 0]) is asked for its
    vote by a candidate in term 1 whose log is as long and as recent as its
    own.  The handler rejects the request on term grounds: the reply is
    [voteGranted = false] and the node is unchanged, although
    [args.term >= currentTerm]; the same request with term 0 is granted, and
    so is one with a term below [currentTerm].  The source tests
    [args.Term > node.currentTerm] where its comment and the claim say
    "less than". *)
Theorem RequestVote_rejects_greater_term :
  reachable follower_of_three
  ∧ RequestVote (mkRaftVoteRequest 1 nodeB 2 2) follower_of_three
    = Done (mkRaftVoteResponse 0 false) follower_of_three
  ∧ RequestVote (mkRaftVoteRequest 0 nodeB 2 2) follower_of_three
    = Done (mkRaftVoteResponse 0 true)
        (set_votedFor (Some nodeB) follower_of_three)
  ∧ RequestVote (mkRaftVoteRequest (-1) nodeB 2 2) follower_of_three
    = Done (mkRaftVoteResponse 0 true)
        (set_votedFor (Some nodeB) follower_of_three).
Proof.
  split; [exact follower_of_three_reachable|].
  repeat split; vm_compute; reflexivity.
Qed.

Lemma localLastLogTerm_cases st :
  ((len (log st) =? 0) = true ∧ localLastLogTerm st = 0)
  ∨ ((len (log st) =? 0) = false
     ∧ ∃ e, index (log st) (len (log st) - 1) = Some e
            ∧ localLastLogTerm st = Term e).
Proof.
  unfold localLastLogTerm. rewrite index_last.
  destruct (log st) as [|e l] eqn:Hlog; [left; split; reflexivity|].
  right. split; [apply Z.eqb_neq; unfold len; simpl; lia|].
  destruct (last (e :: l)) as [e'|] eqn:Hlast; [eauto|].
  apply last_None in Hlast. discriminate.
Qed.

Lemma votedFor_allows_iff args st :
  votedFor_allows args st = true ↔ votedFor_free args st.
Proof.
  unfold votedFor_allows, votedFor_free. destruct (votedFor st) as [v|].
  - rewrite String.eqb_eq. split.
    + intros H. right. eauto.
    + intros [H|(v' & Hv & H)]; [discriminate|]. congruence.
  - split; auto.
Qed.

(** The test of source line 232, as a proposition. *)
Lemma vote_rule_iff args st :
  votedFor_allows args st
  && ((LastLogIndex args >=? len (log st) - 1)
      && (LastLogTerm args >=? localLastLogTerm st)) = true
  ↔ votedFor_free args st
    ∧ LastLogIndex args >= localLastLogIndex st
    ∧ LastLogTerm args >= localLastLogTerm st.
Proof.
  rewrite !andb_true_iff, votedFor_allows_iff, !Z.geb_le.
  unfold localLastLogIndex. intuition lia.
Qed.

(** C3, as the code has it. For a request that the term test lets
    through, on a node whose mutex is free, the handler replies with
    [currentTerm] and grants the vote if and only if [votedFor] is none or
    has the address of the candidate, and [args.lastLogIndex] is at least
    the local last index, and [args.lastLogTerm] is at least the local last
    term (0 and -1 on an empty log).  On a grant [votedFor] becomes the
    candidate; otherwise the node is unchanged. *)
Theorem RequestVote_grant_rule (st : RaftNode) (args : RaftVoteRequest) :
  mu st = false →
  vote_term_rejects args st = false →
  ∃ reply st',
    RequestVote args st = Done reply st'
    ∧ VResp_Term reply = currentTerm st
    ∧ (VoteGranted reply = true ↔
         votedFor_free args st
         ∧ LastLogIndex args >= localLastLogIndex st
         ∧ LastLogTerm args >= localLastLogTerm st)
    ∧ st' = (if VoteGranted reply
             then set_votedFor (Some (CandidateId args)) st else st).
Proof.
  intros Hmu Hpass. apply wp_returns.
  unfold RequestVote. apply wp_locked; [exact Hmu|].
  apply wp_bind, wp_get.
  change (vote_term_rejects args (set_mu true st))
    with (vote_term_rejects args st).
  change (votedFor_allows args (set_mu true st))
    with (votedFor_allows args st).
  change (log (set_mu true st)) with (log st).
  change (currentTerm (set_mu true st)) with (currentTerm st).
  rewrite Hpass. apply wp_bind.
  (* the receiver's last log term *)
  apply (wp_mono _ (λ t s, t = localLastLogTerm st ∧ s = set_mu true st)
           _ (λ _, False) _ False).
  { destruct (localLastLogTerm_cases st) as [(Hlen & Ht)|(Hlen & e & He & Ht)];
      rewrite Hlen.
    - apply wp_ret. auto.
    - apply wp_bind, wp_at_index; [|congruence].
      intros x Hx. apply wp_ret. split; congruence. }
  2, 3: auto.
  (* the vote rule *)
  intros t s [-> ->].
  destruct (votedFor_allows args st
            && ((LastLogIndex args >=? len (log st) - 1)
                && (LastLogTerm args >=? localLastLogTerm st))) eqn:Hdec.
  - apply wp_bind, wp_modify, wp_ret. simpl.
    split; [reflexivity|]. split; [reflexivity|]. split.
    + rewrite <- vote_rule_iff, Hdec. tauto.
    + node_eq st.
  - apply wp_ret. simpl.
    split; [reflexivity|]. split; [reflexivity|]. split.
    + rewrite <- vote_rule_iff, Hdec. tauto.
    + node_eq st.
Qed.

Lemma RequestVote_grant_rule_witness :
  ∃ reply st',
    RequestVote (mkRaftVoteRequest 0 nodeB 2 2) follower_of_three
    = Done reply st'
    ∧ VResp_Term reply = 0
    ∧ (VoteGranted reply = true ↔
         votedFor_free (mkRaftVoteRequest 0 nodeB 2 2) follower_of_three
         ∧ 2 >= localLastLogIndex follower_of_three
         ∧ 2 >= localLastLogTerm follower_of_three)
    ∧ st' = (if VoteGranted reply
             then set_votedFor (Some nodeB) follower_of_three
             else follower_of_three).
Proof.
  apply (RequestVote_grant_rule follower_of_three
           (mkRaftVoteRequest 0 nodeB 2 2)); reflexivity.
Defined.

(** C3, as the claim states it, fails: a candidate whose last entry has a
    higher term (3 against 2) but a lower index (1 against 2) is at least as
    up to date by the specification's rule, passes the term test under
    either reading ([args.term = currentTerm]), finds [votedFor] empty, and is
    refused. *)
Lemma RequestVote_refuses_newer_shorter_log :
  let args := mkRaftVoteRequest 0 nodeB 1 3 in
  VReq_Term args = currentTerm follower_of_three
  ∧ spec_vote_rule args follower_of_three
  ∧ RequestVote args follower_of_three
    = Done (mkRaftVoteResponse 0 false) follower_of_three.
Proof.
  simpl. split; [reflexivity|]. split.
  - split; [left; reflexivity|]. left. vm_compute. reflexivity.
  - vm_compute. reflexivity.
Qed.

(** ** The commit / apply step *)

Lemma set_app_same st : set_app (app st) st = st.
Proof. node_eq st. Qed.

(** [apply] always returns, touches the store only, and its result depends
    on the store only. *)
Lemma apply_app cmd st st2 :
  app st2 = app st →
  ∃ r kv, apply cmd st = Done r (set_app kv st)
          ∧ apply cmd st2 = Done r (set_app kv st2).
Proof.
  intros Happ. unfold apply.
  destruct (Fields cmd) as [|verb ops].
  { exists (""%string, false), (app st). rewrite <- Happ at 2.
    rewrite !set_app_same. split; reflexivity. }
  repeat match goal with
         | |- context [String.eqb verb ?s] => destruct (String.eqb verb s)
         end;
    destruct ops as [|k [|v ops]]; run; rewrite ?Happ.
  all: try (eexists _, _; split; reflexivity).
  all: eexists _, (app st); rewrite set_app_same;
    replace (set_app (app st) st2) with st2
      by (rewrite <- Happ; symmetry; apply set_app_same);
    split; reflexivity.
Qed.

Lemma apply_total cmd st : ∃ r kv, apply cmd st = Done r (set_app kv st).
Proof.
  destruct (apply_app cmd st st eq_refl) as (r & kv & H & _). eauto.
Qed.

(** With nothing to apply, [commit] returns the empty result and [false]
    and the node is as before. *)
Lemma commit_nothing st :
  mu st = false → commitIndex st ≤ lastApplied st →
  commit st = Done (""%string, false) st.
Proof.
  intros Hmu Hle. unfold commit. run. rewrite Hmu. simpl.
  replace (commitIndex st >? lastApplied st) with false
    by (symmetry; rewrite Z.gtb_ltb; apply Z.ltb_ge; lia).
  simpl. f_equal. node_eq st.
Qed.

(** Called by a goroutine that holds [node.mu], as [AppendEntries] does,
    [commit] waits for the mutex for ever. *)
Lemma commit_held st : mu st = true → commit st = Hang st.
Proof. apply locked_held. Qed.

(** The body of [commit] taken alone.  Were [commit] called with the mutex
    free and [commitIndex] above [lastApplied], it would increment
    [lastApplied] by exactly one and apply the command of the entry at the
    new [lastApplied], returning its result, and not go on to the following
    entries.  No node in use is ever in such a state
    ([commit_waits_when_behind] below). *)
Theorem commit_applies_one_entry (st : RaftNode) (entry : LogEntry) :
  mu st = false →
  lastApplied st < commitIndex st →
  commitIndex st ≤ int_max →
  index (log st) (lastApplied st + 1) = Some entry →
  ∃ r st_a,
    apply (Command entry) st = Done r st_a
    ∧ commit st = Done r (set_lastApplied (lastApplied st + 1) st_a).
Proof.
  intros Hmu Hlt Hmax Hentry.
  assert (Hincr : int_incr (lastApplied st) = lastApplied st + 1).
  { apply int_incr_small. apply index_Some in Hentry.
    unfold int_min. lia. }
  set (st2 := set_lastApplied (lastApplied st + 1) (set_mu true st)).
  destruct (apply_app (Command entry) st st2 eq_refl) as (r & kv & Ha & Ha2).
  exists r, (set_app kv st). split; [assumption|].
  unfold commit. run. rewrite Hmu. simpl.
  apply Z.gtb_lt in Hlt. rewrite Hlt. simpl.
  rewrite Hincr, Hentry. simpl. fold st2. rewrite Ha2. simpl.
  f_equal. node_eq st.
Qed.

Lemma commit_applies_one_entry_witness :
  ∃ r st_a,
    apply "set x 1"
      (set_commitIndex 0 (set_log [mkLogEntry 0 "set x 1"] follower_of_three))
    = Done r st_a
    ∧ commit
        (set_commitIndex 0 (set_log [mkLogEntry 0 "set x 1"] follower_of_three))
      = Done r (set_lastApplied (-1 + 1) st_a).
Proof.
  apply (commit_applies_one_entry
           (set_commitIndex 0 (set_log [mkLogEntry 0 "set x 1"] follower_of_three))
           (mkLogEntry 0 "set x 1")).
  - reflexivity.
  - simpl. lia.
  - simpl. unfold int_max. lia.
  - reflexivity.
Defined.

(** [commit] is an [if], not a loop: from [commitIndex = 2] and
    [lastApplied = -1], the mutex free, its body would apply the entry at
    index 0 and stop. *)
Lemma commit_stops_after_one_entry :
  let st := set_commitIndex 2 follower_of_three in
  commitIndex st > lastApplied st
  ∧ commit st = Done (""%string, false) (set_lastApplied 0 st)
  ∧ lastApplied (set_lastApplied 0 st) ≠ commitIndex (set_lastApplied 0 st).
Proof.
  simpl. split; [lia|]. split; [vm_compute; reflexivity|]. simpl. lia.
Qed.

(** ** [AppendEntries] (claim C5) *)

Lemma spec_consistent_range args st :
  spec_consistent args st → -1 ≤ PrevLogIndex args.
Proof.
  intros [->|[_ (e & He & _)]]; [lia|]. apply index_Some in He. lia.
Qed.

(** The consistency check of the handler decides the specification's
    condition. *)
Lemma consistency_check_spec args st :
  -1 ≤ PrevLogIndex args →
  ∃ b, consistency_check args st = Done b st
       ∧ (b = true ↔ spec_consistent args st).
Proof.
  intros Hprev. unfold consistency_check, spec_consistent. run.
  destruct (Z.eqb_spec (PrevLogIndex args) (-1)) as [Heq|Hne].
  { exists true. split; [reflexivity|]. tauto. }
  destruct (Z.ltb_spec (len (log st) - 1) (PrevLogIndex args)) as [Hshort|Hlong].
  { exists false. split; [reflexivity|]. split; [discriminate|].
    intros [?|[? _]]; lia. }
  destruct (index_in_range (log st) (PrevLogIndex args)) as [e He]; [lia|].
  rewrite He. simpl.
  destruct (Z.eqb_spec (Term e) (PrevLogTerm args)) as [Ht|Ht]; simpl.
  - exists true. split; [reflexivity|]. split; [|reflexivity].
    intros _. right. split; [lia|]. eauto.
  - exists false. split; [reflexivity|]. split; [discriminate|].
    intros [?|[_ (e' & He' & Ht')]]; [lia|]. congruence.
Qed.

(** A [prevLogIndex] below -1 indexes the log out of range. *)
Lemma consistency_check_panics args st :
  PrevLogIndex args < -1 → consistency_check args st = Panic.
Proof.
  intros Hprev. unfold consistency_check. run.
  destruct (Z.eqb_spec (PrevLogIndex args) (-1)); [lia|].
  destruct (Z.ltb_spec (len (log st) - 1) (PrevLogIndex args)) as [H|H].
  { pose proof (len_nonneg (log st)). lia. }
  unfold index. destruct (Z.ltb_spec (PrevLogIndex args) 0); [reflexivity|lia].
Qed.

Ltac enter_AppendEntries Hmu Hterm :=
  unfold AppendEntries, locked;
  unfold mbind at 1, M_bind at 1; unfold Lock; rewrite Hmu;
  unfold mbind at 1, M_bind at 1; unfold mbind at 1, M_bind at 1;
  unfold get at 1;
  match goal with
  | |- context [append_term_rejects ?a (set_mu true ?s)] =>
      change (append_term_rejects a (set_mu true s))
        with (append_term_rejects a s)
  end;
  rewrite Hterm.

Lemma AppendEntries_term_rejected st args :
  mu st = false → append_term_rejects args st = true →
  AppendEntries args st
  = Done (mkAppendEntriesResponse (currentTerm st) false) st.
Proof.
  intros Hmu Hterm. enter_AppendEntries Hmu Hterm. run.
  f_equal. node_eq st.
Qed.

(** A request that passes the term test and fails the consistency check is
    answered [success = false]; the node does not change. *)
Lemma AppendEntries_refused st args :
  mu st = false → append_term_rejects args st = false →
  -1 ≤ PrevLogIndex args → ¬ spec_consistent args st →
  AppendEntries args st
  = Done (mkAppendEntriesResponse (currentTerm st) false) st.
Proof.
  intros Hmu Hterm Hprev Hcons.
  destruct (consistency_check_spec args (set_mu true st) Hprev) as (b & Hrun & Hb).
  assert (b = false) as ->.
  { destruct b; [|reflexivity]. exfalso. apply Hcons, Hb. reflexivity. }
  enter_AppendEntries Hmu Hterm.
  unfold mbind at 1, M_bind at 1. rewrite Hrun. run. f_equal. node_eq st.
Qed.

(** A request that passes both tests updates the log and the commit index
    as the specification says.  The reply [success = true] is sent only if
    nothing is left to apply; otherwise the handler calls [commit] while it
    holds [node.mu] and waits for ever. *)
Lemma AppendEntries_accepted st args :
  mu st = false → append_term_rejects args st = false →
  spec_consistent args st →
  let st' := set_commitIndex (accepted_commitIndex args st)
               (set_log (accepted_log args st) st) in
  AppendEntries args st
  = if accepted_commitIndex args st >? lastApplied st
    then Hang (set_mu true st')
    else Done (mkAppendEntriesResponse (currentTerm st) true) st'.
Proof.
  intros Hmu Hterm Hcons.
  pose proof (spec_consistent_range _ _ Hcons) as Hprev.
  destruct (consistency_check_spec args (set_mu true st) Hprev) as (b & Hrun & Hb).
  assert (b = true) as -> by (apply Hb; exact Hcons).
  enter_AppendEntries Hmu Hterm.
  unfold mbind at 1, M_bind at 1. rewrite Hrun. cbv beta iota. unfold negb.
  unfold accepted_commitIndex, accepted_log.
  destruct (len (Entries args) =? 0); run;
    destruct (LeaderCommit args >? commitIndex st); simpl;
    match goal with |- context [?a >? lastApplied st] =>
      destruct (a >? lastApplied st) end; simpl; f_equal; node_eq st.
Qed.

(** Whenever the handler does reply to a request that passed the term
    test, the reply and the log are as the specification says. *)
Lemma AppendEntries_reply_sound st args reply st' :
  mu st = false → append_term_rejects args st = false →
  AppendEntries args st = Done reply st' →
  (Success reply = true ↔ spec_consistent args st)
  ∧ log st' = (if Success reply then accepted_log args st else log st).
Proof.
  intros Hmu Hterm Hrun.
  destruct (Z.lt_ge_cases (PrevLogIndex args) (-1)) as [Hlow|Hprev].
  { exfalso. revert Hrun. enter_AppendEntries Hmu Hterm.
    unfold mbind at 1, M_bind at 1.
    rewrite (consistency_check_panics _ _ Hlow). discriminate. }
  destruct (consistency_check_spec args st Hprev) as (b & _ & Hb).
  destruct b.
  - assert (Hcons : spec_consistent args st) by (apply Hb; reflexivity).
    rewrite (AppendEntries_accepted _ _ Hmu Hterm Hcons) in Hrun.
    destruct (accepted_commitIndex args st >? lastApplied st);
      [discriminate|].
    inversion Hrun; subst. simpl. tauto.
  - assert (Hcons : ¬ spec_consistent args st).
    { intros H. apply Hb in H. discriminate. }
    rewrite (AppendEntries_refused _ _ Hmu Hterm Hprev Hcons) in Hrun.
    inversion Hrun; subst. simpl. split; [|reflexivity].
    split; [discriminate|tauto].
Qed.

(** C5. A freshly started follower (log of three entries,
    [commitIndex = lastApplied = -1]) receives a heartbeat with
    [prevLogIndex = 2], [prevLogTerm = 2] and [leaderCommit = 0].  The request
    passes the term test and the consistency check, so the claim has the
    handler reply [success = true].  The handler raises [commitIndex] to 0 and
    calls [commit] with [node.mu] still held; [commit] locks [node.mu] again,
    and no reply is ever sent. *)
Theorem AppendEntries_hangs_in_commit :
  let args := mkAppendEntriesRequest 0 nodeA 2 2 [] 0 in
  reachable follower_of_three
  ∧ append_term_rejects args follower_of_three = false
  ∧ spec_consistent args follower_of_three
  ∧ AppendEntries args follower_of_three
    = Hang (set_mu true (set_commitIndex 0 follower_of_three)).
Proof.
  simpl. split; [exact follower_of_three_reachable|].
  split; [reflexivity|]. split.
  - right. split; [reflexivity|]. eexists. split; reflexivity.
  - vm_compute. reflexivity.
Qed.

(** ** What the goroutines of [startElection] and [Execute] leave alone *)

(** Building the vote requests changes nothing; it panics when a peer has
    to be compared with a nil contact address. *)
Lemma vote_requests_pure addrs :
  ∀ st, wp (vote_requests addrs) (λ _ st', st' = st) (λ _, False) True st.
Proof.
  induction addrs as [|addr rest IH]; intros st; simpl.
  - apply wp_ret. reflexivity.
  - apply wp_bind, wp_get. apply wp_bind.
    destruct (same_addr addr (address st)).
    + apply wp_ret, wp_bind.
      eapply wp_mono; [apply IH|intros sent st' ->|auto|auto].
      apply wp_ret. reflexivity.
    + destruct (contactAddr st) as [c|]; [|exact I].
      apply wp_ret, wp_bind.
      eapply wp_mono; [apply IH|intros sent st' ->|auto|auto].
      destruct (same_addr addr c); apply wp_ret; reflexivity.
Qed.

(** A vote goroutine that finds the mutex free writes [nodeType],
    [electionTerm] and [clusterLeader] only, and returns. *)
Lemma on_vote_response_untouched result voteCount st :
  mu st = false →
  wp (on_vote_response result voteCount) (λ _ st', untouched st st')
     (λ _, False) False st.
Proof.
  intros Hmu. unfold on_vote_response, wp. run.
  destruct (VResp_Term result >? electionTerm st).
  - run. rewrite Hmu. simpl. unfold untouched. simpl. rewrite Hmu. tauto.
  - destruct (VoteGranted result); [|apply untouched_refl].
    destruct (int_incr voteCount >? len (clusterAddrList st) `quot` 2);
      [|apply untouched_refl].
    run. rewrite Hmu. simpl. unfold untouched. simpl. rewrite Hmu. tauto.
Qed.

Lemma collect_votes_untouched votes asked :
  ∀ voteCount st,
    mu st = false →
    wp (collect_votes votes asked voteCount) (λ _ st', untouched st st')
       (λ _, False) False st.
Proof.
  induction asked as [|addr rest IH]; intros voteCount st Hmu; simpl.
  - apply wp_ret, untouched_refl.
  - apply wp_bind.
    eapply wp_mono; [apply on_vote_response_untouched, Hmu| |auto|auto].
    intros k st1 H1. simpl.
    eapply wp_mono; [apply IH| |auto|auto].
    + destruct H1 as [-> _]. exact Hmu.
    + intros k' st2 H2. exact (untouched_trans _ _ _ H1 H2).
Qed.

(** A heartbeat tick reads the node and writes nothing. *)
Lemma heartbeat_requests_pure addrs :
  ∀ st, wp (heartbeat_requests addrs) (λ _ st', st' = st) (λ _, False) True st.
Proof.
  induction addrs as [|addr rest IH]; intros st; simpl.
  - apply wp_ret. reflexivity.
  - apply wp_bind, wp_get.
    destruct (same_addr addr (address st)); [apply IH|].
    apply wp_bind.
    destruct (int_wrap (map_get (nextIndex st) addr - 1) <? 0).
    + apply wp_ret, wp_bind.
      eapply wp_mono; [apply IH|intros sent st' ->|auto|auto].
      apply wp_ret. reflexivity.
    + apply wp_bind, wp_at_index; [|auto]. intros e _. apply wp_ret, wp_bind.
      eapply wp_mono; [apply IH|intros sent st' ->|auto|auto].
      apply wp_ret. reflexivity.
Qed.

(** The replication goroutines write [nextIndex] only. *)
Lemma on_append_response_untouched addr request result st :
  wp (on_append_response addr request result) (λ _ st', untouched st st')
     (λ _, False) True st.
Proof.
  unfold on_append_response.
  destruct (Success result).
  - apply wp_bind, wp_modify, wp_ret. unfold untouched. simpl. tauto.
  - apply wp_bind, wp_modify, wp_bind, wp_get, wp_bind.
    destruct (int_decr (PrevLogIndex request) <? 0).
    + apply wp_ret, wp_ret. unfold untouched. simpl. tauto.
    + apply wp_bind, wp_at_index; [|auto]. intros e _.
      apply wp_ret, wp_ret. unfold untouched. simpl. tauto.
Qed.

Lemma replicate_to_untouched addr replies :
  ∀ request st,
    wp (replicate_to addr request replies) (λ _ st', untouched st st')
       (λ _, False) True st.
Proof.
  induction replies as [|[result|] rest IH]; intros request st; simpl.
  - apply wp_ret, untouched_refl.
  - apply wp_bind.
    eapply wp_mono; [apply on_append_response_untouched| |auto|auto].
    intros [request'|] st1 H1; simpl.
    + eapply wp_mono; [apply IH| |auto|auto].
      intros r st2 H2. exact (untouched_trans _ _ _ H1 H2).
    + apply wp_ret. exact H1.
  - apply wp_ret, untouched_refl.
Qed.

Lemma fan_out_untouched acks addrs :
  ∀ st, wp (fan_out acks addrs) (λ _ st', untouched st st') (λ _, False) True st.
Proof.
  induction addrs as [|addr rest IH]; intros st; simpl.
  - apply wp_ret, untouched_refl.
  - apply wp_bind, wp_get.
    destruct (same_addr addr (address st)); [apply IH|].
    apply wp_bind.
    assert (Hrest : ∀ t,
      wp (replicate_to addr
            (mkAppendEntriesRequest (currentTerm st) (address st)
               (len (log st) - 2) t
               (drop (Z.to_nat (len (log st) - 1)) (log st)) (commitIndex st))
            (acks addr)
          ≫= λ r, fan_out acks rest
          ≫= λ rs, mret (match r with Some r => r :: rs | None => rs end))
        (λ _ st', untouched st st') (λ _, False) True st).
    { intros t. apply wp_bind.
      eapply wp_mono; [apply replicate_to_untouched| |auto|auto].
      intros r st1 H1. simpl. apply wp_bind.
      eapply wp_mono; [apply IH| |auto|auto].
      intros rs st2 H2. apply wp_ret. exact (untouched_trans _ _ _ H1 H2). }
    destruct (len (log st) - 2 <? 0).
    + apply wp_ret, Hrest.
    + apply wp_bind, wp_at_index; [|auto]. intros e _. apply wp_ret, Hrest.
Qed.

(** On a node at rest the tally finds nothing to commit: whatever the
    acknowledgements, the node is unchanged and the reply, if any, is the
    empty result with [ok = false]. *)
Lemma tally_idle responses :
  ∀ successCount st,
    Idle st →
    wp (tally responses successCount)
       (λ r st', st' = st ∧ (r = ReplyNone ∨ r = ReplyResult "" false))
       (λ _, False) False st.
Proof.
  induction responses as [|response rest IH]; intros k st Hidle; simpl.
  - apply wp_ret. auto.
  - destruct (Success response); [|apply IH, Hidle].
    apply wp_bind, wp_get.
    destruct (int_incr k >? len (clusterAddrList st) `quot` 2);
      [|apply IH, Hidle].
    apply wp_bind. unfold wp at 1.
    destruct Hidle as (Hmu & Hci & Hla).
    rewrite commit_nothing by (auto; lia). apply wp_ret. auto.
Qed.

(** ** [startElection] (claim C4) *)

(** With a contact address, the requests are exactly these. *)
Lemma vote_requests_run c addrs :
  ∀ st,
    contactAddr st = Some c →
    vote_requests addrs st
    = Done (map (λ a, (a, mkRaftVoteRequest (electionTerm st) (address st)
                            (len (log st) - 1) 0))
              (List.filter (λ a, negb (same_addr a (address st))
                                 && negb (same_addr a c)) addrs)) st.
Proof.
  induction addrs as [|addr rest IH]; intros st Hc; simpl; [reflexivity|].
  run. rewrite Hc.
  destruct (same_addr addr (address st)); simpl.
  - rewrite (IH st Hc). reflexivity.
  - rewrite (IH st Hc). destruct (same_addr addr c); reflexivity.
Qed.

(** With the mutex free every vote goroutine runs to its end. *)
Lemma collect_votes_returns votes asked voteCount st :
  mu st = false →
  ∃ k st', collect_votes votes asked voteCount st = Done k st'
           ∧ untouched st st'.
Proof.
  intros Hmu.
  pose proof (collect_votes_untouched votes asked voteCount st Hmu) as H.
  unfold wp in H.
  destruct (collect_votes votes asked voteCount st) as [k st'| |];
    [eauto|contradiction|contradiction].
Qed.

Theorem startElection_opening (st : RaftNode) (c : Addr) :
  mu st = false →
  contactAddr st = Some c →
  int_min ≤ electionTerm st < int_max →
  ∃ sent st',
    begin_election st = Done sent st'
    ∧ st' = set_clusterLeader None
              (set_electionTerm (electionTerm st + 1)
                 (set_nodeType CANDIDATE st))
    ∧ currentTerm st' = currentTerm st ∧ votedFor st' = votedFor st
    ∧ map fst sent = asked_peers c st
    ∧ Forall (λ m, VReq_Term (snd m) = electionTerm st + 1
                   ∧ CandidateId (snd m) = address st
                   ∧ LastLogIndex (snd m) = len (log st) - 1) sent
    ∧ ∀ votes, ∃ st'', startElection votes st = Done sent st''.
Proof.
  intros Hmu Hc Hterm.
  set (st' := set_clusterLeader None
                (set_electionTerm (electionTerm st + 1)
                   (set_nodeType CANDIDATE st))).
  set (req := mkRaftVoteRequest (electionTerm st + 1) (address st)
                (len (log st) - 1) 0).
  assert (Hbegin : begin_election st
                   = Done (map (λ a, (a, req)) (asked_peers c st)) st').
  { unfold begin_election. run. rewrite Hmu. simpl.
    rewrite (int_incr_small _ Hterm).
    erewrite vote_requests_run by (simpl; exact Hc). simpl.
    f_equal. unfold st'. node_eq st. }
  eexists _, st'. split; [exact Hbegin|].
  split; [reflexivity|]. split; [reflexivity|]. split; [reflexivity|].
  split; [|split].
  - rewrite map_map. simpl. apply map_id.
  - apply Forall_forall. intros m Hm. apply list_elem_of_In, in_map_iff in Hm.
    destruct Hm as (a & <- & _). simpl. auto.
  - intros votes. unfold startElection.
    unfold mbind at 1, M_bind at 1. rewrite Hbegin.
    destruct (collect_votes_returns votes
                (map fst (map (λ a, (a, req)) (asked_peers c st))) 1 st')
      as (k & st'' & Hrun & _); [unfold st'; simpl; exact Hmu|].
    exists st''. unfold mbind, M_bind. rewrite Hrun. reflexivity.
Qed.

Lemma startElection_opening_witness :
  ∃ sent st',
    begin_election follower_of_three = Done sent st'
    ∧ st' = set_clusterLeader None
              (set_electionTerm (0 + 1)
                 (set_nodeType CANDIDATE follower_of_three))
    ∧ currentTerm st' = 0 ∧ votedFor st' = None
    ∧ map fst sent = asked_peers nodeA follower_of_three
    ∧ Forall (λ m, VReq_Term (snd m) = 0 + 1
                   ∧ CandidateId (snd m) = nodeC
                   ∧ LastLogIndex (snd m) = len boot_log - 1) sent
    ∧ ∀ votes, ∃ st'', startElection votes follower_of_three = Done sent st''.
Proof.
  apply (startElection_opening follower_of_three nodeA).
  - reflexivity.
  - reflexivity.
  - simpl. unfold int_min, int_max. lia.
Defined.

(** C4, as the claim states it, fails on a follower of the cluster
    [A; B; C] that joined through A: after [startElection], [currentTerm] is
    still 0 and [votedFor] still none; the only request goes to B, the peer A
    is not asked although it is not the node itself; and the request carries
    [lastLogTerm = 0] while the last log entry has term 2. *)
Lemma startElection_leaves_currentTerm :
  let st' := set_clusterLeader None
               (set_electionTerm 1 (set_nodeType CANDIDATE follower_of_three)) in
  startElection (λ _, None) follower_of_three
  = Done [(nodeB, mkRaftVoteRequest 1 nodeC 2 0)] st'
  ∧ currentTerm st' ≠ currentTerm follower_of_three + 1
  ∧ votedFor st' ≠ Some (address follower_of_three)
  ∧ (nodeA ∈ clusterAddrList follower_of_three
     ∧ addr_str nodeA ≠ addr_str (address follower_of_three))
  ∧ localLastLogTerm follower_of_three = 2.
Proof.
  simpl. split; [vm_compute; reflexivity|].
  split; [simpl; lia|]. split; [discriminate|].
  split; [|reflexivity]. split; [|discriminate].
  apply list_elem_of_In. simpl. auto.
Qed.

(** ** Replication bookkeeping (claim C7) *)

(** C7, as the code has it. When the reply of follower [p] to a request is
    decoded (no counter being at the edge of the [int] range): on success
    [nextIndex[p]] goes up by exactly one and the loop ends; on failure
    [nextIndex[p]] goes down by exactly one, with no floor at 0, and the send
    is retried with [prevLogIndex] one lower, [prevLogTerm] the term at that
    index (0 below index 0), and the same entries.  [matchIndex] is not
    written in either case. *)
Theorem on_append_response_bookkeeping (st : RaftNode) (p : Addr)
    (request : AppendEntriesRequest) (result : AppendEntriesResponse) :
  int_min < map_get (nextIndex st) p < int_max →
  int_min < PrevLogIndex request ≤ int_max →
  PrevLogIndex request ≤ len (log st) →
  ∃ next st',
    on_append_response p request result st = Done next st'
    ∧ matchIndex st' = matchIndex st
    ∧ map_get (nextIndex st') p
      = (if Success result then map_get (nextIndex st) p + 1
         else map_get (nextIndex st) p - 1)
    ∧ next
      = (if Success result then None
         else Some (mkAppendEntriesRequest (AReq_Term request) (LeaderId request)
                      (PrevLogIndex request - 1)
                      (term_at (log st) (PrevLogIndex request - 1))
                      (Entries request) (LeaderCommit request))).
Proof.
  intros Hnext Hprev Hlen. unfold on_append_response.
  destruct (Success result).
  - run. eexists _, _. split; [reflexivity|]. simpl.
    split; [reflexivity|]. split; [|reflexivity].
    unfold map_get in *. rewrite lookup_insert_eq. simpl.
    apply int_incr_small. lia.
  - run. rewrite (int_decr_small (PrevLogIndex request)) by lia.
    unfold term_at.
    destruct (Z.ltb_spec (PrevLogIndex request - 1) 0) as [Hneg|Hpos].
    + eexists _, _. split; [reflexivity|]. simpl.
      split; [reflexivity|]. split; [|reflexivity].
      unfold map_get in *. rewrite lookup_insert_eq. simpl.
      apply int_decr_small. lia.
    + destruct (index_in_range (log st) (PrevLogIndex request - 1)) as [e He];
        [lia|].
      rewrite He. simpl.
      eexists _, _. split; [reflexivity|]. simpl.
      split; [reflexivity|]. split; [|reflexivity].
      unfold map_get in *. rewrite lookup_insert_eq. simpl.
      apply int_decr_small. lia.
Qed.

Lemma on_append_response_bookkeeping_witness :
  ∃ next st',
    on_append_response nodeB request_to_B (mkAppendEntriesResponse 0 false)
      leader_appended = Done next st'
    ∧ matchIndex st' = matchIndex leader_appended
    ∧ map_get (nextIndex st') nodeB = 0 - 1
    ∧ next = Some (mkAppendEntriesRequest 0 nodeA (2 - 1)
                     (term_at (log leader_appended) (2 - 1))
                     [mkLogEntry 0 "set x 1"] (-1)).
Proof.
  apply (on_append_response_bookkeeping leader_appended nodeB request_to_B
           (mkAppendEntriesResponse 0 false)).
  - vm_compute. split; reflexivity.
  - vm_compute. split; [reflexivity|discriminate].
  - vm_compute. discriminate.
Defined.

(** C7, as the claim states it, fails on the leader of three that has
    never heard from B, so that [nextIndex[B]] reads 0.  After a success
    reply to the request with [prevLogIndex = 2] and one entry,
    [matchIndex[B]] is not 3 and [nextIndex[B]] is not 4; after a failure
    reply [nextIndex[B]] is -1, below 0.  The last part shows the second case
    arising in a call of [Execute]. *)
Lemma nextIndex_drops_below_zero :
  (∃ st', on_append_response nodeB request_to_B
            (mkAppendEntriesResponse 0 true) leader_appended = Done None st'
          ∧ map_get (matchIndex st') nodeB
            ≠ PrevLogIndex request_to_B + len (Entries request_to_B)
          ∧ map_get (nextIndex st') nodeB
            ≠ PrevLogIndex request_to_B + len (Entries request_to_B) + 1)
  ∧ (∃ next st', on_append_response nodeB request_to_B
                   (mkAppendEntriesResponse 0 false) leader_appended
                 = Done next st'
                 ∧ map_get (nextIndex st') nodeB < 0)
  ∧ (∃ reply st', Execute "set x 1" (λ _, [ack false]) leader_of_three
                  = Done reply st'
                  ∧ map_get (nextIndex st') nodeB < 0).
Proof.
  split; [|split].
  - eexists. split; [vm_compute; reflexivity|]. vm_compute.
    split; discriminate.
  - eexists _, _. split; [vm_compute; reflexivity|]. vm_compute. reflexivity.
  - eexists _, _. split; [vm_compute; reflexivity|]. vm_compute. reflexivity.
Qed.

(** ** [Execute] on the leader (claim C1) *)

(** On a leader at rest, [Execute] appends the command with
    [term = currentTerm]; it writes neither [commitIndex] nor [lastApplied]
    nor the store, and its reply, if any, carries the empty result and
    [ok = false]. *)
Lemma Execute_leader_idle st args acks :
  nodeType st = LEADER → Idle st →
  wp (Execute args acks)
     (λ reply st',
        untouched (set_log (log st ++ [mkLogEntry (currentTerm st) args]) st) st'
        ∧ (reply = ReplyNone ∨ reply = ReplyResult "" false))
     (λ _, False) True st.
Proof.
  intros Hrole Hidle. pose proof Hidle as (Hmu & Hci & Hla).
  unfold Execute, append_command. apply wp_bind, wp_get. rewrite Hrole. simpl.
  apply wp_bind, wp_bind, wp_Lock; [intros _|congruence].
  apply wp_bind, wp_modify, wp_Unlock; [intros _|discriminate].
  apply wp_bind, wp_get, wp_bind. simpl.
  match goal with |- wp _ _ _ _ ?s => set (st1 := s) end.
  assert (Heq : st1 = set_log (log st ++ [mkLogEntry (currentTerm st) args]) st)
    by (unfold st1; node_eq st).
  eapply wp_mono; [apply fan_out_untouched| |auto|auto].
  intros responses st2 H2. simpl.
  assert (Hidle2 : Idle st2).
  { apply (Idle_untouched st1); [|exact H2].
    unfold Idle, st1. simpl. auto. }
  eapply wp_mono; [apply tally_idle, Hidle2| |auto|contradiction].
  intros reply st3 [-> Hreply]. split; [|exact Hreply].
  rewrite <- Heq. exact H2.
Qed.

(** C1. The leader of a cluster of three (reachable from [NewRaftNode] by
    two [ApplyMembership] calls) executes "set x 1" and both followers
    acknowledge.  The entry is appended with [term = currentTerm], and two
    acknowledgements exceed 3/2; but [Execute] never assigns [commitIndex], so
    [commit] finds nothing to apply: [commitIndex] and [lastApplied] stay -1,
    the key x stays unset and the reply is [result = ""], [ok = false].  On a
    single node there is no acknowledgement to count, the leader's own is not
    counted, and [Execute] returns without a reply. *)
Theorem Execute_majority_applies_nothing :
  reachable leader_of_three
  ∧ (∃ st',
     Execute "set x 1" (λ _, [ack true]) leader_of_three
     = Done (ReplyResult "" false) st'
     ∧ log st' = boot_log ++ [mkLogEntry (currentTerm leader_of_three) "set x 1"]
     ∧ commitIndex st' = -1 ∧ lastApplied st' = -1
     ∧ app st' = KVStore.NewKVStore)
  ∧ (∃ st',
       Execute "set x 1" (λ _, []) leader_alone = Done ReplyNone st'
       ∧ commitIndex st' = -1 ∧ lastApplied st' = -1).
Proof.
  split; [exact leader_of_three_reachable|]. split.
  - eexists. split; [vm_compute; reflexivity|]. repeat split.
  - eexists. split; [vm_compute; reflexivity|]. split; reflexivity.
Qed.

(** ** The commit pipeline over the life of a node (claim C8) *)

(** A [prevLogIndex] below -1 kills the process. *)
Lemma AppendEntries_panics st args :
  mu st = false → append_term_rejects args st = false →
  PrevLogIndex args < -1 → AppendEntries args st = Panic.
Proof.
  intros Hmu Hterm Hlow. enter_AppendEntries Hmu Hterm.
  unfold mbind at 1, M_bind at 1.
  rewrite (consistency_check_panics _ _ Hlow). reflexivity.
Qed.

Lemma accepted_commitIndex_idle args st :
  Idle st → -1 ≤ accepted_commitIndex args st.
Proof.
  intros (_ & Hci & _). unfold accepted_commitIndex. rewrite Hci.
  destruct (Z.gtb_spec (LeaderCommit args) (-1)); [|lia].
  pose proof (len_nonneg (accepted_log args st)). lia.
Qed.

(** [AppendEntries] on a node at rest: either nothing is committed and
    the node is at rest again, or [commitIndex] is raised and the handler is
    stuck with the mutex held. *)
Lemma AppendEntries_idle st args st' :
  Idle st → node_after (AppendEntries args st) = Some st' → Safe st'.
Proof.
  intros Hidle Hstep. pose proof Hidle as (Hmu & Hci & Hla).
  destruct (append_term_rejects args st) eqn:Hterm.
  { rewrite AppendEntries_term_rejected in Hstep by assumption.
    inversion Hstep; subst. apply Idle_Safe, Hidle. }
  destruct (Z.lt_ge_cases (PrevLogIndex args) (-1)) as [Hlow|Hprev].
  { rewrite AppendEntries_panics in Hstep by assumption. discriminate. }
  destruct (consistency_check_spec args st Hprev) as (b & _ & Hb).
  destruct b.
  - assert (Hcons : spec_consistent args st) by (apply Hb; reflexivity).
    rewrite (AppendEntries_accepted _ _ Hmu Hterm Hcons) in Hstep.
    pose proof (accepted_commitIndex_idle args st Hidle) as Hge.
    destruct (Z.gtb_spec (accepted_commitIndex args st) (lastApplied st));
      inversion Hstep; subst; unfold Safe; simpl.
    + split; [assumption|]. split; [assumption|]. discriminate.
    + split; [assumption|]. split; [assumption|]. intros _. lia.
  - assert (Hcons : ¬ spec_consistent args st).
    { intros H. apply Hb in H. discriminate. }
    rewrite (AppendEntries_refused _ _ Hmu Hterm Hprev Hcons) in Hstep.
    inversion Hstep; subst. apply Idle_Safe, Hidle.
Qed.

Lemma RequestVote_idle st args st' :
  Idle st → node_after (RequestVote args st) = Some st' → Idle st'.
Proof.
  intros Hidle Hstep. pose proof Hidle as (Hmu & Hci & Hla).
  assert (Hwp : wp (RequestVote args) (λ _ s, Idle s) (λ _, False) False st).
  { unfold RequestVote. apply wp_locked; [exact Hmu|].
    apply wp_bind, wp_get.
    destruct (vote_term_rejects args (set_mu true st)).
    { apply wp_ret. split; [reflexivity|]. unfold Idle. simpl. auto. }
    apply wp_bind.
    assert (Hrest : ∀ t,
      wp (if votedFor_allows args (set_mu true st)
             && ((LastLogIndex args >=? len (log (set_mu true st)) - 1)
                 && (LastLogTerm args >=? t))
          then modify (set_votedFor (Some (CandidateId args))) ;;
               mret (mkRaftVoteResponse (currentTerm (set_mu true st)) true)
          else mret (mkRaftVoteResponse (currentTerm (set_mu true st)) false))
         (λ _ s, mu s = true ∧ Idle (set_mu false s)) (λ _, False) False
         (set_mu true st)).
    { intros t. destruct (_ && _).
      - apply wp_bind, wp_modify, wp_ret.
        split; [reflexivity|]. unfold Idle. simpl. auto.
      - apply wp_ret. split; [reflexivity|]. unfold Idle. simpl. auto. }
    change (log (set_mu true st)) with (log st) in *.
    destruct (localLastLogTerm_cases st) as [(Hlen & _)|(Hlen & e & He & _)];
      rewrite Hlen.
    - apply wp_ret, Hrest.
    - apply wp_bind, wp_at_index; [|congruence].
      intros x _. apply wp_ret, Hrest. }
  destruct (outcome_of_wp _ _ _ _ _ _ Hwp Hstep) as [[_ H]|[]]. exact H.
Qed.

Lemma ApplyMembership_idle st args st' :
  Idle st → node_after (ApplyMembership args st) = Some st' → Idle st'.
Proof.
  intros (Hmu & Hci & Hla). unfold ApplyMembership. run. rewrite Hmu. simpl.
  destruct (existsb _ _); simpl; intros Hstep; inversion Hstep; subst;
    unfold Idle; simpl; auto.
Qed.

Lemma begin_election_idle st :
  Idle st →
  wp begin_election (λ _ st', Idle st') (λ _, False) True st.
Proof.
  intros (Hmu & Hci & Hla). unfold begin_election.
  apply wp_bind, wp_Lock; [intros _|congruence].
  apply wp_bind, wp_modify, wp_bind, wp_modify, wp_bind, wp_modify.
  apply wp_bind, wp_Unlock; [intros _|discriminate].
  apply wp_bind, wp_get.
  eapply wp_mono; [apply vote_requests_pure| |auto|auto].
  intros sent st' ->. unfold Idle. simpl. auto.
Qed.

Lemma startElection_idle st votes :
  Idle st →
  wp (startElection votes) (λ _ st', Idle st') (λ _, False) True st.
Proof.
  intros Hidle. unfold startElection. apply wp_bind.
  eapply wp_mono; [apply begin_election_idle, Hidle| |auto|auto].
  intros sent st1 Hidle1. simpl. apply wp_bind.
  eapply wp_mono;
    [apply collect_votes_untouched, Hidle1| |auto|contradiction].
  intros k st2 H2. simpl. apply wp_ret.
  exact (Idle_untouched _ _ Hidle1 H2).
Qed.

(** An operation started while [node.mu] is held writes at most
    [nextIndex]: it either does not need the mutex, or waits for it without
    having changed anything. *)
Lemma step_held st op st' :
  mu st = true → step op st = Some st' → untouched st st'.
Proof.
  intros Hmu. destruct op; simpl.
  - unfold RequestVote. rewrite locked_held by assumption. simpl.
    intros [= <-]. apply untouched_refl.
  - unfold AppendEntries. rewrite locked_held by assumption. simpl.
    intros [= <-]. apply untouched_refl.
  - unfold ApplyMembership. rewrite locked_held by assumption. simpl.
    intros [= <-]. apply untouched_refl.
  - unfold startElection, begin_election. run. rewrite Hmu. simpl.
    intros [= <-]. apply untouched_refl.
  - intros Hstep.
    destruct (outcome_of_wp _ _ _ _ _ _
                (heartbeat_requests_pure (clusterAddrList st) st) Hstep)
      as [[_ ->]|[]]. apply untouched_refl.
  - rewrite commit_held by assumption. simpl.
    intros [= <-]. apply untouched_refl.
  - unfold Execute. run. destruct (nodeType st); simpl;
      rewrite ?Hmu; simpl; intros [= <-]; apply untouched_refl.
  - unfold on_vote_response. run.
    destruct (VResp_Term result >? electionTerm st);
      [rewrite Hmu; simpl; intros [= <-]; apply untouched_refl|].
    destruct (VoteGranted result);
      [|simpl; intros [= <-]; apply untouched_refl].
    destruct (int_incr voteCount >? len (clusterAddrList st) `quot` 2);
      rewrite ?Hmu; simpl; intros [= <-]; apply untouched_refl.
  - run. rewrite Hmu. simpl. intros [= <-]. apply untouched_refl.
  - intros Hstep.
    destruct (outcome_of_wp _ _ _ _ _ _
                (on_append_response_untouched addr request result st) Hstep)
      as [[_ H]|[]]. exact H.
Qed.

(** An operation started on a node at rest keeps the invariant. *)
Lemma step_idle st op st' :
  Idle st → step op st = Some st' → Safe st'.
Proof.
  intros Hidle. pose proof Hidle as (Hmu & Hci & Hla). destruct op; simpl.
  - intros Hstep. apply Idle_Safe. eapply RequestVote_idle; eauto.
  - apply AppendEntries_idle, Hidle.
  - intros Hstep. apply Idle_Safe. eapply ApplyMembership_idle; eauto.
  - intros Hstep.
    destruct (outcome_of_wp _ _ _ _ _ _ (startElection_idle st votes Hidle) Hstep)
      as [[_ H]|[]]. apply Idle_Safe, H.
  - intros Hstep.
    destruct (outcome_of_wp _ _ _ _ _ _
                (heartbeat_requests_pure (clusterAddrList st) st) Hstep)
      as [[_ ->]|[]]. apply Idle_Safe, Hidle.
  - rewrite commit_nothing by (auto; lia). simpl. intros Hstep.
    inversion Hstep; subst. apply Idle_Safe, Hidle.
  - destruct (nodeType st) eqn:Hrole.
    + intros Hstep.
      destruct (outcome_of_wp _ _ _ _ _ _
                  (Execute_leader_idle st args acks Hrole Hidle) Hstep)
        as [[_ [H _]]|[]].
      apply Idle_Safe. eapply Idle_untouched; [|exact H].
      unfold Idle. simpl. auto.
    + unfold Execute. run. rewrite Hrole. simpl. intros Hstep.
      inversion Hstep; subst. apply Idle_Safe, Hidle.
    + unfold Execute. run. rewrite Hrole. simpl. intros Hstep.
      inversion Hstep; subst. apply Idle_Safe, Hidle.
  - intros Hstep.
    destruct (outcome_of_wp _ _ _ _ _ _
                (on_vote_response_untouched result voteCount st Hmu) Hstep)
      as [[_ H]|[]]. apply Idle_Safe. exact (Idle_untouched _ _ Hidle H).
  - run. rewrite Hmu. simpl. intros [= <-].
    apply Idle_Safe. unfold Idle. simpl. auto.
  - intros Hstep.
    destruct (outcome_of_wp _ _ _ _ _ _
                (on_append_response_untouched addr request result st) Hstep)
      as [[_ H]|[]]. apply Idle_Safe. exact (Idle_untouched _ _ Hidle H).
Qed.

Lemma Safe_untouched st st' : Safe st → untouched st st' → Safe st'.
Proof.
  unfold Safe, untouched.
  intros (Hla & Hge & Hci) (Hmu & _ & _ & _ & _ & _ & _ & _ & Hc & Hl & _).
  rewrite Hc, Hl, Hmu. auto.
Qed.

Lemma Safe_cases st : Safe st → mu st = true ∨ Idle st.
Proof.
  intros (Hla & Hge & Hci). unfold Idle. destruct (mu st); auto.
Qed.

Lemma step_Safe st op st' : Safe st → step op st = Some st' → Safe st'.
Proof.
  intros Hsafe Hstep. destruct (Safe_cases st Hsafe) as [Hmu|Hidle].
  - exact (Safe_untouched _ _ Hsafe (step_held _ _ _ Hmu Hstep)).
  - eapply step_idle; eauto.
Qed.

Lemma reachable_Safe st : reachable st → Safe st.
Proof.
  induction 1 as [addr contact replies st Hnew|st op st' _ IH Hstep].
  - apply NewRaftNode_done in Hnew as (_ & Hci & Hla).
    unfold Safe. rewrite Hci, Hla. auto with lia.
  - eapply step_Safe; eauto.
Qed.

(** C8. In every state a node can reach from [NewRaftNode] by the
    operations [RequestVote], [AppendEntries], [ApplyMembership],
    [startElection], [leaderHeartbeat], [commit] and [Execute] (or by the
    pieces of the goroutines of the last two), [lastApplied <= commitIndex];
    and no operation run in such a state decreases [commitIndex] or
    [lastApplied]. *)
Theorem commit_pipeline_monotonic (st : RaftNode) (op : Op) (st' : RaftNode) :
  reachable st →
  step op st = Some st' →
  commitIndex st ≤ commitIndex st'
  ∧ lastApplied st ≤ lastApplied st'
  ∧ lastApplied st ≤ commitIndex st
  ∧ lastApplied st' ≤ commitIndex st'.
Proof.
  intros Hreach Hstep.
  pose proof (reachable_Safe st Hreach) as Hsafe.
  pose proof (step_Safe st op st' Hsafe Hstep) as Hsafe'.
  destruct (Safe_cases st Hsafe) as [Hmu|Hidle].
  - destruct (step_held _ _ _ Hmu Hstep)
      as (_ & _ & _ & _ & _ & _ & _ & _ & Hc & Hl & _).
    destruct Hsafe as (Hla & Hge & _). lia.
  - destruct Hidle as (_ & Hci & Hla).
    destruct Hsafe' as (Hla' & Hge' & _). lia.
Qed.

Lemma commit_pipeline_monotonic_witness :
  commitIndex follower_of_three
  ≤ commitIndex (set_mu true (set_commitIndex 0 follower_of_three))
  ∧ lastApplied follower_of_three
    ≤ lastApplied (set_mu true (set_commitIndex 0 follower_of_three))
  ∧ lastApplied follower_of_three ≤ commitIndex follower_of_three
  ∧ lastApplied (set_mu true (set_commitIndex 0 follower_of_three))
    ≤ commitIndex (set_mu true (set_commitIndex 0 follower_of_three)).
Proof.
  apply (commit_pipeline_monotonic follower_of_three
           (OpAppendEntries (mkAppendEntriesRequest 0 nodeA 2 2 [] 0))).
  - apply (reachable_new nodeC (Some nodeA)
             [JoinSuccess [nodeA; nodeB; nodeC] (Some nodeA)]).
    vm_compute. reflexivity.
  - vm_compute. reflexivity.
Defined.

(** ** The commit / apply step on a node in use (claim C6) *)

(** On a node in use [commitIndex] exceeds [lastApplied] only while
    [node.mu] is held, by the call of [AppendEntries] that raised it: every
    run of the pipeline that has something to apply waits for the mutex for
    ever, and nothing has been applied. *)
Lemma commit_waits_when_behind st :
  reachable st → lastApplied st < commitIndex st →
  mu st = true ∧ commit st = Hang st ∧ lastApplied st = -1.
Proof.
  intros Hreach Hlt. destruct (reachable_Safe st Hreach) as (Hla & _ & Hci).
  assert (Hmu : mu st = true).
  { destruct (mu st); [reflexivity|]. specialize (Hci eq_refl). lia. }
  split; [exact Hmu|]. split; [exact (commit_held st Hmu)|exact Hla].
Qed.

(** C6. A freshly joined follower (log of three entries,
    [commitIndex = lastApplied = -1]) receives the entry "set x 1" with
    [prevLogIndex = 2], [prevLogTerm = 2] and [leaderCommit = 3].  The
    request is accepted, the entry is appended and [commitIndex] becomes 3,
    so the claim has the node apply the entries 0 to 3 and end with
    [lastApplied = 3].  The handler calls [commit] with [node.mu] still
    held; [commit] locks [node.mu] again and waits for ever.  Nothing is
    applied: [lastApplied] stays -1 and the store is as it was; and a later
    run of [commit] on that node waits in the same way. *)
Theorem pipeline_waits_for_its_own_mutex :
  let entry := mkLogEntry 0 "set x 1" in
  let args := mkAppendEntriesRequest 0 nodeA 2 2 [entry] 3 in
  let st' := set_mu true
               (set_commitIndex 3
                  (set_log (boot_log ++ [entry]) follower_of_three)) in
  reachable follower_of_three
  ∧ append_term_rejects args follower_of_three = false
  ∧ spec_consistent args follower_of_three
  ∧ AppendEntries args follower_of_three = Hang st'
  ∧ lastApplied st' < commitIndex st'
  ∧ lastApplied st' = lastApplied follower_of_three
  ∧ app st' = app follower_of_three
  ∧ reachable st'
  ∧ commit st' = Hang st'.
Proof.
  cbv zeta.
  assert (Hrun :
    AppendEntries (mkAppendEntriesRequest 0 nodeA 2 2 [mkLogEntry 0 "set x 1"] 3)
      follower_of_three
    = Hang (set_mu true
              (set_commitIndex 3
                 (set_log (boot_log ++ [mkLogEntry 0 "set x 1"])
                    follower_of_three))))
    by (vm_compute; reflexivity).
  split; [exact follower_of_three_reachable|].
  split; [reflexivity|]. split.
  { right. split; [reflexivity|]. eexists. split; reflexivity. }
  split; [exact Hrun|]. split; [simpl; lia|].
  split; [reflexivity|]. split; [reflexivity|]. split.
  - apply (reachable_step follower_of_three
             (OpAppendEntries
                (mkAppendEntriesRequest 0 nodeA 2 2 [mkLogEntry 0 "set x 1"] 3)));
      [exact follower_of_three_reachable|].
    unfold step. rewrite Hrun. reflexivity.
  - apply commit_held. reflexivity.
Qed.

(** * Further properties of the code *)

(** ** [RequestVote]: the whole handler *)

Lemma wp_outcome {A} (m : M A) (o : Outcome A) st :
  wp m (λ a s, Done a s = o) (λ s, Hang s = o) (Panic = o) st → m st = o.
Proof. unfold wp. destruct (m st); auto. Qed.

(** What [RequestVote] does on a node whose mutex is free. *)
Lemma RequestVote_run st args :
  mu st = false →
  RequestVote args st
  = if vote_term_rejects args st
    then Done (mkRaftVoteResponse (currentTerm st) false) st
    else if vote_decision args st
         then Done (mkRaftVoteResponse (currentTerm st) true)
                (set_votedFor (Some (CandidateId args)) st)
         else Done (mkRaftVoteResponse (currentTerm st) false) st.
Proof.
  intros Hmu. destruct (vote_term_rejects args st) eqn:Hterm.
  { apply RequestVote_term_rejected; assumption. }
  apply wp_outcome. unfold RequestVote. apply wp_locked; [exact Hmu|].
  apply wp_bind, wp_get.
  change (vote_term_rejects args (set_mu true st))
    with (vote_term_rejects args st).
  change (votedFor_allows args (set_mu true st))
    with (votedFor_allows args st).
  change (log (set_mu true st)) with (log st).
  change (currentTerm (set_mu true st)) with (currentTerm st).
  rewrite Hterm. apply wp_bind.
  apply (wp_mono _ (λ t s, t = localLastLogTerm st ∧ s = set_mu true st)
           _ (λ _, False) _ False).
  { destruct (localLastLogTerm_cases st) as [(Hlen & Ht)|(Hlen & e & He & Ht)];
      rewrite Hlen.
    - apply wp_ret. auto.
    - apply wp_bind, wp_at_index; [|congruence].
      intros x Hx. apply wp_ret. split; congruence. }
  2, 3: contradiction.
  intros t s [-> ->]. fold (vote_decision args st).
  destruct (vote_decision args st).
  - apply wp_bind, wp_modify, wp_ret. simpl.
    split; [reflexivity|]. f_equal. node_eq st.
  - apply wp_ret. simpl. split; [reflexivity|]. f_equal. node_eq st.
Qed.

Lemma vote_decision_after_grant args st :
  vote_decision args st = true →
  vote_decision args (set_votedFor (Some (CandidateId args)) st) = true.
Proof.
  unfold vote_decision, votedFor_allows. simpl.
  rewrite !andb_true_iff. intros (_ & H). split; [|exact H].
  apply String.eqb_refl.
Qed.

(** X1. A vote request delivered twice gets the same answer twice: on a
    node whose mutex is free the handler returns, and run again on the node
    it leaves, it returns the same reply and changes nothing more. *)
Theorem RequestVote_retransmission (st : RaftNode) (args : RaftVoteRequest) :
  mu st = false →
  ∃ reply st',
    RequestVote args st = Done reply st'
    ∧ RequestVote args st' = Done reply st'.
Proof.
  intros Hmu. rewrite (RequestVote_run st args Hmu).
  destruct (vote_term_rejects args st) eqn:Hterm.
  { eexists _, _. split; [reflexivity|].
    rewrite (RequestVote_run st args Hmu), Hterm. reflexivity. }
  destruct (vote_decision args st) eqn:Hdec.
  - eexists _, _. split; [reflexivity|].
    rewrite RequestVote_run by exact Hmu.
    change (vote_term_rejects args (set_votedFor (Some (CandidateId args)) st))
      with (vote_term_rejects args st).
    rewrite Hterm, (vote_decision_after_grant _ _ Hdec). reflexivity.
  - eexists _, _. split; [reflexivity|].
    rewrite (RequestVote_run st args Hmu), Hterm, Hdec. reflexivity.
Qed.

Lemma RequestVote_retransmission_witness :
  ∃ reply st',
    RequestVote (mkRaftVoteRequest 0 nodeB 2 2) follower_of_three
    = Done reply st'
    ∧ RequestVote (mkRaftVoteRequest 0 nodeB 2 2) st' = Done reply st'.
Proof.
  apply (RequestVote_retransmission follower_of_three
           (mkRaftVoteRequest 0 nodeB 2 2)).
  reflexivity.
Defined.

(** ** Joining a cluster: [tryToApplyMembership] and [NewRaftNode] *)

(** The whole join loop. *)
Lemma tryToApplyMembership_run replies :
  ∀ contact st,
    mu st = false →
    tryToApplyMembership contact replies st
    = match first_success replies with
      | Some (addrs, leader) =>
          Done tt (set_clusterLeader leader (set_clusterAddrList addrs st))
      | None => if malformed_first replies then Panic else Hang st
      end.
Proof.
  induction replies as [|r rest IH]; intros contact st Hmu; [reflexivity|].
  destruct r; simpl; auto.
  run. rewrite Hmu. simpl. f_equal. node_eq st.
Qed.

(** X2. A joining node takes the cluster list and the leader hint from the
    first reply with status "success", skipping unreadable replies,
    redirections and other statuses before it, and writes nothing else: in
    particular a redirection does not change the contact address the node
    keeps. *)
Theorem tryToApplyMembership_first_success (contact : Addr)
    (replies : list JoinReply) (st : RaftNode)
    (addrs : list Addr) (leader : option Addr) :
  mu st = false →
  first_success replies = Some (addrs, leader) →
  tryToApplyMembership contact replies st
  = Done tt (set_clusterLeader leader (set_clusterAddrList addrs st)).
Proof.
  intros Hmu Hfirst. rewrite tryToApplyMembership_run by exact Hmu.
  rewrite Hfirst. reflexivity.
Qed.

Lemma tryToApplyMembership_first_success_witness :
  tryToApplyMembership nodeA
    [JoinUnreadable; JoinRedirected nodeB; JoinOtherStatus;
     JoinSuccess [nodeA; nodeB; nodeC] (Some nodeB); JoinMalformed]
    (blank_node nodeC (Some nodeA))
  = Done tt (set_clusterLeader (Some nodeB)
               (set_clusterAddrList [nodeA; nodeB; nodeC]
                  (blank_node nodeC (Some nodeA)))).
Proof.
  apply (tryToApplyMembership_first_success nodeA _ _
           [nodeA; nodeB; nodeC] (Some nodeB)); reflexivity.
Defined.

(** X3. Without a reply of status "success" the join never ends: if no
    reply is malformed either, [tryToApplyMembership] does not return and the
    node is left as it was, so [NewRaftNode] never hands out the node. *)
Theorem tryToApplyMembership_never_joins (contact : Addr)
    (replies : list JoinReply) (st : RaftNode) :
  mu st = false →
  first_success replies = None →
  malformed_first replies = false →
  tryToApplyMembership contact replies st = Hang st.
Proof.
  intros Hmu Hfirst Hmal. rewrite tryToApplyMembership_run by exact Hmu.
  rewrite Hfirst, Hmal. reflexivity.
Qed.

Lemma tryToApplyMembership_never_joins_witness :
  tryToApplyMembership nodeA
    [JoinUnreadable; JoinRedirected nodeB; JoinOtherStatus]
    (blank_node nodeC (Some nodeA))
  = Hang (blank_node nodeC (Some nodeA)).
Proof.
  apply (tryToApplyMembership_never_joins nodeA); reflexivity.
Defined.

(** The fields [NewRaftNode] sets once and for all. *)
Lemma NewRaftNode_fields addr contact replies st :
  NewRaftNode addr contact replies = Done tt st →
  mu st = false ∧ address st = addr ∧ contactAddr st = contact
  ∧ currentTerm st = 0 ∧ app st = KVStore.NewKVStore ∧ votedFor st = None
  ∧ electionTerm st = 0.
Proof.
  unfold NewRaftNode. destruct contact as [c|].
  - run. rewrite tryToApplyMembership_run by reflexivity.
    destruct (first_success replies) as [[addrs leader]|].
    + intros [= <-]. simpl. tauto.
    + destruct (malformed_first replies); discriminate.
  - vm_compute. intros [= <-]. tauto.
Qed.

(** ** [initializeAsLeader] *)

Lemma init_indexes_fold addrs :
  ∀ st,
    let st' := fold_left (λ st addr, init_indexes addr st) addrs st in
    st' = set_matchIndex (matchIndex st') (set_nextIndex (nextIndex st') st)
    ∧ ∀ p, (p ∈ map addr_ptr addrs →
            nextIndex st' !! p = Some (len (log st))
            ∧ matchIndex st' !! p = Some (-1))
           ∧ (p ∉ map addr_ptr addrs →
              nextIndex st' !! p = nextIndex st !! p
              ∧ matchIndex st' !! p = matchIndex st !! p).
Proof.
  induction addrs as [|addr rest IH]; intros st; simpl.
  - split; [node_eq st|]. intros p. split; [|auto].
    intros Hp. inversion Hp.
  - destruct (IH (init_indexes addr st)) as (Heq & Hidx). split.
    + rewrite Heq at 1. unfold init_indexes. reflexivity.
    + intros p. destruct (Hidx p) as (Hin & Hout). simpl in Hin, Hout.
      destruct (decide (p ∈ map addr_ptr rest)) as [Hrest|Hrest].
      * split; [intros _; apply Hin, Hrest|].
        intros Hp. exfalso. apply Hp. right. exact Hrest.
      * destruct (Hout Hrest) as (Hn & Hm). rewrite Hn, Hm.
        destruct (decide (p = addr_ptr addr)) as [->|Hne].
        -- split; [intros _|intros Hp; exfalso; apply Hp; left].
           rewrite !lookup_insert_eq. auto.
        -- rewrite !lookup_insert_ne by congruence. split; [|auto].
           intros Hp. apply elem_of_cons in Hp as [?|?]; contradiction.
Qed.

(** X4. [initializeAsLeader], on a node whose mutex is free, makes the
    node LEADER with itself as leader hint, appends its own address to the
    cluster list, and sets [nextIndex] to [len(log)] and [matchIndex] to -1
    for every member of the resulting list; nothing else is written. *)
Theorem initializeAsLeader_indexes (st : RaftNode) :
  mu st = false →
  ∃ st',
    initializeAsLeader st = Done tt st'
    ∧ st' = set_matchIndex (matchIndex st')
              (set_nextIndex (nextIndex st')
                 (set_clusterAddrList (clusterAddrList st ++ [address st])
                    (set_clusterLeader (Some (address st))
                       (set_nodeType LEADER st))))
    ∧ ∀ a, a ∈ clusterAddrList st' →
           nextIndex st' !! addr_ptr a = Some (len (log st))
           ∧ matchIndex st' !! addr_ptr a = Some (-1).
Proof.
  intros Hmu. unfold initializeAsLeader. run. rewrite Hmu. simpl.
  match goal with
  | |- context [fold_left ?f ?l ?s] =>
      destruct (init_indexes_fold l s) as (Heq & Hidx);
      set (st1 := fold_left f l s) in *
  end.
  simpl in *. assert (Hheld : mu st1 = true) by (rewrite Heq; reflexivity).
  rewrite Hheld. exists (set_mu false st1). split; [reflexivity|]. split.
  - rewrite Heq at 1. simpl. node_eq st.
  - intros a Ha. apply (Hidx (addr_ptr a)).
    rewrite Heq in Ha. simpl in Ha.
    apply list_elem_of_fmap. exists a. split; [reflexivity|exact Ha].
Qed.

Lemma initializeAsLeader_indexes_witness :
  ∃ st',
    initializeAsLeader (set_log boot_log (blank_node nodeA None)) = Done tt st'
    ∧ st' = set_matchIndex (matchIndex st')
              (set_nextIndex (nextIndex st')
                 (set_clusterAddrList ([] ++ [nodeA])
                    (set_clusterLeader (Some nodeA)
                       (set_nodeType LEADER
                          (set_log boot_log (blank_node nodeA None))))))
    ∧ ∀ a, a ∈ clusterAddrList st' →
           nextIndex st' !! addr_ptr a = Some (len boot_log)
           ∧ matchIndex st' !! addr_ptr a = Some (-1).
Proof.
  apply (initializeAsLeader_indexes (set_log boot_log (blank_node nodeA None))).
  reflexivity.
Defined.

(** ** [ApplyMembership] *)

Lemma listed_iff (a : Addr) (l : list Addr) :
  existsb (λ addr, same_addr addr a) l = true ↔ addr_str a ∈ map addr_str l.
Proof.
  rewrite existsb_exists, list_elem_of_fmap. unfold same_addr. split.
  - intros (x & Hx & Heq). apply String.eqb_eq in Heq.
    exists x. split; [congruence|]. apply list_elem_of_In, Hx.
  - intros (x & Heq & Hx). exists x. split; [apply list_elem_of_In, Hx|].
    apply String.eqb_eq. congruence.
Qed.

(** What [ApplyMembership] does on a node whose mutex is free. *)
Lemma ApplyMembership_run st a :
  mu st = false →
  let st' := if existsb (λ addr, same_addr addr a) (clusterAddrList st)
             then st
             else set_clusterAddrList (clusterAddrList st ++ [a]) st in
  ApplyMembership a st
  = Done (mkMembershipResponse "success" (map addr_str (clusterAddrList st'))
            (TCPAddr_String (clusterLeader st))) st'.
Proof.
  intros Hmu. unfold ApplyMembership. run. rewrite Hmu. simpl.
  destruct (existsb _ _); simpl; f_equal; node_eq st.
Qed.

(** X5. [ApplyMembership] keeps the cluster list free of duplicates: if no
    two members have the same address before the call, none have after it,
    the caller's address is a member, the old members keep their places
    (the list is unchanged or has the caller appended), and the reply has
    status "success" and lists exactly the addresses of the members. *)
Theorem ApplyMembership_no_duplicates (st : RaftNode) (a : Addr) :
  mu st = false →
  NoDup (map addr_str (clusterAddrList st)) →
  ∃ reply st',
    ApplyMembership a st = Done reply st'
    ∧ NoDup (map addr_str (clusterAddrList st'))
    ∧ addr_str a ∈ map addr_str (clusterAddrList st')
    ∧ (clusterAddrList st' = clusterAddrList st
       ∨ clusterAddrList st' = clusterAddrList st ++ [a])
    ∧ status reply = "success"%string
    ∧ resp_clusterAddrList reply = map addr_str (clusterAddrList st').
Proof.
  intros Hmu Hnodup. eexists _, _.
  split; [apply ApplyMembership_run, Hmu|]. simpl.
  destruct (existsb _ _) eqn:Hin; simpl.
  - apply listed_iff in Hin. repeat split; auto.
  - assert (Hnew : addr_str a ∉ map addr_str (clusterAddrList st)).
    { intros H. apply listed_iff in H. congruence. }
    rewrite map_app. simpl. repeat split; auto.
    + apply NoDup_app. split; [exact Hnodup|]. split.
      * intros x Hx Hx'. apply list_elem_of_singleton in Hx'. congruence.
      * apply NoDup_singleton.
    + apply elem_of_app. right. apply list_elem_of_singleton. reflexivity.
Qed.

Lemma ApplyMembership_no_duplicates_witness :
  ∃ reply st',
    ApplyMembership nodeB leader_alone = Done reply st'
    ∧ NoDup (map addr_str (clusterAddrList st'))
    ∧ addr_str nodeB ∈ map addr_str (clusterAddrList st')
    ∧ (clusterAddrList st' = clusterAddrList leader_alone
       ∨ clusterAddrList st' = clusterAddrList leader_alone ++ [nodeB])
    ∧ status reply = "success"%string
    ∧ resp_clusterAddrList reply = map addr_str (clusterAddrList st').
Proof.
  apply (ApplyMembership_no_duplicates leader_alone nodeB).
  - reflexivity.
  - simpl. apply NoDup_singleton.
Defined.

(** X6. Joining twice is joining once: after [ApplyMembership] for an
    address, a second call for the same address, or for another address
    value with the same text, returns the same reply and changes nothing. *)
Theorem ApplyMembership_idempotent (st : RaftNode) (a b : Addr) :
  mu st = false →
  addr_str b = addr_str a →
  ∃ reply st',
    ApplyMembership a st = Done reply st'
    ∧ ApplyMembership b st' = Done reply st'.
Proof.
  intros Hmu Hsame. eexists _, _.
  split; [apply ApplyMembership_run, Hmu|].
  set (st' := if existsb (λ addr, same_addr addr a) (clusterAddrList st)
              then st
              else set_clusterAddrList (clusterAddrList st ++ [a]) st).
  assert (Hmu' : mu st' = false) by (unfold st'; destruct (existsb _ _); exact Hmu).
  assert (Hin : existsb (λ addr, same_addr addr b) (clusterAddrList st') = true).
  { apply listed_iff. rewrite Hsame. unfold st'.
    destruct (existsb _ _) eqn:Hin; [apply listed_iff, Hin|].
    simpl. rewrite map_app. apply elem_of_app. right.
    apply list_elem_of_singleton. reflexivity. }
  rewrite (ApplyMembership_run st' b Hmu'). simpl. rewrite Hin.
  f_equal. f_equal. unfold st'. destruct (existsb _ _); reflexivity.
Qed.

Lemma ApplyMembership_idempotent_witness :
  ∃ reply st',
    ApplyMembership nodeB leader_alone = Done reply st'
    ∧ ApplyMembership (mkAddr 7 "10.0.0.2:5000") st' = Done reply st'.
Proof.
  apply (ApplyMembership_idempotent leader_alone nodeB
           (mkAddr 7 "10.0.0.2:5000")); reflexivity.
Defined.

(** ** [apply]: malformed commands *)

Lemma one_operand {A} (x : A) l : (1 <=? len (x :: l)) = true.
Proof. apply Z.leb_le. unfold len. simpl. lia. Qed.

Lemma two_operands {A} (x y : A) l : (2 <=? len (x :: y :: l)) = true.
Proof. apply Z.leb_le. unfold len. simpl. lia. Qed.

(** On a string of ASCII bytes the two paths of [strings.Fields] give the
    same fields. *)
Lemma ascii_rune c :
  (byte_of c <? 0x80) = true →
  first (byte_of c) = AS ∧ IsSpace (byte_of c) = isSpace c.
Proof.
  destruct c as [[] [] [] [] [] [] [] []]; vm_compute;
    intros H; try discriminate H; split; reflexivity.
Qed.

Lemma FieldsFunc_ascii s :
  ∀ w, all_ascii s = true →
       FieldsFunc_from IsSpace w (range_from 0 s) = Fields_from w s.
Proof.
  induction s as [|c s IH]; intros w Hascii; [reflexivity|].
  unfold all_ascii in Hascii. simpl in Hascii.
  apply andb_prop in Hascii as [Hc Hs].
  destruct (ascii_rune c Hc) as [Hfirst Hspace].
  cbn [range_from]. unfold DecodeRuneInString. cbn [list_ascii_of_string map decode].
  rewrite Hfirst. cbn [FieldsFunc_from Fields_from Nat.sub substring].
  rewrite Hspace. destruct (isSpace c).
  - f_equal. apply IH. exact Hs.
  - destruct s; apply IH; exact Hs.
Qed.

Lemma Fields_of_runes s : Fields s = FieldsFunc IsSpace s.
Proof.
  unfold Fields. destruct (all_ascii s) eqn:Hascii; [|reflexivity].
  symmetry. apply FieldsFunc_ascii. exact Hascii.
Qed.

(** A command whose words are separated by no-break spaces is split like
    any other, and carried out. *)
Lemma apply_splits_at_nbsp st :
  Fields ("set" ++ nbsp ++ "x" ++ nbsp ++ "1")%string = ["set"; "x"; "1"]%string
  ∧ apply ("set" ++ nbsp ++ "x" ++ nbsp ++ "1")%string st
    = Done ("OK"%string, true) (set_app (KVStore.Set_ "x" "1" (app st)) st).
Proof. split; reflexivity. Qed.

(** X7. [apply] carries out exactly the well-formed commands: when the
    first field is one of get, strlen, del followed by at least one operand,
    or one of set, append followed by at least two, it returns [ok = true]
    and writes at most the store; on every other command (empty, unknown
    verb, too few operands) it returns the empty result with [ok = false]
    and leaves the node as it was.  The fields are those of
    [strings.Fields], which splits at every Unicode white space. *)
Theorem apply_well_formed (command : string) (st : RaftNode) :
  if well_formed (Fields command)
  then ∃ r kv, apply command st = Done (r, true) (set_app kv st)
  else apply command st = Done (""%string, false) st.
Proof.
  unfold apply, well_formed.
  destruct (Fields command) as [|verb ops]; [reflexivity|].
  destruct (String.eqb verb "get"), (String.eqb verb "strlen"),
    (String.eqb verb "del"), (String.eqb verb "set"),
    (String.eqb verb "append");
    destruct ops as [|k [|v ops]];
    rewrite ?one_operand, ?two_operands; simpl; try reflexivity;
    run;
    first [ eexists _, _; reflexivity
          | eexists _, (app st); rewrite set_app_same; reflexivity ].
Qed.

(** ** [AppendEntries]: bounds and repeated delivery *)

(** X8. A request whose [prevLogIndex] is below -1 and that passes the
    term test kills the process: the handler indexes the log at a negative
    position. *)
Theorem AppendEntries_negative_prevLogIndex (st : RaftNode)
    (args : AppendEntriesRequest) :
  mu st = false →
  append_term_rejects args st = false →
  PrevLogIndex args < -1 →
  AppendEntries args st = Panic.
Proof. apply AppendEntries_panics. Qed.

Lemma AppendEntries_negative_prevLogIndex_witness :
  AppendEntries (mkAppendEntriesRequest 0 nodeA (-2) 0 [] (-1)) follower_of_three
  = Panic.
Proof.
  apply (AppendEntries_negative_prevLogIndex follower_of_three
           (mkAppendEntriesRequest 0 nodeA (-2) 0 [] (-1)));
    [reflexivity|reflexivity|simpl; lia].
Defined.

Lemma index_take {A} (s : list A) (n : nat) i x :
  index s i = Some x → i < Z.of_nat n → index (take n s) i = Some x.
Proof.
  unfold index. destruct (Z.ltb_spec i 0); [discriminate|].
  intros Hx Hi. rewrite lookup_take_lt by lia. exact Hx.
Qed.

Lemma index_app_l {A} (s t : list A) i x :
  index s i = Some x → index (s ++ t) i = Some x.
Proof.
  unfold index. destruct (Z.ltb_spec i 0); [discriminate|].
  intros Hx. rewrite lookup_app_l; [exact Hx|].
  apply lookup_lt_Some in Hx. exact Hx.
Qed.

(** Once a request has been accepted it would be accepted again, with the
    same log and the same commit index. *)
Lemma accepted_again st args :
  spec_consistent args st →
  let st' := set_commitIndex (accepted_commitIndex args st)
               (set_log (accepted_log args st) st) in
  spec_consistent args st'
  ∧ accepted_log args st' = accepted_log args st
  ∧ accepted_commitIndex args st' = accepted_commitIndex args st.
Proof.
  intros Hcons st'.
  assert (Hlog : accepted_log args st' = accepted_log args st).
  { unfold accepted_log. simpl. unfold accepted_log.
    destruct (len (Entries args) =? 0); [reflexivity|].
    f_equal. apply take_app_length'.
    rewrite length_take. destruct Hcons as [->|[Hlt _]]; [reflexivity|].
    unfold len in Hlt. lia. }
  split; [|split; [exact Hlog|]].
  - destruct Hcons as [Hm|(Hlt & e & He & Ht)]; [left; exact Hm|].
    right. simpl.
    assert (He' : index (accepted_log args st) (PrevLogIndex args) = Some e).
    { unfold accepted_log. destruct (len (Entries args) =? 0); [exact He|].
      apply index_app_l, index_take; [exact He|].
      apply index_Some in He. lia. }
    split; [apply index_Some in He'; lia|eauto].
  - unfold accepted_commitIndex at 1. rewrite Hlog. simpl.
    unfold accepted_commitIndex.
    destruct (Z.gtb_spec (LeaderCommit args) (commitIndex st)) as [Hgt|Hle].
    + destruct (Z.gtb_spec (LeaderCommit args)
                  (Z.min (LeaderCommit args) (len (accepted_log args st) - 1)));
        lia.
    + destruct (Z.gtb_spec (LeaderCommit args) (commitIndex st)); [lia|].
      reflexivity.
Qed.

(** X9. An [AppendEntries] request delivered twice has the effect of one
    delivery: when the handler accepts a request and replies (nothing is
    left to apply), the same request run on the node it leaves is accepted
    again, with the same reply, and changes nothing. *)
Theorem AppendEntries_redelivery (st : RaftNode) (args : AppendEntriesRequest) :
  mu st = false →
  append_term_rejects args st = false →
  spec_consistent args st →
  accepted_commitIndex args st ≤ lastApplied st →
  ∃ reply st',
    AppendEntries args st = Done reply st'
    ∧ Success reply = true
    ∧ log st' = accepted_log args st
    ∧ AppendEntries args st' = Done reply st'.
Proof.
  intros Hmu Hterm Hcons Hquiet.
  destruct (accepted_again st args Hcons) as (Hcons' & Hlog' & Hci').
  set (st' := set_commitIndex (accepted_commitIndex args st)
                (set_log (accepted_log args st) st)) in *.
  assert (Hno : (accepted_commitIndex args st >? lastApplied st) = false).
  { rewrite Z.gtb_ltb. apply Z.ltb_ge. exact Hquiet. }
  exists (mkAppendEntriesResponse (currentTerm st) true), st'.
  split; [|split; [reflexivity|split; [reflexivity|]]].
  - rewrite (AppendEntries_accepted st args Hmu Hterm Hcons), Hno. reflexivity.
  - rewrite (AppendEntries_accepted st' args Hmu Hterm Hcons').
    rewrite Hlog', Hci'. simpl. rewrite Hno. reflexivity.
Qed.

Lemma AppendEntries_redelivery_witness :
  ∃ reply st',
    AppendEntries request_to_B follower_of_three = Done reply st'
    ∧ Success reply = true
    ∧ log st' = accepted_log request_to_B follower_of_three
    ∧ AppendEntries request_to_B st' = Done reply st'.
Proof.
  apply (AppendEntries_redelivery follower_of_three request_to_B).
  - reflexivity.
  - reflexivity.
  - right. split; [reflexivity|]. eexists. split; reflexivity.
  - vm_compute. discriminate.
Defined.

(** ** What no operation ever changes *)

Lemma untouched_lifelong st st' : untouched st st' → lifelong st st'.
Proof.
  unfold untouched, lifelong, keeps_vote.
  intros (_ & Ha & Hp & _ & Hc & Ht & Hv & Hl & _ & Hla & Hm).
  rewrite Ha, Hc, Ht, Hp, Hla, Hm, Hl, Hv. repeat split; auto. eauto.
Qed.

Lemma lifelong_refl st : lifelong st st.
Proof. apply untouched_lifelong, untouched_refl. Qed.

Lemma lifelong_trans st1 st2 st3 :
  lifelong st1 st2 → lifelong st2 st3 → lifelong st1 st3.
Proof.
  unfold lifelong, keeps_vote.
  intros (Ha & Hc & Ht & Hp & Hla & Hm & Hl & Hv)
         (Ha' & Hc' & Ht' & Hp' & Hla' & Hm' & Hl' & Hv').
  repeat split; try congruence; auto.
  intros v Hvote. destruct (Hv v Hvote) as (v2 & Hv2 & Hs2).
  destruct (Hv' v2 Hv2) as (v3 & Hv3 & Hs3). exists v3. split; congruence.
Qed.

Lemma accepted_log_nonempty args st :
  log st ≠ [] → accepted_log args st ≠ [].
Proof.
  unfold accepted_log. intros Hlog.
  destruct (Z.eqb_spec (len (Entries args)) 0) as [_|Hne]; [exact Hlog|].
  destruct (Entries args) as [|e es]; [unfold len in Hne; simpl in Hne; lia|].
  intros H. apply app_eq_nil in H as [_ H]. discriminate.
Qed.

(** The nodes [AppendEntries] can leave behind. *)
Lemma AppendEntries_after st args st1 :
  mu st = false → node_after (AppendEntries args st) = Some st1 →
  st1 = st
  ∨ st1 = set_commitIndex (accepted_commitIndex args st)
            (set_log (accepted_log args st) st)
  ∨ st1 = set_mu true
            (set_commitIndex (accepted_commitIndex args st)
               (set_log (accepted_log args st) st)).
Proof.
  intros Hmu Hstep.
  destruct (append_term_rejects args st) eqn:Hterm.
  { rewrite AppendEntries_term_rejected in Hstep by assumption.
    inversion Hstep; auto. }
  destruct (Z.lt_ge_cases (PrevLogIndex args) (-1)) as [Hlow|Hprev].
  { rewrite AppendEntries_panics in Hstep by assumption. discriminate. }
  destruct (consistency_check_spec args st Hprev) as (b & _ & Hb).
  destruct b.
  - assert (Hcons : spec_consistent args st) by (apply Hb; reflexivity).
    rewrite (AppendEntries_accepted _ _ Hmu Hterm Hcons) in Hstep.
    destruct (accepted_commitIndex args st >? lastApplied st);
      inversion Hstep; auto.
  - assert (Hcons : ¬ spec_consistent args st).
    { intros H. apply Hb in H. discriminate. }
    rewrite (AppendEntries_refused _ _ Hmu Hterm Hprev Hcons) in Hstep.
    inversion Hstep; auto.
Qed.

Lemma begin_election_untouched st :
  mu st = false →
  wp begin_election (λ _ st', untouched st st') (λ _, False) True st.
Proof.
  intros Hmu. unfold begin_election.
  apply wp_bind, wp_Lock; [intros _|congruence].
  apply wp_bind, wp_modify, wp_bind, wp_modify, wp_bind, wp_modify.
  apply wp_bind, wp_Unlock; [intros _|discriminate].
  apply wp_bind, wp_get.
  eapply wp_mono; [apply vote_requests_pure| |auto|auto].
  intros sent st' ->. unfold untouched. simpl. rewrite Hmu. tauto.
Qed.

Lemma startElection_untouched st votes :
  mu st = false →
  wp (startElection votes) (λ _ st', untouched st st') (λ _, False) True st.
Proof.
  intros Hmu. unfold startElection. apply wp_bind.
  eapply wp_mono; [apply begin_election_untouched, Hmu| |auto|auto].
  intros sent st1 H1. simpl. apply wp_bind.
  assert (Hmu1 : mu st1 = false) by (destruct H1 as [-> _]; exact Hmu).
  eapply wp_mono;
    [apply collect_votes_untouched, Hmu1| |auto|contradiction].
  intros k st2 H2. simpl. apply wp_ret.
  exact (untouched_trans _ _ _ H1 H2).
Qed.

(** One operation on a node that satisfies the invariant of the commit
    pipeline. *)
Lemma step_lifelong st op st' :
  Safe st → step op st = Some st' → lifelong st st'.
Proof.
  intros Hsafe Hstep. destruct (Safe_cases st Hsafe) as [Hheld|Hidle].
  { apply untouched_lifelong. exact (step_held _ _ _ Hheld Hstep). }
  pose proof Hidle as (Hmu & Hci & Hla). revert Hstep.
  destruct op; simpl.
  - rewrite RequestVote_run by exact Hmu.
    destruct (vote_term_rejects args st); [intros [= <-]; apply lifelong_refl|].
    destruct (vote_decision args st) eqn:Hdec;
      [|intros [= <-]; apply lifelong_refl].
    intros [= <-]. unfold lifelong, keeps_vote. simpl.
    repeat split; auto. intros v Hv.
    exists (CandidateId args). split; [reflexivity|].
    unfold vote_decision, votedFor_allows in Hdec. rewrite Hv in Hdec.
    apply andb_true_iff in Hdec as [Heq _].
    apply String.eqb_eq in Heq. congruence.
  - intros Hstep.
    destruct (AppendEntries_after _ _ _ Hmu Hstep) as [->|[->| ->]];
      [apply lifelong_refl| |];
      unfold lifelong, keeps_vote; simpl; repeat split; eauto;
      apply accepted_log_nonempty.
  - rewrite (ApplyMembership_run st args Hmu). simpl.
    destruct (existsb _ _); intros [= <-]; [apply lifelong_refl|].
    unfold lifelong, keeps_vote. simpl. repeat split; eauto.
  - intros Hstep.
    destruct (outcome_of_wp _ _ _ _ _ _
                (startElection_untouched st votes Hmu) Hstep) as [[_ H]|[]].
    apply untouched_lifelong, H.
  - intros Hstep.
    destruct (outcome_of_wp _ _ _ _ _ _
                (heartbeat_requests_pure (clusterAddrList st) st) Hstep)
      as [[_ ->]|[]]. apply lifelong_refl.
  - rewrite commit_nothing by (auto; lia). simpl.
    intros [= <-]. apply lifelong_refl.
  - destruct (nodeType st) eqn:Hrole.
    + intros Hstep.
      destruct (outcome_of_wp _ _ _ _ _ _
                  (Execute_leader_idle st args acks Hrole Hidle) Hstep)
        as [[_ [H _]]|[]].
      apply untouched_lifelong in H. eapply lifelong_trans; [|exact H].
      unfold lifelong, keeps_vote. simpl. repeat split; eauto.
      intros _ Hnil. apply app_eq_nil in Hnil as [_ Hnil]. discriminate.
    + unfold Execute. run. rewrite Hrole. simpl.
      intros [= <-]. apply lifelong_refl.
    + unfold Execute. run. rewrite Hrole. simpl.
      intros [= <-]. apply lifelong_refl.
  - intros Hstep.
    destruct (outcome_of_wp _ _ _ _ _ _
                (on_vote_response_untouched result voteCount st Hmu) Hstep)
      as [[_ H]|[]]. apply untouched_lifelong, H.
  - run. rewrite Hmu. simpl. intros [= <-].
    unfold lifelong, keeps_vote. simpl. repeat split; eauto.
    intros _ Hnil. apply app_eq_nil in Hnil as [_ Hnil]. discriminate.
  - intros Hstep.
    destruct (outcome_of_wp _ _ _ _ _ _
                (on_append_response_untouched addr request result st) Hstep)
      as [[_ H]|[]]. apply untouched_lifelong, H.
Qed.

Lemma steps_reachable st st' : reachable st → steps st st' → reachable st'.
Proof.
  intros Hreach Hsteps. induction Hsteps as [|st op st' st'' _ IH Hstep];
    [exact Hreach|].
  exact (reachable_step _ _ _ (IH Hreach) Hstep).
Qed.

Lemma steps_lifelong st st' : reachable st → steps st st' → lifelong st st'.
Proof.
  intros Hreach Hsteps. induction Hsteps as [|st op st' st'' Hs IH Hstep];
    [apply lifelong_refl|].
  eapply lifelong_trans; [exact (IH Hreach)|].
  apply (step_lifelong _ op); [|exact Hstep].
  apply reachable_Safe, (steps_reachable st); assumption.
Qed.

(** What holds of every node in use. *)
Lemma reachable_invariants st :
  reachable st →
  currentTerm st = 0 ∧ app st = KVStore.NewKVStore ∧ lastApplied st = -1
  ∧ log st ≠ [].
Proof.
  induction 1 as [addr contact replies st Hnew|st op st' Hreach IH Hstep].
  - destruct (NewRaftNode_fields _ _ _ _ Hnew) as (_ & _ & _ & Ht & Hp & _).
    destruct (NewRaftNode_done _ _ _ _ Hnew) as (Hlog & _ & Hla).
    rewrite Hlog. repeat split; auto; discriminate.
  - destruct IH as (Ht & Hp & Hla & Hlog).
    destruct (step_lifelong st op st' (reachable_Safe _ Hreach) Hstep)
      as (_ & _ & Ht' & Hp' & Hla' & _ & Hlog' & _).
    repeat split; try congruence. auto.
Qed.

(** The leader of three after it has appended a command is a state of a
    real node. *)
Lemma leader_appended_reachable : reachable leader_appended.
Proof.
  apply (reachable_step leader_of_three (OpAppendCommand "set x 1"));
    [|vm_compute; reflexivity].
  apply (reachable_step
           (set_clusterAddrList [nodeA; nodeB] leader_of_three)
           (OpApplyMembership nodeC)); [|vm_compute; reflexivity].
  apply (reachable_step leader_alone (OpApplyMembership nodeB));
    [|vm_compute; reflexivity].
  apply (reachable_new nodeA None []). vm_compute. reflexivity.
Defined.

(** X10. No operation ever applies a command: on every node in use the
    store is as [NewKVStore] made it and [lastApplied] is -1. *)
Theorem nothing_is_ever_applied (st : RaftNode) :
  reachable st →
  app st = KVStore.NewKVStore ∧ lastApplied st = -1.
Proof.
  intros Hreach.
  destruct (reachable_invariants st Hreach) as (_ & Hp & Hla & _). auto.
Qed.

Lemma nothing_is_ever_applied_witness :
  app leader_appended = KVStore.NewKVStore ∧ lastApplied leader_appended = -1.
Proof.
  apply (nothing_is_ever_applied leader_appended).
  exact leader_appended_reachable.
Defined.

(** X11. No operation ever writes [currentTerm]: on every node in use it
    is 0, so that [AppendEntries] rejects on term grounds exactly the
    requests with a negative term, and [RequestVote] exactly those with a
    positive term. *)
Theorem currentTerm_stays_zero (st : RaftNode) :
  reachable st →
  currentTerm st = 0
  ∧ (∀ args, append_term_rejects args st = (AReq_Term args <? 0))
  ∧ (∀ args, vote_term_rejects args st = (VReq_Term args >? 0)).
Proof.
  intros Hreach.
  destruct (reachable_invariants st Hreach) as (Ht & _).
  unfold append_term_rejects, vote_term_rejects. rewrite Ht. auto.
Qed.

Lemma currentTerm_stays_zero_witness :
  currentTerm leader_appended = 0
  ∧ (∀ args, append_term_rejects args leader_appended = (AReq_Term args <? 0))
  ∧ (∀ args, vote_term_rejects args leader_appended = (VReq_Term args >? 0)).
Proof.
  apply (currentTerm_stays_zero leader_appended).
  exact leader_appended_reachable.
Defined.

(** X12. The log of a node in use is never empty: truncation in
    [AppendEntries] is always followed by the appending of at least one
    entry.  The empty-log branches of [RequestVote] and of the leader's
    requests are never taken. *)
Theorem log_never_empty (st : RaftNode) :
  reachable st →
  1 ≤ len (log st) ∧ (len (log st) =? 0) = false.
Proof.
  intros Hreach.
  destruct (reachable_invariants st Hreach) as (_ & _ & _ & Hlog).
  assert (1 ≤ len (log st)).
  { unfold len. destruct (log st); [congruence|simpl; lia]. }
  split; [assumption|]. apply Z.eqb_neq. lia.
Qed.

Lemma log_never_empty_witness :
  1 ≤ len (log leader_appended) ∧ (len (log leader_appended) =? 0) = false.
Proof.
  apply (log_never_empty leader_appended).
  exact leader_appended_reachable.
Defined.

(** X13. A vote is for life: once a node in use has voted, whatever
    operations follow, [votedFor] is still set and still names the same
    address.  No operation clears [votedFor], and [RequestVote] grants only
    to the address already voted for. *)
Theorem vote_is_for_life (st st' : RaftNode) (v : Addr) :
  reachable st →
  steps st st' →
  votedFor st = Some v →
  ∃ v', votedFor st' = Some v' ∧ addr_str v' = addr_str v.
Proof.
  intros Hreach Hsteps.
  destruct (steps_lifelong st st' Hreach Hsteps) as (_ & _ & _ & _ & _ & _ & _ & Hv).
  apply Hv.
Qed.

Lemma vote_is_for_life_witness :
  ∃ v', votedFor (set_votedFor (Some nodeB) follower_of_three) = Some v'
        ∧ addr_str v' = addr_str nodeB.
Proof.
  apply (vote_is_for_life (set_votedFor (Some nodeB) follower_of_three)
           (set_votedFor (Some nodeB) follower_of_three) nodeB).
  - apply (reachable_step follower_of_three
             (OpRequestVote (mkRaftVoteRequest 0 nodeB 2 2)));
      [|vm_compute; reflexivity].
    apply (reachable_new nodeC (Some nodeA)
             [JoinSuccess [nodeA; nodeB; nodeC] (Some nodeA)]).
    vm_compute. reflexivity.
  - apply (steps_step _ (OpRequestVote (mkRaftVoteRequest 0 nodeA 2 2))
             (set_votedFor (Some nodeB) follower_of_three));
      [apply steps_refl|vm_compute; reflexivity].
  - reflexivity.
Defined.

(** X14. Identity and leader bookkeeping are fixed at construction:
    whatever operations a node in use goes through, its own address, its
    contact address and the whole of [matchIndex] stay as they were. *)
Theorem matchIndex_never_written (st st' : RaftNode) :
  reachable st →
  steps st st' →
  address st' = address st ∧ contactAddr st' = contactAddr st
  ∧ matchIndex st' = matchIndex st.
Proof.
  intros Hreach Hsteps.
  destruct (steps_lifelong st st' Hreach Hsteps)
    as (Ha & Hc & _ & _ & _ & Hm & _). auto.
Qed.

Lemma matchIndex_never_written_witness :
  address leader_appended = address leader_alone
  ∧ contactAddr leader_appended = contactAddr leader_alone
  ∧ matchIndex leader_appended = matchIndex leader_alone.
Proof.
  apply (matchIndex_never_written leader_alone leader_appended).
  - apply (reachable_new nodeA None []). vm_compute. reflexivity.
  - apply (steps_step _ (OpAppendCommand "set x 1") leader_of_three);
      [|vm_compute; reflexivity].
    apply (steps_step _ (OpApplyMembership nodeC)
             (set_clusterAddrList [nodeA; nodeB] leader_of_three));
      [|vm_compute; reflexivity].
    apply (steps_step _ (OpApplyMembership nodeB) leader_alone);
      [apply steps_refl|vm_compute; reflexivity].
Defined.

(** ** [leaderHeartbeat] *)

Lemma term_at_run l i st :
  i < len l →
  (if i <? 0 then mret 0 else e ← at_index l i; mret (Term e)) st
  = Done (term_at l i) st.
Proof.
  intros Hi. unfold term_at. destruct (Z.ltb_spec i 0); [reflexivity|].
  destruct (index_in_range l i) as [e He]; [lia|].
  run. rewrite He. reflexivity.
Qed.

Lemma heartbeat_requests_run addrs :
  ∀ st,
    len (log st) ≤ int_max →
    Forall (λ p, int_min < map_get (nextIndex st) p ≤ len (log st))
      (List.filter (λ a, negb (same_addr a (address st))) addrs) →
    heartbeat_requests addrs st
    = Done (map (λ p, (p, heartbeat_request st p))
              (List.filter (λ a, negb (same_addr a (address st))) addrs)) st.
Proof.
  induction addrs as [|addr rest IH]; intros st Hlen Hall; simpl;
    [reflexivity|].
  simpl in Hall. unfold mbind at 1, M_bind at 1. unfold get at 1.
  destruct (same_addr addr (address st)); simpl in *; [apply IH; assumption|].
  apply Forall_cons in Hall as [Hp Hrest].
  assert (Hwrap : int_wrap (map_get (nextIndex st) addr - 1)
                  = map_get (nextIndex st) addr - 1).
  { apply int_wrap_ok. unfold int_ok, int_min, int_max in *. lia. }
  rewrite Hwrap. unfold mbind at 1, M_bind at 1.
  rewrite term_at_run by lia.
  unfold mbind at 1, M_bind at 1. rewrite (IH st Hlen Hrest). reflexivity.
Qed.

(** X15. One tick of [leaderHeartbeat], when for every peer
    [nextIndex[p] - 1] is an index of the log or -1: the node is left as it
    was, and exactly the members with another address than the node's own
    are sent, in list order, a request with no entries that carries
    [currentTerm], [commitIndex], [prevLogIndex = nextIndex[p] - 1] and the
    term at that index (0 for -1). *)
Theorem leaderHeartbeat_requests (st : RaftNode) :
  len (log st) ≤ int_max →
  Forall (λ p, int_min < map_get (nextIndex st) p ≤ len (log st))
    (other_peers st) →
  leaderHeartbeat st
  = Done (map (λ p, (p, heartbeat_request st p)) (other_peers st)) st.
Proof.
  intros Hlen Hall. unfold leaderHeartbeat, other_peers in *.
  unfold mbind, M_bind, get. apply heartbeat_requests_run; assumption.
Qed.

Lemma leaderHeartbeat_requests_witness :
  leaderHeartbeat leader_of_three
  = Done (map (λ p, (p, heartbeat_request leader_of_three p))
            (other_peers leader_of_three)) leader_of_three.
Proof.
  apply (leaderHeartbeat_requests leader_of_three).
  - vm_compute. discriminate.
  - repeat constructor; vm_compute; congruence.
Defined.

(** ** A leader's requests at a follower *)

Lemma commit_not_raised args st :
  LeaderCommit args ≤ commitIndex st →
  accepted_commitIndex args st = commitIndex st.
Proof.
  intros Hle. unfold accepted_commitIndex.
  destruct (Z.gtb_spec (LeaderCommit args) (commitIndex st)); [lia|reflexivity].
Qed.

(** A request that does not raise the commit index, at a follower that has
    nothing left to apply: the reply is [success = true] and only the log
    changes. *)
Lemma AppendEntries_quiet st args :
  mu st = false → append_term_rejects args st = false →
  spec_consistent args st →
  LeaderCommit args ≤ commitIndex st → commitIndex st ≤ lastApplied st →
  AppendEntries args st
  = Done (mkAppendEntriesResponse (currentTerm st) true)
      (set_log (accepted_log args st) st).
Proof.
  intros Hmu Hterm Hcons Hlc Hla.
  rewrite (AppendEntries_accepted st args Hmu Hterm Hcons).
  rewrite (commit_not_raised _ _ Hlc).
  replace (commitIndex st >? lastApplied st) with false
    by (symmetry; rewrite Z.gtb_ltb; apply Z.ltb_ge; lia).
  f_equal.
Qed.

Lemma set_log_same st : set_log (log st) st = st.
Proof. node_eq st. Qed.

(** X16. A heartbeat is accepted by a follower that agrees with the leader
    at [prevLogIndex]: when the follower's term is not above the leader's,
    its log holds the leader's entry at [nextIndex[p] - 1] (or that index
    is -1), the leader's commit index is not above the follower's and the
    follower has nothing left to apply, the follower replies
    [success = true] and is left exactly as it was. *)
Theorem heartbeat_is_accepted (leader follower : RaftNode) (p : Addr) :
  mu follower = false →
  currentTerm follower ≤ currentTerm leader →
  (map_get (nextIndex leader) p - 1 = -1
   ∨ ∃ e, index (log leader) (map_get (nextIndex leader) p - 1) = Some e
          ∧ index (log follower) (map_get (nextIndex leader) p - 1) = Some e) →
  commitIndex leader ≤ commitIndex follower →
  commitIndex follower ≤ lastApplied follower →
  AppendEntries (heartbeat_request leader p) follower
  = Done (mkAppendEntriesResponse (currentTerm follower) true) follower.
Proof.
  intros Hmu Hterm Hagree Hci Hla.
  rewrite AppendEntries_quiet; try assumption.
  - unfold accepted_log. simpl. rewrite set_log_same. reflexivity.
  - unfold append_term_rejects. simpl. apply Z.ltb_ge. lia.
  - unfold spec_consistent. simpl.
    destruct Hagree as [Hm|(e & Hl & Hf)]; [left; exact Hm|right].
    split; [apply index_Some in Hf; lia|].
    exists e. split; [exact Hf|].
    unfold term_at. apply index_Some in Hl as Hrange.
    destruct (Z.ltb_spec (map_get (nextIndex leader) p - 1) 0); [lia|].
    rewrite Hl. reflexivity.
Qed.

Lemma heartbeat_is_accepted_witness :
  AppendEntries (heartbeat_request leader_of_three nodeC) follower_of_three
  = Done (mkAppendEntriesResponse 0 true) follower_of_three.
Proof.
  apply (heartbeat_is_accepted leader_of_three follower_of_three nodeC).
  - reflexivity.
  - simpl. lia.
  - left. reflexivity.
  - simpl. lia.
  - simpl. lia.
Defined.

(** ** [Execute]: the request a follower receives *)

(** [replication_request] is the request the loop of [Execute] hands to the
    goroutine of a peer. *)
Lemma fan_out_request acks addr rest st :
  same_addr addr (address st) = false → 1 ≤ len (log st) →
  fan_out acks (addr :: rest) st
  = (r ← replicate_to addr (replication_request st) (acks addr);
     rs ← fan_out acks rest;
     mret (match r with Some r => r :: rs | None => rs end)) st.
Proof.
  intros Hother Hlen. simpl.
  unfold mbind at 1, M_bind at 1. unfold get at 1. rewrite Hother.
  unfold mbind at 1, M_bind at 1. rewrite term_at_run by lia. reflexivity.
Qed.

Lemma len_snoc {A} (l : list A) x : len (l ++ [x]) = len l + 1.
Proof. unfold len. rewrite length_app. simpl. lia. Qed.

Lemma index_snoc_old {A} (l : list A) x i :
  i < len l → index (l ++ [x]) i = index l i.
Proof.
  unfold index, len. intros Hi. destruct (Z.ltb_spec i 0); [reflexivity|].
  apply lookup_app_l. lia.
Qed.

Lemma take_len {A} (l k : list A) : take (Z.to_nat (len l)) (l ++ k) = l.
Proof. apply take_app_length'. unfold len. lia. Qed.

Lemma drop_len {A} (l k : list A) : drop (Z.to_nat (len l)) (l ++ k) = k.
Proof. apply drop_app_length'. unfold len. lia. Qed.

(** X17. Replication of one command to a follower that is in step: when
    the leader's log is the follower's log followed by the new entry, the
    follower's term is not above the leader's, the leader's commit index is
    not above the follower's and the follower has nothing left to apply, the
    request [Execute] builds is accepted: the follower replies
    [success = true] and its log becomes the leader's; nothing else
    changes. *)
Theorem replication_reaches_follower_in_step (leader follower : RaftNode)
    (e : LogEntry) :
  log leader = log follower ++ [e] →
  mu follower = false →
  currentTerm follower ≤ currentTerm leader →
  commitIndex leader ≤ commitIndex follower →
  commitIndex follower ≤ lastApplied follower →
  AppendEntries (replication_request leader) follower
  = Done (mkAppendEntriesResponse (currentTerm follower) true)
      (set_log (log leader) follower).
Proof.
  intros Hlog Hmu Hterm Hci Hla.
  assert (Hprev : PrevLogIndex (replication_request leader) = len (log follower) - 1).
  { simpl. rewrite Hlog, len_snoc. lia. }
  assert (Hentries : Entries (replication_request leader) = [e]).
  { simpl. rewrite Hlog, len_snoc.
    replace (len (log follower) + 1 - 1) with (len (log follower)) by lia.
    apply drop_len. }
  rewrite AppendEntries_quiet; try assumption.
  - unfold accepted_log. rewrite Hentries, Hprev. simpl.
    replace (len (log follower) - 1 + 1) with (len (log follower)) by lia.
    rewrite <- (app_nil_r (log follower)) at 2. rewrite take_len, Hlog.
    reflexivity.
  - unfold append_term_rejects. simpl. apply Z.ltb_ge. lia.
  - unfold spec_consistent. rewrite Hprev.
    destruct (log follower) as [|x l] eqn:Hf; [left; reflexivity|right].
    rewrite <- Hf in *. split; [lia|].
    destruct (index_in_range (log follower) (len (log follower) - 1))
      as [e0 He0].
    { rewrite Hf. unfold len. simpl. lia. }
    exists e0. split; [exact He0|].
    simpl. rewrite Hlog, len_snoc.
    replace (len (log follower) + 1 - 2) with (len (log follower) - 1) by lia.
    unfold term_at. apply index_Some in He0 as Hrange.
    destruct (Z.ltb_spec (len (log follower) - 1) 0); [lia|].
    rewrite index_snoc_old by lia. rewrite He0. reflexivity.
Qed.

Lemma replication_reaches_follower_in_step_witness :
  AppendEntries (replication_request leader_appended) follower_of_three
  = Done (mkAppendEntriesResponse 0 true)
      (set_log (log leader_appended) follower_of_three).
Proof.
  apply (replication_reaches_follower_in_step leader_appended
           follower_of_three (mkLogEntry 0 "set x 1")).
  - reflexivity.
  - reflexivity.
  - simpl. lia.
  - simpl. lia.
  - simpl. lia.
Defined.

(** The retry after a failure reply. *)
Lemma on_append_response_failure p request t st :
  int_min < PrevLogIndex request ≤ int_max →
  PrevLogIndex request - 1 < len (log st) →
  on_append_response p request (mkAppendEntriesResponse t false) st
  = Done (Some (mkAppendEntriesRequest (AReq_Term request) (LeaderId request)
                  (PrevLogIndex request - 1)
                  (term_at (log st) (PrevLogIndex request - 1))
                  (Entries request) (LeaderCommit request)))
      (set_nextIndex
         (<[addr_ptr p := int_decr (map_get (nextIndex st) p)]> (nextIndex st))
         st).
Proof.
  intros Hprev Hlen. unfold on_append_response. run.
  rewrite (int_decr_small (PrevLogIndex request)) by lia.
  unfold term_at.
  destruct (Z.ltb_spec (PrevLogIndex request - 1) 0); [reflexivity|].
  destruct (index_in_range (log st) (PrevLogIndex request - 1)) as [e He];
    [lia|].
  rewrite He. reflexivity.
Qed.

(** X18. What the retry loop of [Execute] does for a follower that is one
    entry behind (the leader's log is the follower's log followed by an
    entry [e1] and the new entry [e2]): the follower refuses the first
    request, the leader's retry moves [prevLogIndex] one back but still
    carries only [e2], and the follower accepts it; its log becomes its old
    log followed by [e2], without [e1]. *)
Theorem retry_skips_the_missing_entry (leader follower : RaftNode) (p : Addr)
    (e1 e2 : LogEntry) (t : Z) :
  log leader = log follower ++ [e1; e2] →
  len (log leader) ≤ int_max →
  mu follower = false →
  currentTerm follower ≤ currentTerm leader →
  commitIndex leader ≤ commitIndex follower →
  commitIndex follower ≤ lastApplied follower →
  ∃ request' leader',
    AppendEntries (replication_request leader) follower
    = Done (mkAppendEntriesResponse (currentTerm follower) false) follower
    ∧ on_append_response p (replication_request leader)
        (mkAppendEntriesResponse t false) leader
      = Done (Some request') leader'
    ∧ AppendEntries request' follower
      = Done (mkAppendEntriesResponse (currentTerm follower) true)
          (set_log (log follower ++ [e2]) follower).
Proof.
  intros Hlog Hmax Hmu Hterm Hci Hla.
  pose proof (len_nonneg (log follower)) as Hnn.
  assert (Hlen : len (log leader) = len (log follower) + 2).
  { rewrite Hlog. unfold len. rewrite length_app. simpl. lia. }
  assert (Hprev : PrevLogIndex (replication_request leader) = len (log follower)).
  { simpl. lia. }
  assert (Hentries : Entries (replication_request leader) = [e2]).
  { simpl. rewrite Hlen.
    replace (len (log follower) + 2 - 1) with (len (log follower ++ [e1])).
    - rewrite Hlog.
      replace (log follower ++ [e1; e2]) with ((log follower ++ [e1]) ++ [e2])
        by (rewrite <- app_assoc; reflexivity).
      apply drop_len.
    - rewrite len_snoc. lia. }
  assert (Hpass : append_term_rejects (replication_request leader) follower = false).
  { unfold append_term_rejects. simpl. apply Z.ltb_ge. lia. }
  set (request' :=
         mkAppendEntriesRequest (currentTerm leader) (address leader)
           (len (log follower) - 1)
           (term_at (log leader) (len (log follower) - 1))
           [e2] (commitIndex leader)).
  exists request'. eexists. split; [|split].
  - apply AppendEntries_refused; try assumption; [lia|].
    unfold spec_consistent. rewrite Hprev. intros [?|[? _]]; lia.
  - rewrite on_append_response_failure by (unfold int_min in *; lia).
    rewrite Hprev, Hentries. reflexivity.
  - assert (Hpass' : append_term_rejects request' follower = false).
    { unfold append_term_rejects. simpl. apply Z.ltb_ge. lia. }
    assert (Hcons' : spec_consistent request' follower).
    { unfold spec_consistent. simpl.
      destruct (log follower) as [|x l] eqn:Hf; [left; reflexivity|right].
      rewrite <- Hf in *. split; [lia|].
      destruct (index_in_range (log follower) (len (log follower) - 1))
        as [e0 He0].
      { rewrite Hf. unfold len. simpl. lia. }
      exists e0. split; [exact He0|].
      unfold term_at. apply index_Some in He0 as Hrange.
      destruct (Z.ltb_spec (len (log follower) - 1) 0); [lia|].
      rewrite Hlog, (index_app_l _ _ _ _ He0). reflexivity. }
    rewrite (AppendEntries_quiet follower request' Hmu Hpass' Hcons' Hci Hla).
    unfold accepted_log. simpl.
    replace (len (log follower) - 1 + 1) with (len (log follower)) by lia.
    rewrite <- (app_nil_r (log follower)) at 2. rewrite take_len.
    reflexivity.
Qed.

Lemma retry_skips_the_missing_entry_witness :
  ∃ request' leader',
    AppendEntries (replication_request leader_appended)
      (set_log [mkLogEntry 0 "zero"; mkLogEntry 1 "one"] follower_of_three)
    = Done (mkAppendEntriesResponse 0 false)
        (set_log [mkLogEntry 0 "zero"; mkLogEntry 1 "one"] follower_of_three)
    ∧ on_append_response nodeC (replication_request leader_appended)
        (mkAppendEntriesResponse 0 false) leader_appended
      = Done (Some request') leader'
    ∧ AppendEntries request'
        (set_log [mkLogEntry 0 "zero"; mkLogEntry 1 "one"] follower_of_three)
      = Done (mkAppendEntriesResponse 0 true)
          (set_log ([mkLogEntry 0 "zero"; mkLogEntry 1 "one"]
                    ++ [mkLogEntry 0 "set x 1"])
             (set_log [mkLogEntry 0 "zero"; mkLogEntry 1 "one"]
                follower_of_three)).
Proof.
  apply (retry_skips_the_missing_entry leader_appended
           (set_log [mkLogEntry 0 "zero"; mkLogEntry 1 "one"] follower_of_three)
           nodeC (mkLogEntry 2 "two") (mkLogEntry 0 "set x 1") 0).
  - reflexivity.
  - vm_compute. discriminate.
  - reflexivity.
  - simpl. lia.
  - simpl. lia.
  - simpl. lia.
Defined.

(** ** [Execute] on a leader in use, under every schedule *)

Lemma spawn_run addrs :
  ∀ st,
    1 ≤ len (log st) →
    spawn addrs st
    = Done (map (λ a, (a, Some (replication_request st)))
              (List.filter (λ a, negb (same_addr a (address st))) addrs))
        st.
Proof.
  induction addrs as [|addr rest IH]; intros st Hlen; [reflexivity|].
  simpl. unfold mbind at 1, M_bind at 1. unfold get at 1.
  destruct (same_addr addr (address st)) eqn:Hself; simpl.
  - apply IH. exact Hlen.
  - unfold mbind at 1, M_bind at 1. rewrite term_at_run by lia.
    unfold mbind at 1, M_bind at 1. rewrite IH by exact Hlen. reflexivity.
Qed.

(** A goroutine of [Execute] writes [nextIndex] and nothing else, and never
    waits for the mutex. *)
Lemma on_append_response_nextIndex addr request result st :
  wp (on_append_response addr request result)
     (λ _ st', ∃ m, st' = set_nextIndex m st) (λ _, False) True st.
Proof.
  unfold on_append_response.
  destruct (Success result).
  - apply wp_bind, wp_modify, wp_ret. eexists. reflexivity.
  - apply wp_bind, wp_modify, wp_bind, wp_get, wp_bind.
    destruct (int_decr (PrevLogIndex request) <? 0).
    + apply wp_ret, wp_ret. eexists. reflexivity.
    + apply wp_bind, wp_at_index; [|auto]. intros e _.
      apply wp_ret, wp_ret. eexists. reflexivity.
Qed.

Lemma call_step_ok st1 e c c' :
  Idle st1 → call_ok st1 c → call_step e c = Some c' → call_ok st1 c'.
Proof.
  intros Hidle [[m Hnode] Hmain] Hstep.
  destruct e as [i response|i j| |]; simpl in Hstep.
  - unfold answer in Hstep.
    destruct (call_senders c !! i) as [[addr [request|]]|];
      [|inversion Hstep; subst; split; eauto
       |inversion Hstep; subst; split; eauto].
    destruct response as [result|];
      [|inversion Hstep; subst; split; simpl; eauto].
    pose proof (on_append_response_nextIndex addr request result (call_node c))
      as Hwp.
    unfold wp in Hwp.
    destruct (on_append_response addr request result (call_node c))
      as [next st'|st'|]; [|contradiction|discriminate].
    destruct Hwp as [m' ->]. inversion Hstep; subst; simpl.
    split; [|exact Hmain]. rewrite Hnode. eexists. reflexivity.
  - unfold overlap in Hstep.
    destruct (call_senders c !! i) as [[? [?|]]|];
      destruct (call_senders c !! j) as [[? [?|]]|];
      try destruct (decide (i = j));
      try discriminate; inversion Hstep; subst; split; eauto.
  - unfold receive in Hstep.
    destruct (call_main c) as [n| |reply] eqn:Hloop;
      [|inversion Hstep; subst; split; [eauto|rewrite Hloop; exact Hmain]
       |inversion Hstep; subst; split; [eauto|rewrite Hloop; exact Hmain]].
    destruct (call_responses c) as [|response rest];
      [inversion Hstep; subst; split; [eauto|rewrite Hloop; exact I]|].
    destruct (Success response);
      [|inversion Hstep; subst; split; simpl; eauto].
    destruct (int_incr n >? len (clusterAddrList (call_node c)) `quot` 2);
      [|inversion Hstep; subst; split; simpl; eauto].
    destruct Hidle as (Hmu & Hci & Hla).
    rewrite commit_nothing in Hstep
      by (rewrite Hnode; simpl; first [exact Hmu|lia]).
    inversion Hstep; subst. split; simpl; eauto.
  - unfold close in Hstep.
    destruct (call_main c) as [n| |reply] eqn:Hloop;
      [|inversion Hstep; subst; split; [eauto|rewrite Hloop; exact Hmain]
       |inversion Hstep; subst; split; [eauto|rewrite Hloop; exact Hmain]].
    destruct (call_responses c) as [|response rest];
      [|inversion Hstep; subst; split; [eauto|rewrite Hloop; exact I]].
    destruct (forallb (λ s, negb (running s)) (call_senders c));
      inversion Hstep; subst; split; simpl; eauto.
    rewrite Hloop. exact I.
Qed.

Lemma run_schedule_ok st1 sched :
  ∀ c c', Idle st1 → call_ok st1 c → run_schedule sched c = Some c' →
          call_ok st1 c'.
Proof.
  induction sched as [|e rest IH]; intros c c' Hidle Hok Hrun; simpl in Hrun.
  - inversion Hrun; subst. exact Hok.
  - destruct (call_step e c) as [c1|] eqn:Hstep; [|discriminate].
    apply (IH c1); [exact Hidle| |exact Hrun].
    exact (call_step_ok _ _ _ _ Hidle Hok Hstep).
Qed.

Lemma set_nextIndex_same st : set_nextIndex (nextIndex st) st = st.
Proof. node_eq st. Qed.

(** The start of a call on a leader at rest: the command is appended and
    one goroutine per peer holds the request for the new entry. *)
Lemma Execute_run_start st args sched :
  nodeType st = LEADER → mu st = false →
  let st1 := set_log (log st ++ [mkLogEntry (currentTerm st) args]) st in
  Execute_run args sched st
  = run_schedule sched
      (mkCall st1
         (map (λ a, (a, Some (replication_request st1))) (other_peers st1))
         [] (Receiving 0)).
Proof.
  intros Hrole Hmu st1. unfold Execute_run. rewrite Hrole. simpl.
  unfold append_command.
  unfold mbind at 1, M_bind at 1. unfold mbind at 1, M_bind at 1.
  unfold Lock. rewrite Hmu.
  unfold mbind at 1, M_bind at 1. unfold modify at 1.
  unfold Unlock. simpl mu. cbv iota.
  unfold mbind at 1, M_bind at 1. unfold get at 1.
  assert (Heq :
    set_mu false
      (set_log (log (set_mu true st)
                ++ [mkLogEntry (currentTerm (set_mu true st)) args])
         (set_mu true st)) = st1)
    by (unfold st1; node_eq st).
  rewrite Heq. rewrite spawn_run; [reflexivity|].
  unfold st1. simpl. rewrite len_snoc. pose proof (len_nonneg (log st)). lia.
Qed.

Lemma Execute_run_ok st args sched c :
  nodeType st = LEADER → Idle st →
  Execute_run args sched st = Some c →
  call_ok (set_log (log st ++ [mkLogEntry (currentTerm st) args]) st) c.
Proof.
  intros Hrole Hidle Hrun. pose proof Hidle as (Hmu & Hci & Hla).
  rewrite Execute_run_start in Hrun by assumption.
  eapply run_schedule_ok; [| |exact Hrun].
  - unfold Idle. simpl. auto.
  - split; simpl; [|exact I]. eexists. symmetry. apply set_nextIndex_same.
Qed.

Lemma run_schedule_app s1 s2 c :
  run_schedule (s1 ++ s2) c
  = match run_schedule s1 c with
    | Some c' => run_schedule s2 c'
    | None => None
    end.
Proof.
  revert c. induction s1 as [|e s1 IH]; intros c; simpl; [reflexivity|].
  destruct (call_step e c); [apply IH|reflexivity].
Qed.

(** A goroutine that has ended ignores what arrives. *)
Lemma answers_after_the_end i addr replies c :
  call_senders c !! i = Some (addr, None) →
  run_schedule (map (Answer i) replies) c = Some c.
Proof.
  intros Hended. induction replies as [|r rest IH]; simpl; [reflexivity|].
  unfold answer. rewrite Hended. exact IH.
Qed.

(** The goroutine of a peer run from start to end, as [replicate_to] has
    it, is its turn in the schedule. *)
Lemma goroutine_turn i addr replies :
  ∀ request st senders ch ml r st',
    senders !! i = Some (addr, Some request) →
    replicate_to addr request replies st = Done r st' →
    run_schedule (map (Answer i) replies ++ [Answer i None])
      (mkCall st senders ch ml)
    = Some (mkCall st' (<[i := (addr, None)]> senders)
              (ch ++ match r with Some x => [x] | None => [] end) ml).
Proof.
  induction replies as [|[result|] rest IH];
    intros request st senders ch ml r st' Hi Hrun.
  - inversion Hrun; subst. simpl. unfold answer. simpl. rewrite Hi.
    rewrite app_nil_r. reflexivity.
  - simpl in Hrun. unfold mbind, M_bind in Hrun.
    change (map (Answer i) (Some result :: rest) ++ [Answer i None])
      with (Answer i (Some result) :: (map (Answer i) rest ++ [Answer i None])).
    cbn [run_schedule call_step]. unfold answer at 1. cbn [call_senders call_node].
    rewrite Hi.
    destruct (on_append_response addr request result st) as [[request'|] st1|st1|];
      [| |discriminate|discriminate].
    + erewrite (IH request' st1); [|apply list_lookup_insert_eq; eapply lookup_lt_Some; exact Hi|exact Hrun].
      rewrite list_insert_insert_eq. reflexivity.
    + inversion Hrun; subst.
      change (map (Answer i) rest ++ [Answer i None])
        with (map (Answer i) rest ++ map (Answer i) [None]).
      rewrite <- map_app.
      rewrite (answers_after_the_end i addr); [reflexivity|].
      simpl. apply list_lookup_insert_eq. eapply lookup_lt_Some; exact Hi.
  - inversion Hrun; subst.
    change (map (Answer i) (None :: rest) ++ [Answer i None])
      with (Answer i None :: (map (Answer i) rest ++ map (Answer i) [None])).
    rewrite <- map_app.
    cbn [run_schedule call_step]. unfold answer at 1. cbn [call_senders call_node].
    rewrite Hi.
    rewrite (answers_after_the_end i addr);
      [rewrite app_nil_r; reflexivity|].
    simpl. apply list_lookup_insert_eq. eapply lookup_lt_Some; exact Hi.
Qed.

Lemma replication_request_untouched st st' :
  untouched st st' → replication_request st' = replication_request st.
Proof.
  intros (_ & Ha & _ & _ & _ & Ht & _ & Hl & Hc & _).
  unfold replication_request. rewrite Ha, Ht, Hl, Hc. reflexivity.
Qed.

(** So is the whole of [fan_out]. *)
Lemma fan_out_turns acks addrs :
  ∀ pre st ch ml rs st',
    1 ≤ len (log st) →
    fan_out acks addrs st = Done rs st' →
    run_schedule
      (turns (length pre) acks
         (List.filter (λ a, negb (same_addr a (address st))) addrs))
      (mkCall st
         (pre ++ map (λ a, (a, Some (replication_request st)))
                   (List.filter (λ a, negb (same_addr a (address st))) addrs))
         ch ml)
    = Some (mkCall st'
              (pre ++ map (λ a, (a, None))
                        (List.filter (λ a, negb (same_addr a (address st))) addrs))
              (ch ++ rs) ml).
Proof.
  induction addrs as [|addr rest IH]; intros pre st ch ml rs st' Hlen Hrun.
  - inversion Hrun; subst. simpl. rewrite !app_nil_r. reflexivity.
  - destruct (same_addr addr (address st)) eqn:Hself.
    + simpl in Hrun. unfold mbind at 1, M_bind at 1 in Hrun.
      unfold get at 1 in Hrun. rewrite Hself in Hrun.
      simpl. rewrite Hself. simpl. apply IH; assumption.
    + rewrite fan_out_request in Hrun by assumption.
      unfold mbind at 1, M_bind at 1 in Hrun.
      pose proof (replicate_to_untouched addr (acks addr)
                    (replication_request st) st) as Hkeep.
      unfold wp in Hkeep.
      destruct (replicate_to addr (replication_request st) (acks addr) st)
        as [r st1|st1|] eqn:Hturn; [|discriminate|discriminate].
      unfold mbind at 1, M_bind at 1 in Hrun.
      destruct (fan_out acks rest st1) as [rs2 st2|st2|] eqn:Hrest;
        [|discriminate|discriminate].
      inversion Hrun; subst. clear Hrun.
      simpl. rewrite Hself. simpl.
      match goal with
      | |- run_schedule (?a ++ ?x :: ?b) _ = _ =>
          replace (a ++ x :: b) with ((a ++ [x]) ++ b)
            by (rewrite <- app_assoc; reflexivity)
      end.
      rewrite run_schedule_app.
      erewrite goroutine_turn;
        [|apply list_lookup_middle; reflexivity|exact Hturn].
      assert (Haddr : address st1 = address st) by apply Hkeep.
      assert (Hlog : log st1 = log st) by apply Hkeep.
      specialize (IH (pre ++ [(addr, None)]) st1
                    (ch ++ match r with Some x => [x] | None => [] end)
                    ml rs2 st').
      rewrite Haddr, (replication_request_untouched _ _ Hkeep) in IH.
      rewrite length_app in IH. simpl in IH.
      replace (length pre + 1)%nat with (S (length pre)) in IH by lia.
      rewrite <- !app_assoc in IH. simpl in IH.
      rewrite insert_app_r_alt by lia. rewrite Nat.sub_diag. simpl.
      rewrite IH; [|rewrite Hlog; exact Hlen|exact Hrest].
      destruct r; simpl; rewrite <- ?app_assoc; reflexivity.
Qed.

Lemma fan_out_length acks addrs :
  ∀ st rs st',
    fan_out acks addrs st = Done rs st' →
    (length rs
     ≤ length (List.filter (λ a, negb (same_addr a (address st))) addrs))%nat.
Proof.
  induction addrs as [|addr rest IH]; intros st rs st' Hrun.
  - inversion Hrun; subst. simpl. lia.
  - simpl in Hrun. unfold mbind at 1, M_bind at 1 in Hrun.
    unfold get at 1 in Hrun. simpl.
    destruct (same_addr addr (address st)) eqn:Hself; simpl.
    + eapply IH; exact Hrun.
    + unfold mbind at 1, M_bind at 1 in Hrun.
      destruct ((if len (log st) - 2 <? 0 then mret 0
                 else at_index (log st) (len (log st) - 2) ≫= λ e, mret (Term e)) st)
        as [t st0|st0|] eqn:Hterm; [|discriminate|discriminate].
      assert (st0 = st) as ->.
      { destruct (len (log st) - 2 <? 0); [inversion Hterm; reflexivity|].
        revert Hterm. run. destruct (index (log st) (len (log st) - 2));
          [intros [= _ <-]; reflexivity|discriminate]. }
      unfold mbind at 1, M_bind at 1 in Hrun.
      pose proof (replicate_to_untouched addr (acks addr)
        (mkAppendEntriesRequest (currentTerm st) (address st)
           (len (log st) - 2) t
           (drop (Z.to_nat (len (log st) - 1)) (log st)) (commitIndex st)) st)
        as Hkeep.
      unfold wp in Hkeep.
      match type of Hrun with
      | match ?m with _ => _ end = _ =>
          destruct m as [r st1|st1|]; [|discriminate|discriminate]
      end.
      unfold mbind at 1, M_bind at 1 in Hrun.
      destruct (fan_out acks rest st1) as [rs2 st2|st2|] eqn:Hrest;
        [|discriminate|discriminate].
      apply IH in Hrest.
      assert (Haddr : address st1 = address st) by apply Hkeep.
      rewrite Haddr in Hrest.
      inversion Hrun; subst. destruct r; simpl; lia.
Qed.

Lemma close_after_receives k st senders n :
  forallb (λ s, negb (running s)) senders = true →
  run_schedule (repeat Receive k ++ [Close])
    (mkCall st senders [] (Receiving n))
  = Some (mkCall st senders [] (Returned ReplyNone)).
Proof.
  intros Hended. induction k as [|k IH]; simpl.
  - unfold close. simpl. rewrite Hended. reflexivity.
  - exact IH.
Qed.

Lemma events_after_return k st senders ch reply :
  run_schedule (repeat Receive k ++ [Close])
    (mkCall st senders ch (Returned reply))
  = Some (mkCall st senders ch (Returned reply)).
Proof. induction k as [|k IH]; simpl; [reflexivity|exact IH]. Qed.

(** The loop [tally] over the content of the channel is the main loop
    receiving it, response by response. *)
Lemma tally_receives rs :
  ∀ k n st senders reply st',
    (length rs ≤ k)%nat →
    forallb (λ s, negb (running s)) senders = true →
    tally rs n st = Done reply st' →
    ∃ ch,
      run_schedule (repeat Receive k ++ [Close])
        (mkCall st senders rs (Receiving n))
      = Some (mkCall st' senders ch (Returned reply)).
Proof.
  induction rs as [|response rest IH];
    intros k n st senders reply st' Hk Hended Hrun.
  - inversion Hrun; subst. exists []. apply close_after_receives, Hended.
  - destruct k as [|k]; [simpl in Hk; lia|]. simpl in Hk.
    simpl in Hrun.
    change (repeat Receive (S k) ++ [Close])
      with (Receive :: (repeat Receive k ++ [Close])).
    cbn [run_schedule call_step].
    unfold receive. cbn [call_main call_responses call_node call_senders].
    destruct (Success response); [|apply IH; [lia|exact Hended|exact Hrun]].
    unfold mbind at 1, M_bind at 1 in Hrun. unfold get at 1 in Hrun.
    destruct (int_incr n >? len (clusterAddrList st) `quot` 2);
      [|apply IH; [lia|exact Hended|exact Hrun]].
    unfold mbind at 1, M_bind at 1 in Hrun.
    destruct (commit st) as [[res ok] st1|st1|]; [|discriminate|discriminate].
    inversion Hrun; subst. exists rest. apply events_after_return.
Qed.

Lemma ended_senders (peers : list Addr) :
  forallb (λ s, negb (running s))
    (map (λ a, (a, @None AppendEntriesRequest)) peers) = true.
Proof. induction peers as [|a rest IH]; [reflexivity|exact IH]. Qed.

(** The function [Execute] is one run of [Execute_run]: what it returns,
    and the node it leaves, are what the call comes to under the schedule in
    which the goroutines take their turns. *)
Lemma Execute_is_a_run st args acks reply st' :
  nodeType st = LEADER → mu st = false →
  Execute args acks st = Done reply st' →
  ∃ c, Execute_run args (in_turn acks (other_peers st)) st = Some c
       ∧ call_node c = st' ∧ call_main c = Returned reply.
Proof.
  intros Hrole Hmu Hrun.
  rewrite Execute_run_start by assumption.
  set (st1 := set_log (log st ++ [mkLogEntry (currentTerm st) args]) st).
  assert (Hlen : 1 ≤ len (log st1)).
  { unfold st1. simpl. rewrite len_snoc. pose proof (len_nonneg (log st)). lia. }
  assert (Hseq : (responses ← fan_out acks (clusterAddrList st1); tally responses 0) st1
                 = Done reply st').
  { revert Hrun. unfold Execute, append_command.
    unfold mbind at 1, M_bind at 1. unfold get at 1. rewrite Hrole.
    change (negb (NodeType_eqb LEADER LEADER)) with false. cbv beta iota.
    unfold mbind at 1, M_bind at 1. unfold mbind at 1, M_bind at 1.
    unfold Lock. rewrite Hmu.
    unfold mbind at 1, M_bind at 1. unfold modify at 1.
    unfold Unlock. simpl mu. cbv iota.
    unfold mbind at 1, M_bind at 1. unfold get at 1.
    assert (Heq :
      set_mu false
        (set_log (log (set_mu true st)
                  ++ [mkLogEntry (currentTerm (set_mu true st)) args])
           (set_mu true st)) = st1)
      by (unfold st1; node_eq st).
    rewrite Heq. auto. }
  unfold mbind, M_bind in Hseq.
  destruct (fan_out acks (clusterAddrList st1) st1) as [rs st2|st2|] eqn:Hfan;
    [|discriminate|discriminate].
  pose proof (fan_out_length _ _ _ _ _ Hfan) as Hcount.
  pose proof (fan_out_turns acks (clusterAddrList st1) [] st1 [] (Receiving 0)
                rs st2 Hlen Hfan) as Hturns.
  simpl in Hturns.
  destruct (tally_receives rs
              (length (other_peers st1)) 0 st2
              (map (λ a, (a, None)) (other_peers st1)) reply st')
    as [ch Htally]; [exact Hcount|apply ended_senders|exact Hseq|].
  eexists. split.
  - unfold in_turn. rewrite run_schedule_app.
    change (other_peers st) with (other_peers st1).
    unfold other_peers at 1 2. simpl address. simpl clusterAddrList.
    rewrite Hturns. exact Htally.
  - split; reflexivity.
Qed.

(** Building the requests changes nothing. *)
Lemma spawn_pure addrs :
  ∀ st, wp (spawn addrs) (λ _ st', st' = st) (λ _, False) True st.
Proof.
  induction addrs as [|addr rest IH]; intros st; simpl.
  - apply wp_ret. reflexivity.
  - apply wp_bind, wp_get.
    destruct (same_addr addr (address st)); [apply IH|].
    apply wp_bind.
    destruct (len (log st) - 2 <? 0).
    + apply wp_ret, wp_bind.
      eapply wp_mono; [apply IH| |auto|auto].
      intros senders st' ->. apply wp_ret. reflexivity.
    + apply wp_bind, wp_at_index; [|auto]. intros e _.
      apply wp_ret, wp_bind.
      eapply wp_mono; [apply IH| |auto|auto].
      intros senders st' ->. apply wp_ret. reflexivity.
Qed.

Lemma call_step_reachable e c c' :
  reachable (call_node c) → call_step e c = Some c' →
  reachable (call_node c').
Proof.
  intros Hreach Hstep. destruct e as [i response|i j| |]; simpl in Hstep.
  - unfold answer in Hstep.
    destruct (call_senders c !! i) as [[addr [request|]]|];
      [|inversion Hstep; subst; exact Hreach
       |inversion Hstep; subst; exact Hreach].
    destruct response as [result|];
      [|inversion Hstep; subst; exact Hreach].
    destruct (on_append_response addr request result (call_node c))
      as [next st'|st'|] eqn:Hrun; [| |discriminate].
    + inversion Hstep; subst. simpl.
      apply (reachable_step (call_node c) (OpAppendResponse addr request result));
        [exact Hreach|]. simpl. rewrite Hrun. reflexivity.
    + inversion Hstep; subst. simpl.
      apply (reachable_step (call_node c) (OpAppendResponse addr request result));
        [exact Hreach|]. simpl. rewrite Hrun. reflexivity.
  - unfold overlap in Hstep.
    destruct (call_senders c !! i) as [[? [?|]]|];
      destruct (call_senders c !! j) as [[? [?|]]|];
      try destruct (decide (i = j));
      try discriminate; inversion Hstep; subst; exact Hreach.
  - unfold receive in Hstep.
    destruct (call_main c) as [n| |reply];
      [|inversion Hstep; subst; exact Hreach
       |inversion Hstep; subst; exact Hreach].
    destruct (call_responses c) as [|response rest];
      [inversion Hstep; subst; exact Hreach|].
    destruct (Success response);
      [|inversion Hstep; subst; exact Hreach].
    destruct (int_incr n >? len (clusterAddrList (call_node c)) `quot` 2);
      [|inversion Hstep; subst; exact Hreach].
    destruct (commit (call_node c)) as [[res ok] st'|st'|] eqn:Hrun;
      [| |discriminate].
    + inversion Hstep; subst. simpl.
      apply (reachable_step (call_node c) OpCommit); [exact Hreach|].
      simpl. rewrite Hrun. reflexivity.
    + inversion Hstep; subst. simpl.
      apply (reachable_step (call_node c) OpCommit); [exact Hreach|].
      simpl. rewrite Hrun. reflexivity.
  - unfold close in Hstep.
    destruct (call_main c) as [n| |reply];
      [|inversion Hstep; subst; exact Hreach
       |inversion Hstep; subst; exact Hreach].
    destruct (call_responses c) as [|response rest];
      [|inversion Hstep; subst; exact Hreach].
    destruct (forallb (λ s, negb (running s)) (call_senders c));
      inversion Hstep; subst; exact Hreach.
Qed.

Lemma run_schedule_reachable sched :
  ∀ c c', reachable (call_node c) → run_schedule sched c = Some c' →
          reachable (call_node c').
Proof.
  induction sched as [|e rest IH]; intros c c' Hreach Hrun; simpl in Hrun.
  - inversion Hrun; subst. exact Hreach.
  - destruct (call_step e c) as [c1|] eqn:Hstep; [|discriminate].
    apply (IH c1); [|exact Hrun].
    exact (call_step_reachable _ _ _ Hreach Hstep).
Qed.

(** The node of a call under way is a node in use: the steps of the
    goroutines and of the main loop are operations of the node.  What holds
    of every node in use holds at every moment of a call of [Execute],
    however it is scheduled. *)
Lemma Execute_run_reachable st args sched c :
  reachable st → Execute_run args sched st = Some c →
  reachable (call_node c).
Proof.
  intros Hreach Hrun. unfold Execute_run in Hrun.
  destruct (negb (NodeType_eqb (nodeType st) LEADER));
    [inversion Hrun; subst; exact Hreach|].
  unfold mbind at 1, M_bind at 1 in Hrun.
  destruct (append_command args st) as [[] st1|st1|] eqn:Happend;
    [| |discriminate].
  - assert (Hreach1 : reachable st1).
    { apply (reachable_step st (OpAppendCommand args)); [exact Hreach|].
      simpl. rewrite Happend. reflexivity. }
    unfold mbind at 1, M_bind at 1 in Hrun. unfold get at 1 in Hrun.
    pose proof (spawn_pure (clusterAddrList st1) st1) as Hpure.
    unfold wp in Hpure.
    destruct (spawn (clusterAddrList st1) st1) as [senders st2|st2|];
      [|contradiction|discriminate].
    subst st2. eapply run_schedule_reachable; [|exact Hrun]. exact Hreach1.
  - inversion Hrun; subst. simpl.
    apply (reachable_step st (OpAppendCommand args)); [exact Hreach|].
    simpl. rewrite Happend. reflexivity.
Qed.

(** In a cluster of three the goroutines for the two peers can write
    [nextIndex] at the same time, which ends the process; and a call whose
    peers never answer stays in its main loop. *)
Lemma Execute_run_examples :
  Execute_run "set x 1" [Overlap 0 1] leader_of_three = None
  ∧ ∃ c, Execute_run "set x 1" [Receive; Close; Receive] leader_of_three = Some c
         ∧ call_main c = Receiving 0.
Proof.
  split; [reflexivity|]. eexists. split; [vm_compute; reflexivity|reflexivity].
Qed.

(** X19. [Execute] on a leader in use whose mutex is free, however its
    goroutines are scheduled and whatever the peers answer or fail to
    answer.  As long as the process lives, the command stands in the log as
    one new entry with [term = currentTerm]; apart from the log only
    [nextIndex] has been written, so the entry is neither committed nor
    applied; the main loop never waits for the mutex; and once [Execute] has
    returned, its reply is either missing or carries the empty result with
    [ok = false]. *)
Theorem Execute_under_every_schedule (st : RaftNode) (args : string)
    (sched : list Event) (c : Call) :
  reachable st →
  mu st = false →
  nodeType st = LEADER →
  Execute_run args sched st = Some c →
  (∃ m, call_node c
        = set_nextIndex m
            (set_log (log st ++ [mkLogEntry (currentTerm st) args]) st))
  ∧ call_main c ≠ Blocked
  ∧ ∀ reply, call_main c = Returned reply →
             reply = ReplyNone ∨ reply = ReplyResult "" false.
Proof.
  intros Hreach Hmu Hrole Hrun.
  destruct (reachable_Safe st Hreach) as (Hla & _ & Hci).
  destruct (Execute_run_ok st args sched c Hrole) as [Hnode Hmain];
    [unfold Idle; auto|exact Hrun|].
  split; [exact Hnode|].
  destruct (call_main c) as [n| |r]; [| |].
  - split; [discriminate|]. intros reply [=].
  - contradiction.
  - split; [discriminate|]. intros reply [= <-]. exact Hmain.
Qed.

Lemma Execute_under_every_schedule_witness :
  ∃ c,
    Execute_run "set x 1"
      [Answer 0 (ack false); Answer 1 (ack true); Receive;
       Answer 0 (ack true); Receive]
      leader_of_three = Some c
    ∧ call_main c = Returned (ReplyResult "" false)
    ∧ (∃ m, call_node c
            = set_nextIndex m
                (set_log (log leader_of_three
                          ++ [mkLogEntry (currentTerm leader_of_three) "set x 1"])
                   leader_of_three))
    ∧ call_main c ≠ Blocked
    ∧ ∀ reply, call_main c = Returned reply →
               reply = ReplyNone ∨ reply = ReplyResult "" false.
Proof.
  eexists. split; [vm_compute; reflexivity|]. split; [reflexivity|].
  apply (Execute_under_every_schedule leader_of_three "set x 1"
           [Answer 0 (ack false); Answer 1 (ack true); Receive;
            Answer 0 (ack true); Receive]).
  - exact leader_of_three_reachable.
  - reflexivity.
  - reflexivity.
  - vm_compute. reflexivity.
Defined.

(** X20. A command given to [Execute] shows in [RequestLog] at once.  At
    every moment of a call of [Execute] on a leader in use (mutex free),
    however the goroutines are scheduled and whatever the peers answer,
    before the first answer as well as after [Execute] has returned,
    [RequestLog] returns the old log followed by one entry holding the
    command and [currentTerm], and leaves the node as it is; the entry
    shows although nothing has committed it. *)
Theorem RequestLog_during_Execute (st : RaftNode) (args logArgs : string)
    (sched : list Event) (c : Call) :
  reachable st →
  mu st = false →
  nodeType st = LEADER →
  Execute_run args sched st = Some c →
  RequestLog logArgs (call_node c)
  = Done (LogEntries (log st ++ [mkLogEntry (currentTerm st) args]))
      (call_node c)
  ∧ commitIndex (call_node c) = -1.
Proof.
  intros Hreach Hmu Hrole Hrun.
  destruct (reachable_Safe st Hreach) as (Hla & _ & Hci).
  destruct (Execute_run_ok st args sched c Hrole) as [[m Hnode] _];
    [unfold Idle; auto|exact Hrun|].
  rewrite Hnode. split; [|simpl; auto].
  unfold RequestLog. run. rewrite Hrole. reflexivity.
Qed.

Lemma RequestLog_during_Execute_witness :
  ∃ c,
    Execute_run "set x 1" [Answer 1 (ack true); Receive] leader_of_three
    = Some c
    ∧ RequestLog "" (call_node c)
      = Done (LogEntries (log leader_of_three
                          ++ [mkLogEntry (currentTerm leader_of_three) "set x 1"]))
          (call_node c)
    ∧ commitIndex (call_node c) = -1.
Proof.
  eexists. split; [vm_compute; reflexivity|].
  apply (RequestLog_during_Execute leader_of_three "set x 1" ""
           [Answer 1 (ack true); Receive]).
  - exact leader_of_three_reachable.
  - reflexivity.
  - reflexivity.
  - vm_compute. reflexivity.
Defined.

(** ** Elections: how the votes are counted *)

Lemma grants_cons votes a rest :
  grants votes (a :: rest)
  = (if VoteGranted (decode_vote (votes a)) then 1 else 0) + grants votes rest.
Proof.
  unfold grants, len. simpl.
  destruct (VoteGranted (decode_vote (votes a))); simpl; lia.
Qed.

Lemma grants_nonneg votes asked : 0 ≤ grants votes asked.
Proof. apply len_nonneg. Qed.

Lemma elected_run st :
  mu st = false →
  (locked (modify (set_nodeType LEADER) ;;
           modify (λ st, set_clusterLeader (Some (address st)) st))) st
  = Done tt (elected st).
Proof. intros Hmu. run. rewrite Hmu. simpl. f_equal. node_eq st. Qed.

(** The vote goroutines, run one after the other, when no reply carries a
    term above [electionTerm]. *)
Lemma collect_votes_count votes asked :
  ∀ k st,
    mu st = false →
    Forall (λ a, VResp_Term (decode_vote (votes a)) ≤ electionTerm st) asked →
    int_min ≤ k → k + len asked ≤ int_max →
    collect_votes votes asked k st
    = Done (k + grants votes asked)
        (if (0 <? grants votes asked)
            && (k + grants votes asked >? len (clusterAddrList st) `quot` 2)
         then elected st else st).
Proof.
  induction asked as [|a rest IH]; intros k st Hmu Hterms Hk Hmax.
  - simpl. unfold grants, len. simpl. rewrite Z.add_0_r. reflexivity.
  - apply Forall_cons in Hterms as [Hterm Hrest].
    assert (Hlen : len (a :: rest) = len rest + 1) by (unfold len; simpl; lia).
    rewrite Hlen in Hmax. pose proof (len_nonneg rest) as Hnn.
    pose proof (grants_nonneg votes rest) as Hg.
    rewrite grants_cons. simpl.
    unfold mbind at 1, M_bind at 1. unfold on_vote_response.
    unfold mbind at 1, M_bind at 1. unfold get at 1.
    replace (VResp_Term (decode_vote (votes a)) >? electionTerm st) with false
      by (symmetry; rewrite Z.gtb_ltb; apply Z.ltb_ge; lia).
    destruct (VoteGranted (decode_vote (votes a))).
    + rewrite (int_incr_small k) by lia.
      destruct (Z.gtb_spec (k + 1) (len (clusterAddrList st) `quot` 2))
        as [Hwon|Hnot].
      * unfold mbind at 1, M_bind at 1. rewrite (elected_run st Hmu).
        unfold mret, M_ret.
        rewrite (IH (k + 1) (elected st)) by (simpl; auto; lia).
        replace (0 <? 1 + grants votes rest) with true
          by (symmetry; apply Z.ltb_lt; lia).
        replace (k + (1 + grants votes rest)
                 >? len (clusterAddrList st) `quot` 2) with true
          by (symmetry; apply Z.gtb_lt; lia).
        simpl. f_equal; [lia|].
        destruct (_ && _); reflexivity.
      * unfold mret, M_ret.
        rewrite (IH (k + 1) st) by (auto; lia).
        replace (0 <? 1 + grants votes rest) with true
          by (symmetry; apply Z.ltb_lt; lia).
        replace (k + 1 + grants votes rest) with (k + (1 + grants votes rest))
          by lia.
        simpl. f_equal.
        destruct (Z.ltb_spec 0 (grants votes rest)) as [Hpos|Hzero];
          [reflexivity|].
        simpl.
        replace (k + (1 + grants votes rest)
                 >? len (clusterAddrList st) `quot` 2) with false
          by (symmetry; rewrite Z.gtb_ltb; apply Z.ltb_ge; lia).
        reflexivity.
    + unfold mret, M_ret. rewrite (IH k st) by (auto; lia).
      rewrite Z.add_0_l. reflexivity.
Qed.

(** The first half of [startElection], with a contact address. *)
Lemma begin_election_run st c :
  mu st = false → contactAddr st = Some c →
  int_min ≤ electionTerm st < int_max →
  begin_election st
  = Done (map (λ a, (a, mkRaftVoteRequest (electionTerm st + 1) (address st)
                          (len (log st) - 1) 0))
            (asked_peers c st))
      (set_clusterLeader None
         (set_electionTerm (electionTerm st + 1) (set_nodeType CANDIDATE st))).
Proof.
  intros Hmu Hc Hterm. unfold begin_election. run. rewrite Hmu. simpl.
  rewrite (int_incr_small _ Hterm).
  erewrite vote_requests_run by (simpl; exact Hc). simpl.
  f_equal. node_eq st.
Qed.

Lemma map_fst_pair {A B} (f : A → B) (l : list A) :
  map fst (map (λ a, (a, f a)) l) = l.
Proof. rewrite map_map. simpl. apply map_id. Qed.



(** ** Elections among nodes in use *)

(** The answer of a node in use, with its mutex free, to any vote request
    of a positive term. *)
Lemma RequestVote_in_use peer args :
  reachable peer → mu peer = false → 0 < VReq_Term args →
  RequestVote args peer = Done (mkRaftVoteResponse 0 false) peer.
Proof.
  intros Hreach Hmu Hterm.
  destruct (reachable_invariants peer Hreach) as (Hzero & _).
  rewrite RequestVote_term_rejected; [rewrite Hzero; reflexivity|exact Hmu|].
  unfold vote_term_rejects. rewrite Hzero. apply Z.gtb_lt. exact Hterm.
Qed.

Lemma grants_none votes asked :
  Forall (λ a, decode_vote (votes a) = mkRaftVoteResponse 0 false) asked →
  grants votes asked = 0.
Proof.
  induction 1 as [|a rest Ha _ IH]; [reflexivity|].
  rewrite grants_cons, Ha, IH. reflexivity.
Qed.

(** X22. No election is won among nodes in use.  A candidate with a
    non-negative [electionTerm] asks its peers; each of them either does not
    answer or is a node in use, with its mutex free, that answers the request
    through [RequestVote].  Then every answer is [voteGranted = false] with
    term 0, and [startElection] leaves the node a Candidate with no leader
    hint. *)
Theorem election_is_never_won (st : RaftNode) (c : Addr)
    (votes : Addr → option RaftVoteResponse) :
  mu st = false →
  contactAddr st = Some c →
  0 ≤ electionTerm st < int_max →
  len (asked_peers c st) < int_max →
  (∀ a, a ∈ asked_peers c st →
        votes a = None
        ∨ ∃ peer reply peer',
            reachable peer ∧ mu peer = false
            ∧ RequestVote (mkRaftVoteRequest (electionTerm st + 1) (address st)
                             (len (log st) - 1) 0) peer
              = Done reply peer'
            ∧ votes a = Some reply) →
  ∃ sent,
    startElection votes st
    = Done sent
        (set_clusterLeader None
           (set_electionTerm (electionTerm st + 1) (set_nodeType CANDIDATE st))).
Proof.
  intros Hmu Hc Hterm Hlen Hpeers.
  assert (Hall : Forall (λ a, decode_vote (votes a) = mkRaftVoteResponse 0 false)
                   (asked_peers c st)).
  { apply Forall_forall. intros a Ha.
    destruct (Hpeers a Ha) as [->|(peer & reply & peer' & Hr & Hm & Hrun & ->)];
      [reflexivity|].
    rewrite RequestVote_in_use in Hrun by (auto; simpl; lia).
    inversion Hrun. reflexivity. }
  set (candidate :=
         set_clusterLeader None
           (set_electionTerm (electionTerm st + 1) (set_nodeType CANDIDATE st))).
  unfold startElection. unfold mbind at 1, M_bind at 1.
  rewrite (begin_election_run st c Hmu Hc) by (unfold int_min; lia).
  fold candidate. rewrite map_fst_pair. unfold mbind, M_bind.
  rewrite (collect_votes_count votes (asked_peers c st) 1 candidate).
  - rewrite (grants_none _ _ Hall). simpl. eexists. reflexivity.
  - exact Hmu.
  - eapply Forall_impl; [exact Hall|]. intros a Ha. simpl in *.
    rewrite Ha. simpl. lia.
  - unfold int_min. lia.
  - lia.
Qed.

Lemma election_is_never_won_witness :
  ∃ sent,
    startElection (λ _, Some (mkRaftVoteResponse 0 false)) follower_of_three
    = Done sent
        (set_clusterLeader None
           (set_electionTerm (0 + 1) (set_nodeType CANDIDATE follower_of_three))).
Proof.
  apply (election_is_never_won follower_of_three nodeA
           (λ _, Some (mkRaftVoteResponse 0 false))).
  - reflexivity.
  - reflexivity.
  - simpl. unfold int_max. lia.
  - vm_compute. reflexivity.
  - intros a _. right.
    exists follower_of_three, (mkRaftVoteResponse 0 false), follower_of_three.
    split; [|split; [reflexivity|split; [vm_compute; reflexivity|reflexivity]]].
    apply (reachable_new nodeC (Some nodeA)
             [JoinSuccess [nodeA; nodeB; nodeC] (Some nodeA)]).
    vm_compute. reflexivity.
Defined.

(** ** [NewRaftNode]: the node that is handed out *)

(** X23. A node started without a contact address is, whatever its
    address, the leader of the cluster made of itself: LEADER, its own leader
    hint, the only member, with [nextIndex] 3 (the length of the log) and
    [matchIndex] -1 recorded for itself, both terms 0, no vote given and the
    mutex free. *)
Theorem NewRaftNode_bootstrap (addr : Addr) (replies : list JoinReply) :
  NewRaftNode addr None replies
  = Done tt
      {| mu := false; address := addr; nodeType := LEADER;
         app := KVStore.NewKVStore; clusterAddrList := [addr];
         clusterLeader := Some addr; contactAddr := None;
         electionTerm := 0; currentTerm := 0; votedFor := None;
         log := boot_log; commitIndex := -1; lastApplied := -1;
         nextIndex := {[ addr_ptr addr := 3 ]};
         matchIndex := {[ addr_ptr addr := -1 ]} |}.
Proof. reflexivity. Qed.

(** X24. A node started with a contact address is handed out exactly when
    the join succeeds, and then as a FOLLOWER with the cluster list and the
    leader hint of the first "success" reply, the contact address it was
    started with (redirections notwithstanding), empty [nextIndex] and
    [matchIndex], both terms 0, no vote given and the mutex free. *)
Theorem NewRaftNode_joining (addr c : Addr) (replies : list JoinReply) :
  match first_success replies with
  | Some (addrs, leader) =>
      NewRaftNode addr (Some c) replies
      = Done tt
          {| mu := false; address := addr; nodeType := FOLLOWER;
             app := KVStore.NewKVStore; clusterAddrList := addrs;
             clusterLeader := leader; contactAddr := Some c;
             electionTerm := 0; currentTerm := 0; votedFor := None;
             log := boot_log; commitIndex := -1; lastApplied := -1;
             nextIndex := ∅; matchIndex := ∅ |}
  | None => ∀ st, NewRaftNode addr (Some c) replies ≠ Done tt st
  end.
Proof.
  unfold NewRaftNode. run.
  rewrite tryToApplyMembership_run by reflexivity.
  destruct (first_success replies) as [[addrs leader]|]; [reflexivity|].
  intros st. destruct (malformed_first replies); discriminate.
Qed.

(** ** What the two handlers leave alone *)

(** X25. [AppendEntries] writes the log and [commitIndex] and, apart from
    the mutex it may be left holding, nothing else: whatever the request and
    however the call ends (reply, refusal or the wait in [commit]), the node
    keeps its role, its leader hint, both terms, its vote, its cluster list,
    [lastApplied] and the store; a leader or a candidate that receives a
    request from another leader does not step down. *)
Theorem AppendEntries_keeps_role (st : RaftNode) (args : AppendEntriesRequest)
    (st' : RaftNode) :
  node_after (AppendEntries args st) = Some st' →
  nodeType st' = nodeType st ∧ clusterLeader st' = clusterLeader st
  ∧ currentTerm st' = currentTerm st ∧ electionTerm st' = electionTerm st
  ∧ votedFor st' = votedFor st ∧ clusterAddrList st' = clusterAddrList st
  ∧ lastApplied st' = lastApplied st ∧ app st' = app st.
Proof.
  intros Hstep. destruct (mu st) eqn:Hmu.
  - unfold AppendEntries in Hstep. rewrite locked_held in Hstep by assumption.
    inversion Hstep; subst. tauto.
  - destruct (AppendEntries_after _ _ _ Hmu Hstep) as [->|[->| ->]];
      simpl; tauto.
Qed.

Lemma AppendEntries_keeps_role_witness :
  nodeType (set_log (accepted_log request_to_B leader_of_three) leader_of_three)
  = nodeType leader_of_three
  ∧ clusterLeader (set_log (accepted_log request_to_B leader_of_three) leader_of_three)
    = clusterLeader leader_of_three
  ∧ currentTerm (set_log (accepted_log request_to_B leader_of_three) leader_of_three)
    = currentTerm leader_of_three
  ∧ electionTerm (set_log (accepted_log request_to_B leader_of_three) leader_of_three)
    = electionTerm leader_of_three
  ∧ votedFor (set_log (accepted_log request_to_B leader_of_three) leader_of_three)
    = votedFor leader_of_three
  ∧ clusterAddrList (set_log (accepted_log request_to_B leader_of_three) leader_of_three)
    = clusterAddrList leader_of_three
  ∧ lastApplied (set_log (accepted_log request_to_B leader_of_three) leader_of_three)
    = lastApplied leader_of_three
  ∧ app (set_log (accepted_log request_to_B leader_of_three) leader_of_three)
    = app leader_of_three.
Proof.
  apply (AppendEntries_keeps_role leader_of_three request_to_B).
  vm_compute. reflexivity.
Defined.
